(** * napari-membrane-intensity: tracking and membrane measurement workers

    A shallow embedding of the worker classes of the plugin
    ([TrackCellsWorker], [SegmentCellsWorker], [MeasureMembraneIntensity]
    and the helpers of [utils.py]) together with the properties that the
    design document states about them.

    Conventions of the embedding:
    - a Python method that may raise is a function into [result]; a method
      that raises leaves the receiver as it was, which [state_after] spells
      out;
    - a numpy stack is the list of its frames, every frame flattened in
      C order, together with the shape shared by the frames;
    - Python [set]s are [gset]s, Python [dict]s whose iteration order is
      observed are association lists in insertion order, the others are
      [gmap]s;
    - integers are [Z]; the fixed-width stores of numpy are written out. *)

From Stdlib Require Import ZArith QArith Ascii String List Lia.
From stdpp Require Import base option list sets gmap strings sorting pretty.

Local Open Scope string_scope.
Local Open Scope Z_scope.

#[local] Set Warnings "-clear-no-such-hyp".

(* ================================================================== *)
(** * Python-level conventions *)
(* ================================================================== *)

Module Py.

(** The exceptions the modelled code can raise.  Every explicit [raise] of
    the repository is a [ValueError] carrying its message.  [OutOfFuel] is
    no Python exception: it marks a loop of the model that used up its
    iteration budget, and is shown not to happen.  [LibraryError] stands
    for any other exception that leaves a call into a library taken as a
    parameter (cellpose, trackpy, skimage), under the name of its class. *)
Inductive exn : Type :=
| ValueError (msg : string)
| IndexError
| KeyError
| TypeError
| OverflowError
| AttributeError
| OutOfFuel
| FileNotFoundError (path : string)
| LibraryError (class : string).

Inductive result (A : Type) : Type :=
| Ok (a : A)
| Raise (e : exn).
Arguments Ok {A} a.
Arguments Raise {A} e.

Definition bind {A B} (m : result A) (k : A -> result B) : result B :=
  match m with
  | Ok a => k a
  | Raise e => Raise e
  end.

(** The receiver after a call of a method that mutates it only when it
    does not raise. *)
Definition state_after {S} (before : S) (r : result S) : S :=
  match r with Ok s => s | Raise _ => before end.

(** [list.index]: position of the first occurrence. *)
Fixpoint index {A} `{EqDecision A} (a : A) (l : list A) : option Z :=
  match l with
  | [] => None
  | b :: l' => if decide (a = b) then Some 0
               else match index a l' with
                    | Some i => Some (i + 1)
                    | None => None
                    end
  end.

(** The characters of a string, as iterating over it yields them. *)
Definition chars (s : string) : list ascii := list_ascii_of_string s.

End Py.

Export Py.

#[global] Instance result_ret : MRet result := @Ok.
#[global] Instance result_bind : MBind result := fun A B k m => Py.bind m k.

(* ================================================================== *)
(** * Axis strings (the part of [check_axes] the three workers share) *)
(* ================================================================== *)

Module Axes.

Definition ordered : list ascii := ["T"; "Z"; "Y"; "X"]%char.

(** [valid = set(ordered)] *)
Definition valid : gset ascii := list_to_set ordered.

(** [candidate = set([a for a in axes])] *)
Definition candidate (axes : string) : gset ascii := list_to_set (chars axes).

(** [len(axes)] *)
Definition len (axes : string) : nat := List.length (chars axes).

(** The first two tests of every [check_axes]. *)
Definition check_tags (axes : string) : result unit :=
  if negb (Nat.eqb (len axes) (size (candidate axes))) then
    Raise (ValueError "The candidate axes contain duplicates.")
  else if negb (Nat.eqb (len axes) (size (valid ∩ candidate axes))) then
    Raise (ValueError "The candidate axes contain unknown elements.")
  else Ok tt.

(** The third test: [(data is not None) and (len(candidate) != data.ndim)];
    [bound] is the rank of the array the worker compares against, when it
    is bound. *)
Definition check_rank (bound : option nat) (axes : string) : result unit :=
  match bound with
  | Some ndim =>
      if negb (Nat.eqb (size (candidate axes)) ndim) then
        Raise (ValueError "The candidate axes are not compatible with the current data.")
      else Ok tt
  | None => Ok tt
  end.

(** The final loop of the tracking and segmentation workers. *)
Fixpoint order_loop (axes : list ascii) (last_pos : Z) : result unit :=
  match axes with
  | [] => Ok tt
  | a :: rest =>
      match index a ordered with
      | None => Raise (ValueError "is not in list")
      | Some curr_pos =>
          if curr_pos <? last_pos then
            Raise (ValueError "The candidate axes are not in the correct order.")
          else order_loop rest curr_pos
      end
  end.

Definition check_order (axes : string) : result unit :=
  order_loop (chars axes) (-1).

End Axes.

(* ================================================================== *)
(** * numpy stacks *)
(* ================================================================== *)

Module Np.

(** An array of rank at least one, seen along its first axis: [frames] are
    the sub-arrays [a[0]], [a[1]], ..., each flattened in C order, and
    [frame_shape] is [a.shape[1:]]. *)
Record stack : Type := {
  frame_shape : list nat;
  frames : list (list Z)
}.

(** [a.ndim] *)
Definition ndim (a : stack) : nat := S (List.length (frame_shape a)).

(** [a.shape[0]], also [len(a)] *)
Definition shape0 (a : stack) : Z := Z.of_nat (List.length (frames a)).

(** [seq[i]] for a Python sequence or the first axis of an array: a
    negative index counts from the end. *)
Definition getitem {A} (l : list A) (i : Z) : result A :=
  let n := Z.of_nat (List.length l) in
  let j := if i <? 0 then i + n else i in
  if (0 <=? j) && (j <? n) then
    from_option Ok (Raise IndexError) (l !! Z.to_nat j)
  else Raise IndexError.

(** The position [getitem] reads, for the in-place writes through an
    alias of [seq[i]]. *)
Definition position {A} (l : list A) (i : Z) : nat :=
  Z.to_nat (if i <? 0 then i + Z.of_nat (List.length l) else i).

(** What numpy does with a Python integer that does not fit the cell it is
    stored into: releases before 2.0 keep the low bits, later ones raise
    [OverflowError]. *)
Inductive overflow : Type := Wraps | Raises.

(** Conversion of a Python integer to [np.uint16]. *)
Definition to_uint16 (pol : overflow) (v : Z) : result Z :=
  if (0 <=? v) && (v <? 65536) then Ok v
  else match pol with
       | Wraps => Ok (v mod 65536)
       | Raises => Raise OverflowError
       end.

(** [np.zeros_like(a)] on one frame. *)
Definition zeros_like (f : list Z) : list Z := (fun _ => 0) <$> f.

(** [out[lab == key] = v] *)
Definition assign_where (lab : list Z) (key v : Z) (out : list Z) : list Z :=
  zip_with (fun l o => if decide (l = key) then v else o) lab out.

(** [np.unique(a)] and the keys of a [groupby]: the distinct values,
    increasing. *)
Definition unique (l : list Z) : list Z := merge_sort Z.le (remove_dups l).

(** [a[cond(b)]] for two arrays of one shape: the cells of [a] where the
    cell of [b] passes the test. *)
Definition select (cond : Z -> bool) (b a : list Z) : list Z :=
  snd <$> filter (fun ba : Z * Z => cond ba.1 = true) (zip b a).

(** The accumulator of [np.sum] on an array of integers: the 64-bit
    integer of the signedness of the cells, [int64] for a signed element
    type and [uint64] for an unsigned one. *)
Inductive accumulator : Type := int64 | uint64.

(** What the accumulator keeps of an exact sum: its low 64 bits. *)
Definition wrap (acc : accumulator) (x : Z) : Z :=
  match acc with
  | int64 => (x + 2 ^ 63) mod 2 ^ 64 - 2 ^ 63
  | uint64 => x mod 2 ^ 64
  end.

(** [np.sum(a)] on the integers [a] *)
Definition sum (acc : accumulator) (a : list Z) : Z :=
  wrap acc (foldr Z.add 0 a).

(** [np.broadcast_shapes] on two shapes written last axis first: the
    axes are paired from the last one, two extents agree when they are
    equal or one of them is 1, and the longer shape keeps its other
    axes. *)
Fixpoint broadcast_rev (s1 s2 : list nat) : option (list nat) :=
  match s1, s2 with
  | [], s => Some s
  | s, [] => Some s
  | d1 :: r1, d2 :: r2 =>
      match broadcast_rev r1 r2 with
      | Some r =>
          if (d1 =? d2)%nat then Some (d1 :: r)
          else if (d1 =? 1)%nat then Some (d2 :: r)
          else if (d2 =? 1)%nat then Some (d1 :: r)
          else None
      | None => None
      end
  end.

Definition broadcast_shapes (s1 s2 : list nat) : option (list nat) :=
  reverse <$> broadcast_rev (reverse s1) (reverse s2).

(** [n] consecutive runs of [size] cells. *)
Definition chunks {A} (size n : nat) (cells : list A) : list (list A) :=
  (fun k => take size (drop (k * size) cells)) <$> seq 0 n.

(** The cells, in C order, of an array of shape [src] broadcast to the
    shape [dst] of the same rank: along an axis of extent 1 the one
    sub-array is repeated. *)
Fixpoint broadcast_to {A} (src dst : list nat) (cells : list A) : list A :=
  match src, dst with
  | d :: src', e :: dst' =>
      let parts := broadcast_to src' dst'
                     <$> chunks (foldr Nat.mul 1%nat src') d cells in
      if (d =? e)%nat then concat parts
      else concat (replicate e (concat parts))
  | _, _ => cells
  end.

(** A shape with axes of extent 1 put before it, up to the rank of
    [dst]. *)
Definition pad_shape (dst s : list nat) : list nat :=
  replicate (List.length dst - List.length s) 1%nat ++ s.

(** Offset, in C order, of the cell that the unsigned coordinates [p]
    point at in an array of the given shape.  Every coordinate is checked
    against its axis; with fewer coordinates than axes the indexing
    designates a sub-array ([None]), with more it raises. *)
Fixpoint locate (shape : list nat) (p : list nat) : result (option nat) :=
  match p, shape with
  | [], [] => Ok (Some O)
  | [], _ :: _ => Ok None
  | _ :: _, [] => Raise IndexError
  | c :: p', d :: shape' =>
      if (c <? d)%nat then
        match locate shape' p' with
        | Ok o => Ok ((fun k => c * foldr Nat.mul 1 shape' + k)%nat <$> o)
        | Raise e => Raise e
        end
      else Raise IndexError
  end.

(** [a[*p]] for a row [p] of unsigned coordinates: the first one picks
    the frame, the others the cell in it.  [None] stands for the sub-array
    that too few coordinates give. *)
Definition item (a : stack) (p : list nat) : result (option Z) :=
  match p with
  | [] => Ok None
  | t :: rest =>
      match frames a !! t with
      | None => Raise IndexError
      | Some f =>
          match locate (frame_shape a) rest with
          | Ok (Some k) => from_option (fun v => Ok (Some v)) (Raise IndexError) (f !! k)
          | Ok None => Ok None
          | Raise e => Raise e
          end
      end
  end.

End Np.

(* ================================================================== *)
(** * Linked tables *)
(* ================================================================== *)

(** One row of the detection table after linking: the columns [frame], [x],
    [y], [size], [orig_label], [diameter] written by
    [labels_to_detections] and the column [particle] added by
    [link_tracks].  The floating-point columns are carried as rationals;
    the only code that reads them is the distance test of [make_pairs]. *)
Module Row.
Record t : Type := {
  frame : Z;
  x : Q;
  y : Q;
  size : Z;
  orig_label : Z;
  diameter : Q;
  particle : Z
}.

(** The same row with another [particle] value. *)
Definition with_particle (p : Z) (r : t) : t :=
  {| frame := frame r; x := x r; y := y r; size := size r;
     orig_label := orig_label r; diameter := diameter r; particle := p |}.
End Row.

(* ================================================================== *)
(** * [TrackCellsWorker] (track_cells.py) *)
(* ================================================================== *)

Module TrackCellsWorker.

(** The attributes the methods on tables and stacks read or write.  The
    linking settings ([search_range], [memory], [use_velocity]) and the two
    switches read by [run] are kept apart, in [settings] below; the raw
    [detections] are left out.  [labels_to_detections] and [link_tracks]
    are calls into skimage and trackpy: the linked table is taken as it
    comes out of [link_tracks], and [run] takes the two calls as a
    parameter.  [save_linked_tracks] is not modelled. *)
Record t : Type := {
  label_maps : option Np.stack;
  axes : string;
  linked : option (list Row.t);
  tracked_labels : option Np.stack;
  pairs : list (Z * Z)
}.

(** [__init__] *)
Definition init : t :=
  {| label_maps := None; axes := "TYX"; linked := None;
     tracked_labels := None; pairs := [] |}.

Definition with_axes (a : string) (w : t) : t :=
  {| label_maps := label_maps w; axes := a; linked := linked w;
     tracked_labels := tracked_labels w; pairs := pairs w |}.
Definition with_label_maps (d : option Np.stack) (w : t) : t :=
  {| label_maps := d; axes := axes w; linked := linked w;
     tracked_labels := tracked_labels w; pairs := pairs w |}.
Definition with_linked (l : option (list Row.t)) (w : t) : t :=
  {| label_maps := label_maps w; axes := axes w; linked := l;
     tracked_labels := tracked_labels w; pairs := pairs w |}.
Definition with_tracked_labels (d : option Np.stack) (w : t) : t :=
  {| label_maps := label_maps w; axes := axes w; linked := linked w;
     tracked_labels := d; pairs := pairs w |}.
Definition with_pairs (p : list (Z * Z)) (w : t) : t :=
  {| label_maps := label_maps w; axes := axes w; linked := linked w;
     tracked_labels := tracked_labels w; pairs := p |}.

Definition check_axes (w : t) (axes : string) : result unit :=
  _ ← Axes.check_tags axes;
  _ ← Axes.check_rank (Np.ndim <$> label_maps w) axes;
  Axes.check_order axes.

Definition set_axes (w : t) (axes : string) : result t :=
  _ ← check_axes w axes;
  Ok (with_axes axes w).

Definition set_label_maps (w : t) (data : Np.stack) : result t :=
  if negb (Nat.eqb (Np.ndim data) (Axes.len (axes w))) then
    Raise (ValueError "The candidate label maps are not compatible with the current axes.")
  else Ok (with_label_maps (Some data) w).

(** [self.axes[0] != 'T'], which raises on the empty string. *)
Definition axes0_is_not_T (w : t) : result bool :=
  match chars (axes w) with
  | [] => Raise IndexError
  | a0 :: _ => Ok (negb (Ascii.eqb a0 "T"))
  end.

(** [self.label_maps.shape[0] - 1] *)
Definition last_frame_idx (w : t) : result Z :=
  match label_maps w with
  | None => Raise AttributeError
  | Some lm => Ok (Np.shape0 lm - 1)
  end.

(** [df[df["frame"] == k]] *)
Definition rows_of_frame (k : Z) (tbl : list Row.t) : list Row.t :=
  filter (fun r => Row.frame r = k) tbl.

Definition isolate_full_tracks (w : t) : result t :=
  match linked w with
  | None => Raise (ValueError "No linked tracks to process.")
  | Some tbl =>
      no_time ← axes0_is_not_T w;
      if (no_time : bool) then Ok w
      else
        last ← last_frame_idx w;
        let complete_labels : gset Z :=
          list_to_set (Row.particle <$> rows_of_frame last tbl) in
        Ok (with_linked
              (Some (filter (fun r => Row.particle r ∈ complete_labels) tbl)) w)
  end.

(** ** Neighbor pairing *)

(** [DataFrame.drop_duplicates(subset=["particle"])]: the first row of
    every particle is kept. *)
Fixpoint drop_duplicates (seen : gset Z) (rows : list Row.t) : list Row.t :=
  match rows with
  | [] => []
  | r :: rest =>
      if decide (Row.particle r ∈ seen) then drop_duplicates seen rest
      else r :: drop_duplicates ({[Row.particle r]} ∪ seen) rest
  end.

(** [adj[k].add(v)] *)
Definition adj_add (k v : Z) (adj : gmap Z (gset Z)) : result (gmap Z (gset Z)) :=
  match adj !! k with
  | None => Raise KeyError
  | Some s => Ok (<[k := {[v]} ∪ s]> adj)
  end.

(** [valid_pairs[k] = v] on a dict kept in insertion order. *)
Fixpoint dict_set (k v : Z) (d : list (Z * Z)) : list (Z * Z) :=
  match d with
  | [] => [(k, v)]
  | (k', v') :: d' =>
      if decide (k = k') then (k, v) :: d' else (k', v') :: dict_set k v d'
  end.

(** The [while stack:] loop of [make_pairs].  The Python list [stack] is
    kept with its last element first, so that [stack.pop()] takes the
    head and the neighbours appended in turn end up reversed in front.
    [fuel] bounds the number of iterations. *)
Fixpoint explore (fuel : nat) (adj : gmap Z (gset Z))
    (stack : list Z) (comp : gset Z) : result (gset Z) :=
  match fuel with
  | O => Raise OutOfFuel
  | S fuel =>
      match stack with
      | [] => Ok comp
      | q :: stack =>
          if decide (q ∈ comp) then explore fuel adj stack comp
          else
            let comp := {[q]} ∪ comp in
            match adj !! q with
            | None => Raise KeyError
            | Some nbs =>
                let pushed := filter (fun nb => nb ∉ comp) (elements nbs) in
                explore fuel adj (rev pushed ++ stack) comp
            end
      end
  end.

(** What is left to do for [explore]: one unit per stacked node and, for
    every key not yet in the component, one unit plus its degree. *)
Definition weight (adj : gmap Z (gset Z)) (comp : gset Z) : nat :=
  sum_list_with (fun ks : Z * gset Z =>
                   if decide (ks.1 ∈ comp) then O else S (size ks.2))
                (map_to_list adj).

(** Iterations granted to one exploration started from a single node. *)
Definition explore_fuel (adj : gmap Z (gset Z)) : nat := S (S (weight adj ∅)).

(** The body of [for p in list(adj.keys())]: the state is
    [(visited, valid_pairs)]. *)
Definition component_step (adj : gmap Z (gset Z))
    (st : gset Z * list (Z * Z)) (p : Z) : result (gset Z * list (Z * Z)) :=
  let '(visited, valid_pairs) := st in
  if decide (p ∈ visited) then Ok st
  else
    comp ← explore (explore_fuel adj) adj [p] ∅;
    let visited := visited ∪ comp in
    if decide (size comp = 2%nat) then
      match elements comp with
      | [a; b] =>
          na ← from_option Ok (Raise KeyError) (adj !! a);
          if decide (size (na : gset Z) = 1%nat) then
            nb ← from_option Ok (Raise KeyError) (adj !! b);
            if decide (size (nb : gset Z) = 1%nat) then
              Ok (visited, dict_set b a (dict_set a b valid_pairs))
            else Ok (visited, valid_pairs)
          else Ok (visited, valid_pairs)
      | _ => Raise (ValueError "not enough values to unpack")
      end
    else Ok (visited, valid_pairs).

Fixpoint component_loop (adj : gmap Z (gset Z)) (keys : list Z)
    (st : gset Z * list (Z * Z)) : result (gset Z * list (Z * Z)) :=
  match keys with
  | [] => Ok st
  | p :: keys' => st' ← component_step adj st p; component_loop adj keys' st'
  end.

Section Pairing.

(** The floating-point test
    [np.hypot(xi - xj, yi - yj) < 1.5 * (diams[i] + diams[j])]
    on the rows [i] and [j] of [pts]. *)
Variable within_reach : Row.t -> Row.t -> bool.

(** The body of the two nested [for] loops. *)
Definition link (ri rj : Row.t) (adj : gmap Z (gset Z)) : result (gmap Z (gset Z)) :=
  if within_reach ri rj then
    adj ← adj_add (Row.particle ri) (Row.particle rj) adj;
    adj_add (Row.particle rj) (Row.particle ri) adj
  else Ok adj.

(** [for j in range(i + 1, n)] *)
Fixpoint link_row (ri : Row.t) (rest : list Row.t) (adj : gmap Z (gset Z))
    : result (gmap Z (gset Z)) :=
  match rest with
  | [] => Ok adj
  | rj :: rest' => adj' ← link ri rj adj; link_row ri rest' adj'
  end.

(** [for i in range(n)] *)
Fixpoint build_adjacency (pts : list Row.t) (adj : gmap Z (gset Z))
    : result (gmap Z (gset Z)) :=
  match pts with
  | [] => Ok adj
  | ri :: rest => adj' ← link_row ri rest adj; build_adjacency rest adj'
  end.

(** [{int(p): set() for p in particles}] *)
Definition empty_adjacency (particles : list Z) : gmap Z (gset Z) :=
  list_to_map ((fun p => (p, ∅)) <$> particles).

(** [make_pairs].  [self.pairs = {}] is executed before the tests that
    follow it; when one of them raises, the receiver keeps that reset. *)
Definition make_pairs (w : t) : result t :=
  match linked w with
  | None => Raise (ValueError "No linked tracks to process.")
  | Some tbl =>
      let w := with_pairs [] w in
      no_time ← axes0_is_not_T w;
      if (no_time : bool) then Ok w
      else
        last_idx ← last_frame_idx w;
        let last := rows_of_frame last_idx tbl in
        if decide (last = []) then Ok w
        else
          let pts := drop_duplicates ∅ last in
          let particles := Row.particle <$> pts in
          adj ← build_adjacency pts (empty_adjacency particles);
          st ← component_loop adj particles (∅, []);
          Ok (with_pairs st.2 w)
  end.

End Pairing.

(** [Series.max()] of the [particle] column; [None] stands for the NaN of
    an empty column. *)
Definition series_max (l : list Z) : option Z :=
  match l with
  | [] => None
  | a :: l' => Some (foldr Z.max a l')
  end.

(** The [for p1, p2 in self.pairs.items()] loop: the state is
    [(pair_map, new_particle_id)]. *)
Fixpoint pairing_loop (items : list (Z * Z)) (st : gmap Z Z * Z) : gmap Z Z * Z :=
  match items with
  | [] => st
  | (p1, p2) :: items' =>
      let '(pair_map, new_particle_id) := st in
      if decide (p1 ∈ dom pair_map ∨ p2 ∈ dom pair_map) then
        pairing_loop items' st
      else
        pairing_loop items'
          (<[p2 := new_particle_id]> (<[p1 := new_particle_id]> pair_map),
           new_particle_id + 1)
  end.

(** [lambda x: pair_map[x] if x in pair_map else x] *)
Definition remap (pair_map : gmap Z Z) (x : Z) : Z := default x (pair_map !! x).

(** The [pair_map] that [apply_pairing] builds for a table and a pair
    dict; on an empty table the new identities are NaN and no row is
    there to receive them. *)
Definition pair_map_of (tbl : list Row.t) (pairs : list (Z * Z)) : gmap Z Z :=
  match series_max (Row.particle <$> tbl) with
  | None => ∅
  | Some m => (pairing_loop pairs (∅, m + 1)).1
  end.

Definition apply_pairing (w : t) : result t :=
  match linked w with
  | None => Raise (ValueError "No linked tracks to process.")
  | Some tbl =>
      if decide (pairs w = []) then Ok w
      else
        let pair_map := pair_map_of tbl (pairs w) in
        Ok (with_linked
              (Some ((fun r => Row.with_particle (remap pair_map (Row.particle r)) r)
                     <$> tbl)) w)
  end.

(** ** Relabeling *)

(** The body of [for _, row in g.iterrows()], on the frame [lab] and the
    output frame [out_t]. *)
Definition relabel_row (pol : Np.overflow) (lab : list Z) (row : Row.t)
    (out_t : list Z) : result (list Z) :=
  let track_id := Row.particle row in
  let orig_label := Row.orig_label row in
  if decide (orig_label = 0) then Ok out_t
  else
    v ← Np.to_uint16 pol track_id;
    Ok (Np.assign_where lab orig_label v out_t).

Fixpoint relabel_rows (pol : Np.overflow) (lab : list Z) (g : list Row.t)
    (out_t : list Z) : result (list Z) :=
  match g with
  | [] => Ok out_t
  | row :: g' =>
      out_t' ← relabel_row pol lab row out_t;
      relabel_rows pol lab g' out_t'
  end.

(** [for t, g in self.linked.groupby("frame")]: the groups come in
    increasing order of [t], and [out_t] aliases [out[t]]. *)
Fixpoint relabel_groups (pol : Np.overflow) (lm : Np.stack) (tbl : list Row.t)
    (keys : list Z) (out : list (list Z)) : result (list (list Z)) :=
  match keys with
  | [] => Ok out
  | t :: keys' =>
      lab ← Np.getitem (Np.frames lm) t;
      out_t ← Np.getitem out t;
      out_t' ← relabel_rows pol lab (rows_of_frame t tbl) out_t;
      relabel_groups pol lm tbl keys' (<[Np.position out t := out_t']> out)
  end.

Definition relabel_with_tracks (pol : Np.overflow) (w : t) : result t :=
  match label_maps w with
  | None => Raise TypeError
  | Some lm =>
      let out := Np.zeros_like <$> Np.frames lm in
      match linked w with
      | None => Raise AttributeError
      | Some tbl =>
          out' ← relabel_groups pol lm tbl (Np.unique (Row.frame <$> tbl)) out;
          Ok (with_tracked_labels
                (Some {| Np.frame_shape := Np.frame_shape lm; Np.frames := out' |}) w)
      end
  end.

(** ** Rebinding the label maps *)

(** [override_label_maps]: the label maps are unbound before anything is
    checked, so the receiver is given back also when the call raises. *)
Definition override_label_maps (w : t) (labels : Np.stack) (axes : string)
    : result unit * t :=
  let w0 := with_label_maps None w in
  match set_axes w0 axes with
  | Raise e => (Raise e, w0)
  | Ok w1 =>
      match set_label_maps w1 labels with
      | Raise e => (Raise e, w1)
      | Ok w2 => (Ok tt, w2)
      end
  end.

(** ** Settings *)

(** The attributes read by the linking and by [run].  The widget hands
    [set_search_range] the integer of a spin box and the two switches a
    boolean. *)
Record settings : Type := {
  search_range : Z;
  memory : Z;
  use_velocity : bool;
  merge_neighbors : bool;
  remove_incomplete : bool
}.

(** Their values in [__init__]. *)
Definition default_settings : settings :=
  {| search_range := 50; memory := 2; use_velocity := true;
     merge_neighbors := false; remove_incomplete := false |}.

Definition set_merge_neighbors (s : settings) (mn : bool) : settings :=
  {| search_range := search_range s; memory := memory s;
     use_velocity := use_velocity s; merge_neighbors := mn;
     remove_incomplete := remove_incomplete s |}.

Definition set_remove_incomplete (s : settings) (ri : bool) : settings :=
  {| search_range := search_range s; memory := memory s;
     use_velocity := use_velocity s; merge_neighbors := merge_neighbors s;
     remove_incomplete := ri |}.

Definition set_search_range (s : settings) (sr : Z) : result settings :=
  if sr <=? 0 then
    Raise (ValueError "The search range cannot be negative or zero")
  else Ok {| search_range := sr; memory := memory s;
             use_velocity := use_velocity s;
             merge_neighbors := merge_neighbors s;
             remove_incomplete := remove_incomplete s |}.

Definition set_memory (s : settings) (mem : Z) : result settings :=
  if mem <? 0 then Raise (ValueError "The memory cannot be negative")
  else Ok {| search_range := search_range s; memory := mem;
             use_velocity := use_velocity s;
             merge_neighbors := merge_neighbors s;
             remove_incomplete := remove_incomplete s |}.

Definition set_use_velocity (s : settings) (uv : bool) : settings :=
  {| search_range := search_range s; memory := memory s;
     use_velocity := uv; merge_neighbors := merge_neighbors s;
     remove_incomplete := remove_incomplete s |}.

(** ** The whole pipeline *)

Section Run.

Variable within_reach : Row.t -> Row.t -> bool.

(** [labels_to_detections] followed by [link_tracks]: the table trackpy
    links from the regions of the label maps under the settings, its
    [particle] column already shifted by one, or the exception of the
    library. *)
Variable detect_and_link : Np.stack -> settings -> result (list Row.t).

(** The part of [run] under [if self.merge_neighbors:].  When
    [make_pairs] raises after its guard, [self.pairs] is already reset. *)
Definition merge_step (w : t) : result unit * t :=
  match make_pairs within_reach w with
  | Raise e => (Raise e, match linked w with
                         | None => w
                         | Some _ => with_pairs [] w
                         end)
  | Ok w1 =>
      match apply_pairing w1 with
      | Raise e => (Raise e, w1)
      | Ok w2 => (Ok tt, w2)
      end
  end.

(** [run]: the outcome and the receiver afterwards; every step that
    returned has left its assignment behind when a later one raises. *)
Definition run (pol : Np.overflow) (w : t) (s : settings) : result unit * t :=
  match label_maps w with
  | None => (Raise (ValueError "Label maps have not been set."), w)
  | Some lm =>
      match detect_and_link lm s with
      | Raise e => (Raise e, w)
      | Ok tbl =>
          let w1 := with_linked (Some tbl) w in
          match (if remove_incomplete s then isolate_full_tracks w1 else Ok w1) with
          | Raise e => (Raise e, w1)
          | Ok w2 =>
              match (if merge_neighbors s then merge_step w2 else (Ok tt, w2)) with
              | (Raise e, w3) => (Raise e, w3)
              | (Ok _, w3) =>
                  match relabel_with_tracks pol w3 with
                  | Raise e => (Raise e, w3)
                  | Ok w4 => (Ok tt, w4)
                  end
              end
          end
      end
  end.

End Run.

End TrackCellsWorker.

(* ================================================================== *)
(** * [SegmentCellsWorker] (segment_cells.py) *)
(* ================================================================== *)

Module SegmentCellsWorker.

(** The attributes that take part in the binding of axes and data; the
    settings handed to cellpose are kept apart, in [settings] below. *)
Record t : Type := {
  axes : string;
  segmentation_channel : option Np.stack
}.

Definition init : t := {| axes := "TYX"; segmentation_channel := None |}.

Definition check_axes (w : t) (axes : string) : result unit :=
  _ ← Axes.check_tags axes;
  _ ← Axes.check_rank (Np.ndim <$> segmentation_channel w) axes;
  Axes.check_order axes.

Definition set_axes (w : t) (axes : string) : result t :=
  _ ← check_axes w axes;
  Ok {| axes := axes; segmentation_channel := segmentation_channel w |}.

Definition set_segmentation_channel (w : t) (data : Np.stack) : result t :=
  if negb (Nat.eqb (Np.ndim data) (Axes.len (axes w))) then
    Raise (ValueError "The candidate channel is not compatible with the current axes.")
  else Ok {| axes := axes w; segmentation_channel := Some data |}.

(** [override_segmentation_channel]: the channel is unbound first, so the
    receiver is given back also when the call raises. *)
Definition override_segmentation_channel (w : t) (channel : Np.stack)
    (axes : string) : result unit * t :=
  let w0 := {| axes := SegmentCellsWorker.axes w; segmentation_channel := None |} in
  match set_axes w0 axes with
  | Raise e => (Raise e, w0)
  | Ok w1 =>
      match set_segmentation_channel w1 channel with
      | Raise e => (Raise e, w1)
      | Ok w2 => (Ok tt, w2)
      end
  end.

(** The attributes handed to cellpose.  [objs_diameter] is the integer of
    a spin box; [anisotropy] is a float.  Their setters are not modelled:
    what follows holds for every value of the four. *)
Record settings (float : Type) : Type := {
  use_gpu : bool;
  objs_diameter : Z;
  anisotropy : float;
  model_name : string
}.
Arguments use_gpu {float} s.
Arguments objs_diameter {float} s.
Arguments anisotropy {float} s.
Arguments model_name {float} s.

(** Their values in [__init__], for a given default [anisotropy] (1.0 in
    the source). *)
Definition default_settings {float : Type} (one : float) : settings float :=
  {| use_gpu := true; objs_diameter := 30; anisotropy := one;
     model_name := "cyto3" |}.

Section Inference.

(** The three calls into cellpose, each with the exception it may raise:
    [logger_setup()], which opens a log file; the constructor
    [models.CellposeModel(gpu=..., model_type=...)], which loads the
    weights and downloads them when they are missing; and
    [model.eval(t_point, do_3D=..., diameter=..., anisotropy=...)[0]], the
    masks of an image given by its shape and its cells in C order.  The
    masks have the shape of the image, so that [np.array] stacks them. *)
Variable float : Type.
Variable model : Type.
Variable logger_setup : result unit.
Variable CellposeModel : bool -> string -> result model.
Variable model_eval :
  model -> list nat -> list Z -> bool -> Z -> float -> result (list Z).

(** ['T' in self.axes] and ['Z' in self.axes] *)
Definition has_time (w : t) : bool := bool_decide ("T"%char ∈ chars (axes w)).
Definition do_3D (w : t) : bool := bool_decide ("Z"%char ∈ chars (axes w)).

(** [imIn.shape] *)
Definition shape (a : Np.stack) : list nat :=
  List.length (Np.frames a) :: Np.frame_shape a.

(** One iteration of [for t in range(n_frame)]: the masks appended to
    [all_masks]. *)
Definition inference_frame (m : model) (s : settings float) (w : t)
    (imIn : Np.stack) (t : nat) : result (list Z) :=
  if has_time w then
    t_point ← Np.getitem (Np.frames imIn) (Z.of_nat t);
    model_eval m (Np.frame_shape imIn) t_point (do_3D w)
               (objs_diameter s) (anisotropy s)
  else
    model_eval m (shape imIn) (concat (Np.frames imIn)) (do_3D w)
               (objs_diameter s) (anisotropy s).

(** [inference]: the list [all_masks] that [np.array] stacks; the
    progress lines are left out, and [callback] is [None], as [run] is
    called. *)
Definition inference (m : model) (s : settings float) (w : t)
    (imIn : Np.stack) : result (list (list Z)) :=
  let t_axis := if has_time w then index "T"%char (chars (axes w)) else Some 0 in
  n_frame ← (if has_time w then
               match t_axis with
               | Some k => from_option Ok (Raise IndexError) (shape imIn !! Z.to_nat k)
               | None => Raise (ValueError "substring not found")
               end
             else Ok 1%nat);
  mapM (inference_frame m s w imIn) (seq 0 n_frame).

(** [run]: the value assigned to [self.label_maps]. *)
Definition run (s : settings float) (w : t) : result (list (list Z)) :=
  if (Axes.len (axes w) <? 2)%nat then
    Raise (ValueError "The axes have not been set or are invalid.")
  else
    match segmentation_channel w with
    | None => Raise (ValueError "The segmentation channel has not been set.")
    | Some channel =>
        _ ← logger_setup;
        m ← CellposeModel (use_gpu s) (model_name s);
        inference m s w channel
    end.

End Inference.

End SegmentCellsWorker.

(* ================================================================== *)
(** * Files and random numbers (utils.py) *)
(* ================================================================== *)

Module IO.

(** What the helpers of [utils.py] touch outside the worker: the
    pseudo-random generator ([rng k] is what the [k]-th call of
    [random.randint] draws from), the directory [/tmp/exported] and the
    files written so far, most recent first. *)
Record world : Type := {
  rng : nat -> Z;
  drawn : nat;
  export_dir : bool;
  written : list string
}.

Definition io (A : Type) : Type := world -> result A * world.

#[global] Instance io_ret : MRet io := fun A a σ => (Ok a, σ).
#[global] Instance io_bind : MBind io := fun A B k m σ =>
  match m σ with
  | (Ok a, σ') => k a σ'
  | (Raise e, σ') => (Raise e, σ')
  end.

(** A computation that touches nothing. *)
Definition lift {A} (r : result A) : io A := fun σ => (r, σ).

(** [random.randint(0, 1000)] *)
Definition randint_0_1000 : io Z := fun σ =>
  (Ok (rng σ (drawn σ) mod 1001),
   {| rng := rng σ; drawn := S (drawn σ); export_dir := export_dir σ;
      written := written σ |}).

(** [tifffile.imwrite(path, data)] for a path under [/tmp/exported]: it
    needs the directory.  The pixels written are not recorded. *)
Definition imwrite (path : string) : io unit := fun σ =>
  if export_dir σ then
    (Ok tt, {| rng := rng σ; drawn := drawn σ; export_dir := export_dir σ;
               written := path :: written σ |})
  else (Raise (FileNotFoundError path), σ).

(** [for x in l: body(x)] threading a state. *)
Fixpoint for_each {A S} (body : S -> A -> io S) (l : list A) (s : S) : io S :=
  match l with
  | [] => mret s
  | a :: l' => s' ← body s a; for_each body l' s'
  end.

End IO.

Module Utils.
Import IO.

(** [get_integrated_intensity(intensity, label)]: [label] is the mask of
    the region ([prop.image]) and [intensity] its intensities
    ([prop.intensity_image]), here over the whole frame instead of the
    bounding box.  [acc] is the accumulator [np.sum] takes for the element
    type of [intensity]: the sum is kept modulo 2^64. *)
Definition get_integrated_intensity (acc : Np.accumulator)
    (intensity label : list Z) : io Z :=
  rdm_nbr ← randint_0_1000;
  _ ← imwrite ("/tmp/exported/intensity-" +:+ pretty rdm_nbr +:+ ".tif");
  _ ← imwrite ("/tmp/exported/label-" +:+ pretty rdm_nbr +:+ ".tif");
  let mask := fun l => 0 <? l in
  mret (Np.sum acc (Np.select mask label intensity)).

(** [keep_labels(data, points)]: [points] holds the rows of
    [points.astype(np.uint16)], one list of unsigned coordinates per point.
    Building the [set] hashes every picked value, which a sub-array does
    not allow.  The labels are run through in the order of the set. *)
Definition keep_labels (data : Np.stack) (points : list (list nat))
    : result Np.stack :=
  picked ← mapM (Np.item data) points;
  labels ← mapM (from_option Ok (Raise TypeError)) picked;
  let labels_list := elements (list_to_set labels : gset Z) in
  let output := Np.zeros_like <$> Np.frames data in
  Ok {| Np.frame_shape := Np.frame_shape data;
        Np.frames :=
          foldl (fun output label =>
                   zip_with (fun lab out => Np.assign_where lab label label out)
                            (Np.frames data) output)
                output labels_list |}.

End Utils.

(* ================================================================== *)
(** * Library functions on frames *)
(* ================================================================== *)

Module Ndimage.

(** Strides, in cells, of a C-ordered array of the given shape. *)
Fixpoint strides (shape : list nat) : list nat :=
  match shape with
  | [] => []
  | _ :: rest => foldr Nat.mul 1%nat rest :: strides rest
  end.

Definition cell (m : list bool) (i : nat) : bool := default false (m !! i).

(** Along the axis of extent [d] and stride [s], both neighbours of cell
    [i] exist and are set.  Cells outside the array count as unset
    ([border_value=0]). *)
Definition axis_kept (m : list bool) (i : nat) (ds : nat * nat) : bool :=
  let c := ((i / ds.2) mod ds.1)%nat in
  (1 <=? c)%nat && (c + 1 <? ds.1)%nat
  && cell m (i - ds.2) && cell m (i + ds.2).

(** One pass of erosion by the default structuring element of
    [scipy.ndimage.binary_erosion]: the cell and its two neighbours along
    every axis. *)
Definition erode1 (shape : list nat) (m : list bool) : list bool :=
  imap (fun i b => b && forallb (axis_kept m i) (zip shape (strides shape))) m.

(** Passes repeated until nothing changes, at most [fuel] of them. *)
Fixpoint erode_stable (fuel : nat) (shape : list nat) (m : list bool) : list bool :=
  match fuel with
  | O => m
  | S fuel =>
      let m' := erode1 shape m in
      if decide (m' = m) then m else erode_stable fuel shape m'
  end.

(** [binary_erosion(input, iterations=n)]: nonzero cells are the set ones;
    [n] passes, or passes until stable when [n < 1]. *)
Definition binary_erosion (shape : list nat) (input : list Z) (iterations : Z)
    : list bool :=
  let m := (fun v => negb (v =? 0)) <$> input in
  if iterations <? 1 then erode_stable (S (List.length m)) shape m
  else Nat.iter (Z.to_nat iterations) (erode1 shape) m.

End Ndimage.

(* ================================================================== *)
(** * [MeasureMembraneIntensity] (measure_intensity.py) *)
(* ================================================================== *)

Module MeasureMembraneIntensity.
Import IO.

Section Float64.

(** Floating-point numbers and the numpy reductions that produce them
    are taken as given: [np_mean] and [np_std] are [np.mean] and
    [np.std] on the cells handed to them, [fadd] and [fmul] the float64
    sum and product, and [lt_float v x] is the numpy comparison [v < x]
    of an integer cell with a float.  Intensities are integer images, and
    [acc] is the accumulator of [np.sum] for their element type. *)
Variable float : Type.
Variable np_mean np_std : list Z -> float.
Variable fadd fmul : float -> float -> float.
Variable lt_float : Z -> float -> bool.
Variable acc : Np.accumulator.

(** One entry of [results[t]]: the 3-tuple written by the first loop of
    [measure_intensities], or the 6-tuple the second loop replaces it
    with. *)
Inductive record : Type :=
| RingOnly (mean_ring : float) (integrated_ring area_ring : Z)
| RingAndInner (mean_ring : float) (integrated_ring area_ring : Z)
               (mean_inner : float) (integrated_inner area_inner : Z).

(** [len] of the tuple. *)
Definition arity (r : record) : nat :=
  match r with RingOnly _ _ _ => 3 | RingAndInner _ _ _ _ _ _ => 6 end.

(** The attributes of the worker.  The dicts of [results] are kept as
    finite maps: no modelled code depends on their iteration order.
    [set_factor], a guard on a float, is left out. *)
Record t : Type := {
  label_maps : option Np.stack;
  axes : string;
  intensity_channel : option Np.stack;
  membrane_thickness : Z;
  factor : float;
  rings : option Np.stack;
  inner : option Np.stack;
  results : option (list (gmap Z record))
}.

Definition with_axes (a : string) (w : t) : t :=
  {| label_maps := label_maps w; axes := a;
     intensity_channel := intensity_channel w;
     membrane_thickness := membrane_thickness w; factor := factor w;
     rings := rings w; inner := inner w; results := results w |}.
Definition with_label_maps (d : option Np.stack) (w : t) : t :=
  {| label_maps := d; axes := axes w;
     intensity_channel := intensity_channel w;
     membrane_thickness := membrane_thickness w; factor := factor w;
     rings := rings w; inner := inner w; results := results w |}.
Definition with_intensity_channel (d : option Np.stack) (w : t) : t :=
  {| label_maps := label_maps w; axes := axes w;
     intensity_channel := d;
     membrane_thickness := membrane_thickness w; factor := factor w;
     rings := rings w; inner := inner w; results := results w |}.
Definition with_membrane_thickness (n : Z) (w : t) : t :=
  {| label_maps := label_maps w; axes := axes w;
     intensity_channel := intensity_channel w;
     membrane_thickness := n; factor := factor w;
     rings := rings w; inner := inner w; results := results w |}.
Definition with_buffers (r i : Np.stack) (w : t) : t :=
  {| label_maps := label_maps w; axes := axes w;
     intensity_channel := intensity_channel w;
     membrane_thickness := membrane_thickness w; factor := factor w;
     rings := Some r; inner := Some i; results := results w |}.
Definition with_results (res : list (gmap Z record)) (w : t) : t :=
  {| label_maps := label_maps w; axes := axes w;
     intensity_channel := intensity_channel w;
     membrane_thickness := membrane_thickness w; factor := factor w;
     rings := rings w; inner := inner w; results := Some res |}.

(** [__init__], for a given default [factor] (2.0 in the source). *)
Definition init (two : float) : t :=
  {| label_maps := None; axes := "TYX"; intensity_channel := None;
     membrane_thickness := 4; factor := two;
     rings := None; inner := None; results := None |}.

(** ** Binding axes and data *)

Definition check_axes (w : t) (axes : string) : result unit :=
  _ ← Axes.check_tags axes;
  Axes.check_rank (Np.ndim <$> intensity_channel w) axes.

Definition set_axes (w : t) (axes : string) : result t :=
  _ ← check_axes w axes;
  Ok (with_axes axes w).

Definition set_label_maps (w : t) (data : Np.stack) : result t :=
  if negb (Nat.eqb (Np.ndim data) (Axes.len (axes w))) then
    Raise (ValueError "The candidate label maps are not compatible with the current axes.")
  else Ok (with_label_maps (Some data) w).

Definition set_intensity_channel (w : t) (data : Np.stack) : result t :=
  if negb (Nat.eqb (Np.ndim data) (Axes.len (axes w))) then
    Raise (ValueError "The candidate intensity channel is not compatible with the current axes.")
  else Ok (with_intensity_channel (Some data) w).

(** The two [override_] methods unbind the array before anything else;
    when [set_axes] or the setter raises, the receiver stays unbound, which
    the [result] does not show. *)
Definition override_label_maps (w : t) (labels : Np.stack) (axes : string)
    : result t :=
  w1 ← set_axes (with_label_maps None w) axes;
  set_label_maps w1 labels.

Definition override_intensity_channel (w : t) (channel : Np.stack)
    (axes : string) : result t :=
  w1 ← set_axes (with_intensity_channel None w) axes;
  set_intensity_channel w1 channel.

Definition set_membrane_thickness (w : t) (thickness : Z) : result t :=
  if thickness <=? 0 then
    Raise (ValueError "The membrane thickness cannot be negative or zero")
  else Ok (with_membrane_thickness thickness w).

(** ** Ring and inner masks *)

(** The body of [for value in unique_vals] on the frame [lab]; the state
    is [(buffer_rings[t], buffer_inner[t])].  [mask - eroded] is a
    subtraction of [uint8] cells. *)
Definition outline_label (shape : list nat) (thickness : Z) (lab : list Z)
    (bufs : list Z * list Z) (value : Z) : list Z * list Z :=
  if value =? 0 then bufs
  else
    let mask := (fun l => if decide (l = value) then 1 else 0) <$> lab in
    let eroded := Ndimage.binary_erosion shape mask thickness in
    let rings := zip_with (fun m e => ((m - Z.b2z e) mod 256) * value) mask eroded in
    let inner := (fun e => Z.b2z e * value) <$> eroded in
    (zip_with Z.lor bufs.1 rings, zip_with Z.lor bufs.2 inner).

(** One iteration of [for t in range(len(self.label_maps))]. *)
Definition outline_frame (shape : list nat) (thickness : Z) (lab : list Z)
    : list Z * list Z :=
  foldl (outline_label shape thickness lab)
        (Np.zeros_like lab, Np.zeros_like lab) (Np.unique lab).

(** [labels_to_outlines]; the progress lines it prints are left out. *)
Definition labels_to_outlines (w : t) : result (Np.stack * Np.stack) :=
  match label_maps w with
  | None => Raise (ValueError "Label maps have not been set.")
  | Some lm =>
      let out := outline_frame (Np.frame_shape lm) (membrane_thickness w)
                   <$> Np.frames lm in
      Ok ({| Np.frame_shape := Np.frame_shape lm; Np.frames := fst <$> out |},
          {| Np.frame_shape := Np.frame_shape lm; Np.frames := snd <$> out |})
  end.

(** ** Outlier mask *)

(** [intensities[labels > 0]] *)
Definition labelled_values (labels intensities : list Z) : list Z :=
  Np.select (fun l => 0 <? l) labels intensities.

(** [mean + self.factor * stddev] for one frame. *)
Definition too_bright (w : t) (labels intensities : list Z) : float :=
  let values := labelled_values labels intensities in
  let stddev := np_std values in
  let mean := np_mean values in
  fadd mean (fmul (factor w) stddev).

(** [intensities[labels > 0]] when the shape of [labels] is the
    beginning of the shape of [intensities]: every label stands for a run
    of [size] intensities, and the runs under a positive label are
    selected. *)
Definition labelled_runs (size : nat) (labels intensities : list Z) : list Z :=
  concat (snd <$> filter (fun lr : Z * list Z => (0 <? lr.1) = true)
                    (zip labels (Np.chunks size (List.length labels) intensities))).

(** One iteration of [for t in range(len(self.intensity_channel))]: the
    new value of [mask[t]].  Indexing one frame by the boolean image of
    the other needs the shape of the label frame to be the shape of the
    intensity frame, or the beginning of it. *)
Definition outlier_frame (w : t) (ic : Np.stack) (t : nat)
    (intensities : list Z) : result (list bool) :=
  match label_maps w with
  | None => Raise TypeError
  | Some lm =>
      labels ← Np.getitem (Np.frames lm) (Z.of_nat t);
      if decide (Np.frame_shape lm = Np.frame_shape ic) then
        let limit := too_bright w labels intensities in
        Ok ((fun v => lt_float v limit) <$> intensities)
      else if decide (Np.frame_shape lm `prefix_of` Np.frame_shape ic) then
        let size := foldr Nat.mul 1%nat
                      (drop (List.length (Np.frame_shape lm)) (Np.frame_shape ic)) in
        let values := labelled_runs size labels intensities in
        let limit := fadd (np_mean values) (fmul (factor w) (np_std values)) in
        Ok ((fun v => lt_float v limit) <$> intensities)
      else Raise IndexError
  end.

Fixpoint outlier_loop (w : t) (ic : Np.stack) (t : nat)
    (todo : list (list Z)) : result (list (list bool)) :=
  match todo with
  | [] => Ok []
  | intensities :: todo' =>
      m ← outlier_frame w ic t intensities;
      ms ← outlier_loop w ic (S t) todo';
      Ok (m :: ms)
  end.

(** [remove_outlier_intensities]: the mask is [True] on the cells that
    are kept; the summary it prints per frame is left out. *)
Definition remove_outlier_intensities (w : t) : result (list (list bool)) :=
  match intensity_channel w with
  | None => Raise (ValueError "Intensity channel has not been set.")
  | Some ic => outlier_loop w ic 0%nat (Np.frames ic)
  end.

(** [buffer * discard_mask]: an integer stack times a boolean stack.
    Operands of one shape are multiplied cell by cell; operands of
    different shapes are first broadcast to their common shape, and the
    product raises when they have none. *)
Definition apply_mask (buffer : Np.stack) (mask_shape : list nat)
    (discard_mask : list (list bool)) : result Np.stack :=
  if decide (Np.frame_shape buffer = mask_shape
             ∧ List.length (Np.frames buffer) = List.length discard_mask) then
    Ok {| Np.frame_shape := Np.frame_shape buffer;
          Np.frames := zip_with (zip_with (fun v b => v * Z.b2z b))
                         (Np.frames buffer) discard_mask |}
  else
    let buffer_shape := List.length (Np.frames buffer) :: Np.frame_shape buffer in
    let mask_shape := List.length discard_mask :: mask_shape in
    match Np.broadcast_shapes buffer_shape mask_shape with
    | Some ((n :: frame_shape) as shape) =>
        let values := Np.broadcast_to (Np.pad_shape shape buffer_shape) shape
                        (concat (Np.frames buffer)) in
        let flags := Np.broadcast_to (Np.pad_shape shape mask_shape) shape
                       (concat discard_mask) in
        Ok {| Np.frame_shape := frame_shape;
              Np.frames := Np.chunks (foldr Nat.mul 1%nat frame_shape) n
                             (zip_with (fun v b => v * Z.b2z b) values flags) |}
    | _ => Raise (ValueError "operands could not be broadcast together")
    end.

(** ** Measurements *)

(** What [measure_intensities] reads of one region of
    [skimage.measure.regionprops]; [image] and [intensity_image] are
    kept over the whole frame instead of the bounding box. *)
Record region : Type := {
  label : Z;
  image : list Z;
  intensity_image : list Z;
  area : Z;
  mean_intensity : float
}.

Definition region_of (label_image intensity_image : list Z) (l : Z) : region :=
  let image := (fun v => if decide (v = l) then 1 else 0) <$> label_image in
  {| label := l;
     image := image;
     intensity_image := zip_with Z.mul image intensity_image;
     area := Z.of_nat (List.length (filter (fun v => v = l) label_image));
     mean_intensity := np_mean (Np.select (fun v => v =? l) label_image intensity_image) |}.

(** [regionprops(label_image, intensity_image)]: one region per positive
    label present, by increasing label.  Only 2-D and 3-D label images are
    accepted, and the first region that is built needs an intensity image
    of the shape of the label image.  (skimage also takes an intensity
    image with one more, trailing, channel axis; the buffers that [run]
    stores never have fewer axes than the intensity channel, and that case
    is not modelled.) *)
Definition regionprops (label_shape intensity_shape : list nat)
    (label_image intensity_image : list Z) : result (list region) :=
  if decide (List.length label_shape = 2%nat ∨ List.length label_shape = 3%nat) then
    let labels := filter (fun l => 0 < l) (Np.unique label_image) in
    if decide (labels = [] ∨ label_shape = intensity_shape) then
      Ok (region_of label_image intensity_image <$> labels)
    else Raise (ValueError "Label and intensity image shapes must match.")
  else Raise TypeError.

(** The body of [for prop in measures_ring]. *)
Definition measure_ring (results_t : gmap Z record) (prop : region)
    : io (gmap Z record) :=
  let lbl := label prop in
  if decide (lbl = 0) then mret results_t
  else
    let mean_ring := mean_intensity prop in
    integrated_ring ←
      Utils.get_integrated_intensity acc (intensity_image prop) (image prop);
    let area_ring := area prop in
    mret (<[lbl := RingOnly mean_ring integrated_ring area_ring]> results_t).

(** The body of [for prop in measures_inner]. *)
Definition measure_inner (results_t : gmap Z record) (prop : region)
    : io (gmap Z record) :=
  let lbl := label prop in
  if decide (lbl = 0) then mret results_t
  else
    match results_t !! lbl with
    | None => mret results_t
    | Some old =>
        let mean_inner := mean_intensity prop in
        integrated_inner ←
          Utils.get_integrated_intensity acc (intensity_image prop) (image prop);
        let area_inner := area prop in
        match old with
        | RingOnly mean_ring integrated_ring area_ring =>
            mret (<[lbl := RingAndInner mean_ring integrated_ring area_ring
                              mean_inner integrated_inner area_inner]> results_t)
        | RingAndInner _ _ _ _ _ _ =>
            lift (Raise (ValueError "too many values to unpack"))
        end
    end.

(** One iteration of [for t in range(len(self.rings))]. *)
Definition measure_frame (w : t) (rg inn : Np.stack) (t : nat)
    (ring_labels : list Z) : io (gmap Z record) :=
  inner_labels ← lift (Np.getitem (Np.frames inn) (Z.of_nat t));
  ic ← lift (from_option Ok (Raise TypeError) (intensity_channel w));
  intensities ← lift (Np.getitem (Np.frames ic) (Z.of_nat t));
  measures_ring ← lift (regionprops (Np.frame_shape rg) (Np.frame_shape ic)
                          ring_labels intensities);
  measures_inner ← lift (regionprops (Np.frame_shape inn) (Np.frame_shape ic)
                           inner_labels intensities);
  results_t ← for_each measure_ring measures_ring ∅;
  for_each measure_inner measures_inner results_t.

Fixpoint measure_loop (w : t) (rg inn : Np.stack) (t : nat)
    (todo : list (list Z)) : io (list (gmap Z record)) :=
  match todo with
  | [] => mret []
  | ring_labels :: todo' =>
      results_t ← measure_frame w rg inn t ring_labels;
      rest ← measure_loop w rg inn (S t) todo';
      mret (results_t :: rest)
  end.

(** [measure_intensities]: [self.results] is assigned once every frame
    went through. *)
Definition measure_intensities (w : t) : io t :=
  match rings w with
  | None => lift (Raise (ValueError "Outlines have not been computed."))
  | Some rg =>
      match inner w with
      | None => lift (Raise (ValueError "Inner labels have not been computed."))
      | Some inn =>
          res ← measure_loop w rg inn 0%nat (Np.frames rg);
          mret (with_results res w)
      end
  end.

(** The two masked buffers [run] stores in [self.rings] and
    [self.inner]. *)
Definition masked_buffers (w : t) : result (Np.stack * Np.stack) :=
  match label_maps w with
  | None => Raise (ValueError "Label maps have not been set.")
  | Some _ =>
      match intensity_channel w with
      | None => Raise (ValueError "Intensity channel has not been set.")
      | Some ic =>
          discard_mask ← remove_outlier_intensities w;
          bufs ← labels_to_outlines w;
          outlines ← apply_mask bufs.1 (Np.frame_shape ic) discard_mask;
          inner ← apply_mask bufs.2 (Np.frame_shape ic) discard_mask;
          Ok (outlines, inner)
      end
  end.

(** [run]: the outcome, the receiver afterwards and the world
    afterwards.  When [measure_intensities] raises, [self.rings] and
    [self.inner] are already assigned. *)
Definition run (w : t) (σ : world) : result unit * t * world :=
  match masked_buffers w with
  | Raise e => (Raise e, w, σ)
  | Ok (outlines, inner) =>
      let w1 := with_buffers outlines inner w in
      match measure_intensities w1 σ with
      | (Ok w2, σ') => (Ok tt, w2, σ')
      | (Raise e, σ') => (Raise e, w1, σ')
      end
  end.

End Float64.

End MeasureMembraneIntensity.

(* ================================================================== *)
(** * Rationals in place of float64, to run the model *)
(* ================================================================== *)

Module Exact.

(** The mean is exact; the standard deviation is the integer square root of
    a million times the variance, over a thousand.  Of an empty list both
    are 0, where numpy gives NaN. *)
Definition np_mean (l : list Z) : Q :=
  let n := Z.of_nat (List.length l) in
  let s := foldr Z.add 0 l in
  if n =? 0 then inject_Z 0 else Qdiv (inject_Z s) (inject_Z n).

Definition np_std (l : list Z) : Q :=
  let n := Z.of_nat (List.length l) in
  let s := foldr Z.add 0 l in
  let squares := foldr Z.add 0 ((fun x => (n * x - s) * (n * x - s)) <$> l) in
  let root := Z.sqrt (1000000 * squares / (n * n * n)) in
  if n =? 0 then inject_Z 0 else Qdiv (inject_Z root) (inject_Z 1000).

Definition ge_float (v : Z) (x : Q) : bool := Qle_bool x (inject_Z v).
Definition lt_float (v : Z) (x : Q) : bool := negb (ge_float v x).

(** [MeasureMembraneIntensity.run] over the rationals, on images of an
    unsigned element type. *)
Definition run : MeasureMembraneIntensity.t Q → IO.world
                 → result unit * MeasureMembraneIntensity.t Q * IO.world :=
  MeasureMembraneIntensity.run Q np_mean np_std Qplus Qmult lt_float Np.uint64.

(** A worker with the default settings but a membrane one cell thick. *)
Definition thin : MeasureMembraneIntensity.t Q :=
  MeasureMembraneIntensity.with_membrane_thickness Q 1
    (MeasureMembraneIntensity.init Q (inject_Z 2)).

(** One 5x5 frame with a filled disk of radius 2 labelled 3. *)
Definition disk : Np.stack :=
  {| Np.frame_shape := [5; 5]%nat;
     Np.frames := [[0; 0; 3; 0; 0;
                    0; 3; 3; 3; 0;
                    3; 3; 3; 3; 3;
                    0; 3; 3; 3; 0;
                    0; 0; 3; 0; 0]] |}.

(** Intensities of the same frame: 10 everywhere but one cell of the ring,
    at 1000. *)
Definition glare : Np.stack :=
  {| Np.frame_shape := [5; 5]%nat;
     Np.frames := [[10; 10; 1000; 10; 10;
                    10; 10; 10; 10; 10;
                    10; 10; 10; 10; 10;
                    10; 10; 10; 10; 10;
                    10; 10; 10; 10; 10]] |}.

Definition disk_worker : MeasureMembraneIntensity.t Q :=
  MeasureMembraneIntensity.with_intensity_channel Q (Some glare)
    (MeasureMembraneIntensity.with_label_maps Q (Some disk) thin).

(** A world where [/tmp/exported] exists, and one where it does not; the
    generator draws 7, 8, 9, ... *)
Definition with_directory : IO.world :=
  {| IO.rng := fun k => 7 + Z.of_nat k; IO.drawn := 0; IO.export_dir := true;
     IO.written := [] |}.
Definition without_directory : IO.world :=
  {| IO.rng := fun k => 7 + Z.of_nat k; IO.drawn := 0; IO.export_dir := false;
     IO.written := [] |}.

End Exact.

(* ================================================================== *)
(** * Rationals and a NaN, where the model has to meet one *)
(* ================================================================== *)

Module Ieee.

(** A float is a rational or NaN ([None]).  [np.mean] and [np.std] of an
    empty array are NaN, every operation on NaN gives NaN and every
    comparison with NaN is false. *)
Definition float : Type := option Q.

Definition np_mean (l : list Z) : float :=
  match l with [] => None | _ :: _ => Some (Exact.np_mean l) end.
Definition np_std (l : list Z) : float :=
  match l with [] => None | _ :: _ => Some (Exact.np_std l) end.

Definition fadd (a b : float) : float :=
  match a, b with Some x, Some y => Some (x + y)%Q | _, _ => None end.
Definition fmul (a b : float) : float :=
  match a, b with Some x, Some y => Some (x * y)%Q | _, _ => None end.

Definition ge_float (v : Z) (x : float) : bool :=
  match x with Some q => Exact.ge_float v q | None => false end.
Definition lt_float (v : Z) (x : float) : bool :=
  match x with Some q => Exact.lt_float v q | None => false end.
Definition is_nan (x : float) : bool :=
  match x with Some _ => false | None => true end.

(** A frame of four cells without any label, and its intensities. *)
Definition blank : Np.stack :=
  {| Np.frame_shape := [2; 2]%nat; Np.frames := [[0; 0; 0; 0]] |}.
Definition dim : Np.stack :=
  {| Np.frame_shape := [2; 2]%nat; Np.frames := [[5; 7; 9; 11]] |}.

Definition blank_worker : MeasureMembraneIntensity.t float :=
  MeasureMembraneIntensity.with_intensity_channel float (Some dim)
    (MeasureMembraneIntensity.with_label_maps float (Some blank)
       (MeasureMembraneIntensity.init float (Some (inject_Z 2)))).

End Ieee.

(* ================================================================== *)
(** * Properties of the axis validators *)
(* ================================================================== *)

Module AxesFacts.
Import Axes.

(** ** What the design document asks a validator to reject *)

Definition has_duplicates (axes : string) : Prop := ¬ NoDup (chars axes).

Definition has_unknown_tag (axes : string) : Prop :=
  ∃ a, a ∈ chars axes ∧ a ∉ ordered.

(** The candidate has not as many tags as the bound array has axes. *)
Definition rank_mismatch (bound : option nat) (axes : string) : Prop :=
  ∃ ndim, bound = Some ndim ∧ len axes ≠ ndim.

(** Two tags of [l] stand against the order T, Z, Y, X. *)
Definition inversion (l : list ascii) : Prop :=
  ∃ (i j : nat) a b pa pb,
    (i < j)%nat ∧ l !! i = Some a ∧ l !! j = Some b ∧
    index a ordered = Some pa ∧ index b ordered = Some pb ∧ pb < pa.

Definition out_of_order (axes : string) : Prop := inversion (chars axes).

Definition rejected (bound : option nat) (axes : string) : Prop :=
  has_duplicates axes ∨ has_unknown_tag axes ∨
  rank_mismatch bound axes ∨ out_of_order axes.

(** ** Sets of tags *)

Lemma size_list_to_set_le (l : list ascii) :
  (size (list_to_set l : gset ascii) <= List.length l)%nat.
Proof.
  induction l as [|a l IH].
  - rewrite list_to_set_nil, size_empty. simpl. lia.
  - rewrite list_to_set_cons, size_union_alt, size_singleton. simpl.
    assert (size ((list_to_set l : gset ascii) ∖ {[a]}) <= size (list_to_set l : gset ascii))%nat.
    { apply subseteq_size. set_solver. }
    lia.
Qed.

Lemma length_eq_size_NoDup (l : list ascii) :
  List.length l = size (list_to_set l : gset ascii) ↔ NoDup l.
Proof.
  split.
  - induction l as [|a l IH]; intros Hsz; [constructor|].
    rewrite list_to_set_cons in Hsz. simpl in Hsz.
    destruct (decide (a ∈ l)) as [Hin|Hnin].
    + exfalso.
      assert (({[a]} ∪ list_to_set l : gset ascii) = list_to_set l) as Heq
        by set_solver.
      rewrite Heq in Hsz. pose proof (size_list_to_set_le l). lia.
    + constructor; [done|]. apply IH.
      rewrite size_union in Hsz by set_solver.
      rewrite size_singleton in Hsz. lia.
  - intros Hnd. symmetry. by apply size_list_to_set.
Qed.

Lemma size_inter_valid (l : list ascii) :
  NoDup l →
  List.length l = size (valid ∩ (list_to_set l : gset ascii))
  ↔ ∀ a, a ∈ l → a ∈ ordered.
Proof.
  intros Hnd. rewrite <- (size_list_to_set (C:=gset ascii) l) by done.
  split.
  - intros Hsz a Ha.
    assert (valid ∩ (list_to_set l : gset ascii) = list_to_set l) as Heq.
    { apply set_subseteq_size_eq; [set_solver|lia]. }
    assert (a ∈ valid ∩ (list_to_set l : gset ascii)) as Hin
      by (rewrite Heq; set_solver).
    unfold valid in Hin. set_solver.
  - intros Hall. f_equal. unfold valid. set_solver.
Qed.

(** ** The order loop *)

Lemma index_Some_elem (a : ascii) (l : list ascii) :
  a ∈ l → ∃ p, index a l = Some p ∧ 0 <= p.
Proof.
  induction l as [|b l IH]; [by intros ?%elem_of_nil|].
  intros Hin. simpl. destruct (decide (a = b)) as [->|Hne].
  - exists 0. split; [done|lia].
  - apply elem_of_cons in Hin as [?|Hin]; [done|].
    destruct (IH Hin) as (p & -> & Hp). exists (p + 1). split; [done|lia].
Qed.

Lemma inversion_cons a l : inversion l → inversion (a :: l).
Proof.
  intros (i & j & x & y & px & py & Hij & Hi & Hj & Hx & Hy & Hlt).
  exists (S i), (S j), x, y, px, py. repeat split; try done. lia.
Qed.

Lemma order_loop_spec (l : list ascii) (last_pos : Z) :
  (∀ a, a ∈ l → a ∈ ordered) →
  (order_loop l last_pos = Ok tt
   ∧ (∀ a p, a ∈ l → index a ordered = Some p → last_pos <= p)
   ∧ ¬ inversion l)
  ∨ (order_loop l last_pos
     = Raise (ValueError "The candidate axes are not in the correct order.")
     ∧ ((∃ a p, a ∈ l ∧ index a ordered = Some p ∧ p < last_pos)
        ∨ inversion l)).
Proof.
  revert last_pos. induction l as [|a l IH]; intros last_pos Hknown.
  - left. split; [done|]. split.
    + by intros a p ?%elem_of_nil.
    + intros (i & j & x & y & px & py & _ & Hi & _). done.
  - destruct (index_Some_elem a ordered) as (p & Hp & Hp0).
    { apply Hknown. left. }
    assert (∀ b, b ∈ l → b ∈ ordered) as Hknown'.
    { intros b Hb. apply Hknown. by right. }
    cbn [order_loop]. rewrite Hp.
    destruct (Z.ltb_spec p last_pos) as [Hlt|Hge].
    + right. split; [done|]. left. exists a, p. split; [left|done].
    + destruct (IH p Hknown') as [(Hok & Hall & Hinv)|(Hraise & Hwhy)].
      * left. split; [done|]. split.
        -- intros b q Hb Hq. apply elem_of_cons in Hb as [->|Hb].
           ++ congruence.
           ++ specialize (Hall b q Hb Hq). lia.
        -- intros (i & j & x & y & px & py & Hij & Hi & Hj & Hx & Hy & Hxy).
           destruct i as [|i].
           ++ simpl in Hi. injection Hi as <-.
              destruct j as [|j]; [lia|]. simpl in Hj.
              assert (y ∈ l) as Hyl by (eapply list_elem_of_lookup_2; done).
              specialize (Hall y py Hyl Hy).
              rewrite Hp in Hx. injection Hx as <-. lia.
           ++ destruct j as [|j]; [lia|]. simpl in Hi, Hj.
              apply Hinv. exists i, j, x, y, px, py.
              repeat split; try done. lia.
      * right. split; [done|]. right.
        destruct Hwhy as [(b & q & Hb & Hq & Hqp)|Hinv].
        -- apply list_elem_of_lookup_1 in Hb as [j Hj].
           exists 0%nat, (S j), a, b, p, q. repeat split; try done. lia.
        -- by apply inversion_cons.
Qed.

(** ** The validator with the order loop *)

(** The three steps in a row, as [TrackCellsWorker.check_axes] and
    [SegmentCellsWorker.check_axes] run them. *)
Definition full_check (bound : option nat) (axes : string) : result unit :=
  _ ← check_tags axes; _ ← check_rank bound axes; check_order axes.

Lemma check_tags_spec (axes : string) :
  (check_tags axes = Ok tt ∧ NoDup (chars axes)
   ∧ ∀ a, a ∈ chars axes → a ∈ ordered)
  ∨ ((∃ msg, check_tags axes = Raise (ValueError msg))
     ∧ (has_duplicates axes ∨ has_unknown_tag axes)).
Proof.
  unfold check_tags, has_duplicates, has_unknown_tag, len, candidate.
  destruct (Nat.eqb_spec (List.length (chars axes))
              (size (list_to_set (chars axes) : gset ascii))) as [Heq|Hne]; simpl.
  - apply length_eq_size_NoDup in Heq as Hnd.
    destruct (Nat.eqb_spec (List.length (chars axes))
                (size (valid ∩ (list_to_set (chars axes) : gset ascii))))
      as [Heq2|Hne2]; simpl.
    + left. split; [done|]. split; [done|].
      by apply (size_inter_valid (chars axes) Hnd).
    + right. split; [eauto|]. right.
      destruct (decide (Forall (λ a, a ∈ ordered) (chars axes))) as [Hall|Hex].
      * exfalso. apply Hne2. apply size_inter_valid; [done|].
        by apply Forall_forall.
      * apply not_Forall_Exists in Hex; [|apply _].
        apply Exists_exists in Hex as (a & Ha & Hna). eauto.
  - right. split; [eauto|]. left. intros Hnd. apply Hne.
    by apply length_eq_size_NoDup.
Qed.

Lemma full_check_spec (bound : option nat) (axes : string) :
  (full_check bound axes = Ok tt ∧ ¬ rejected bound axes)
  ∨ ((∃ msg, full_check bound axes = Raise (ValueError msg))
     ∧ rejected bound axes).
Proof.
  unfold full_check, rejected.
  destruct (check_tags_spec axes) as [(Ht & Hnd & Hknown)|([msg Ht] & Hwhy)];
    rewrite Ht; simpl.
  2:{ right. split; [eauto|]. tauto. }
  assert (size (candidate axes) = len axes) as Hsz.
  { unfold candidate, len. by apply size_list_to_set. }
  assert (¬ has_duplicates axes) as Hnodup by (intros H; by apply H).
  assert (¬ has_unknown_tag axes) as Hnounk.
  { intros (a & Ha & Hna). apply Hna. by apply Hknown. }
  assert (check_rank bound axes = Ok tt ∧ ¬ rank_mismatch bound axes
          ∨ (∃ msg, check_rank bound axes = Raise (ValueError msg))
            ∧ rank_mismatch bound axes) as [[Hr Hnr]|[[msg' Hr] Hrm]].
  { unfold check_rank, rank_mismatch. destruct bound as [ndim|].
    - rewrite Hsz. destruct (Nat.eqb_spec (len axes) ndim) as [Heq|Hne]; simpl.
      + left. split; [done|]. intros (n & Hn & Hne). congruence.
      + right. split; eauto.
    - left. split; [done|]. intros (n & Hn & _). done. }
  2:{ rewrite Hr. simpl. right. split; [eauto|]. tauto. }
  rewrite Hr. simpl. unfold check_order, out_of_order.
  destruct (order_loop_spec (chars axes) (-1) Hknown)
    as [(Hok & _ & Hinv)|(Hraise & Hwhy)].
  - left. split; [done|]. tauto.
  - right. split; [eauto|]. right; right; right.
    destruct Hwhy as [(a & p & Ha & Hp & Hlt)|?]; [|done].
    destruct (index_Some_elem a ordered (Hknown a Ha)) as (q & Hq & Hq0).
    assert (p = q) by congruence. lia.
Qed.

Lemma full_check_iff (bound : option nat) (axes : string) :
  (full_check bound axes = Ok tt ↔ ¬ rejected bound axes) ∧
  ((∃ msg, full_check bound axes = Raise (ValueError msg))
   ↔ rejected bound axes).
Proof.
  destruct (full_check_spec bound axes) as [[Hok Hno]|[[msg Hr] Hrej]].
  - split; [tauto|]. split; [|tauto]. intros [msg Hmsg]. congruence.
  - split; [|split; eauto]. split; [congruence|tauto].
Qed.

(** ** The three workers *)

(** [TrackCellsWorker.check_axes] raises a [ValueError] exactly on the
    candidates the design document rejects, the bound array being
    [label_maps], and returns otherwise. *)
Theorem track_check_axes_spec (w : TrackCellsWorker.t) (axes : string) :
  let bound := Np.ndim <$> TrackCellsWorker.label_maps w in
  (TrackCellsWorker.check_axes w axes = Ok tt ↔ ¬ rejected bound axes) ∧
  ((∃ msg, TrackCellsWorker.check_axes w axes = Raise (ValueError msg))
   ↔ rejected bound axes).
Proof. intros bound. apply full_check_iff. Qed.

(** The same for [SegmentCellsWorker.check_axes] and its
    [segmentation_channel]. *)
Theorem segment_check_axes_spec (w : SegmentCellsWorker.t) (axes : string) :
  let bound := Np.ndim <$> SegmentCellsWorker.segmentation_channel w in
  (SegmentCellsWorker.check_axes w axes = Ok tt ↔ ¬ rejected bound axes) ∧
  ((∃ msg, SegmentCellsWorker.check_axes w axes = Raise (ValueError msg))
   ↔ rejected bound axes).
Proof. intros bound. apply full_check_iff. Qed.

(** [MeasureMembraneIntensity.check_axes] stops after the rank test, and
    that test reads [intensity_channel] only. *)
Lemma measure_check_axes_spec {float : Type}
    (w : MeasureMembraneIntensity.t float) (axes : string) :
  let bound := Np.ndim <$> MeasureMembraneIntensity.intensity_channel float w in
  MeasureMembraneIntensity.check_axes float w axes = Ok tt
  ↔ ¬ (has_duplicates axes ∨ has_unknown_tag axes ∨ rank_mismatch bound axes).
Proof.
  intros bound. unfold MeasureMembraneIntensity.check_axes. fold bound.
  destruct (check_tags_spec axes) as [(Ht & Hnd & Hknown)|([msg Ht] & Hwhy)];
    rewrite Ht; simpl.
  2:{ split; [done|]. tauto. }
  assert (size (candidate axes) = len axes) as Hsz.
  { unfold candidate, len. by apply size_list_to_set. }
  unfold check_rank, rank_mismatch, has_duplicates, has_unknown_tag.
  destruct bound as [ndim|].
  - rewrite Hsz. destruct (Nat.eqb_spec (len axes) ndim) as [Heq|Hne]; simpl.
    + split; [|done]. intros _ [?|[(a & Ha & Hna)|(n & Hn & Hne)]].
      * done.
      * apply Hna. by apply Hknown.
      * congruence.
    + split; [done|]. intros Hno. exfalso. apply Hno. right; right. eauto.
  - split; [|done]. intros _ [?|[(a & Ha & Hna)|(n & Hn & _)]]; try done.
    apply Hna. by apply Hknown.
Qed.

(** ** Claim C1 *)

(** C1 (every worker's [check_axes] rejects tags out of the order T, Z, Y,
    X): the measurement worker does not.  On the candidate "XY", which has
    X before Y, the tracking and the segmentation workers raise "not in
    the correct order" while [MeasureMembraneIntensity.check_axes]
    returns. *)
Theorem measure_check_axes_accepts_misordered (float : Type) (two : float) :
  out_of_order "XY"
  ∧ TrackCellsWorker.check_axes TrackCellsWorker.init "XY"
    = Raise (ValueError "The candidate axes are not in the correct order.")
  ∧ SegmentCellsWorker.check_axes SegmentCellsWorker.init "XY"
    = Raise (ValueError "The candidate axes are not in the correct order.")
  ∧ MeasureMembraneIntensity.check_axes float
      (MeasureMembraneIntensity.init float two) "XY" = Ok tt.
Proof.
  split; [|split; [|split]]; try by vm_compute.
  exists 0%nat, 1%nat, "X"%char, "Y"%char, 3, 2.
  repeat split; try done. lia.
Qed.

(** ** Claim C3 *)

(** With label maps bound, [TrackCellsWorker.set_axes] raises on every
    candidate whose length is not their rank, and the worker is as
    before. *)
Theorem track_set_axes_keeps_rank (w : TrackCellsWorker.t) (lm : Np.stack)
    (axes : string) :
  TrackCellsWorker.label_maps w = Some lm →
  len axes ≠ Np.ndim lm →
  (∃ msg, TrackCellsWorker.set_axes w axes = Raise (ValueError msg))
  ∧ state_after w (TrackCellsWorker.set_axes w axes) = w.
Proof.
  intros Hlm Hne.
  destruct (track_check_axes_spec w axes) as [_ [_ Hraise]].
  destruct Hraise as [msg Hmsg].
  { right; right; left. exists (Np.ndim lm). by rewrite Hlm. }
  unfold TrackCellsWorker.set_axes. rewrite Hmsg. simpl. eauto.
Qed.

Theorem segment_set_axes_keeps_rank (w : SegmentCellsWorker.t) (ch : Np.stack)
    (axes : string) :
  SegmentCellsWorker.segmentation_channel w = Some ch →
  len axes ≠ Np.ndim ch →
  (∃ msg, SegmentCellsWorker.set_axes w axes = Raise (ValueError msg))
  ∧ state_after w (SegmentCellsWorker.set_axes w axes) = w.
Proof.
  intros Hch Hne.
  destruct (segment_check_axes_spec w axes) as [_ [_ Hraise]].
  destruct Hraise as [msg Hmsg].
  { right; right; left. exists (Np.ndim ch). by rewrite Hch. }
  unfold SegmentCellsWorker.set_axes. rewrite Hmsg. simpl. eauto.
Qed.

(** A stack of two 2x2 frames, of rank 3. *)
Definition two_frames : Np.stack :=
  {| Np.frame_shape := [2; 2]%nat; Np.frames := [[1; 0; 0; 2]; [1; 0; 0; 2]] |}.

(** C3 (with data bound, [set_axes] rejects a candidate of another
    cardinality than the rank of the bound array): the measurement worker
    with label maps of rank 3 bound through [set_label_maps], and no
    intensity channel yet, takes the two-tag candidate "YX" and stores
    it; the tracking worker in the same situation raises. *)
Theorem measure_set_axes_ignores_label_maps (float : Type) (two : float) :
  let w0 := MeasureMembraneIntensity.init float two in
  ∃ w1 w2,
    MeasureMembraneIntensity.set_label_maps float w0 two_frames = Ok w1
    ∧ MeasureMembraneIntensity.label_maps float w1 = Some two_frames
    ∧ len "YX" ≠ Np.ndim two_frames
    ∧ MeasureMembraneIntensity.set_axes float w1 "YX" = Ok w2
    ∧ MeasureMembraneIntensity.axes float w2 = "YX"
    ∧ MeasureMembraneIntensity.label_maps float w2 = Some two_frames
    ∧ TrackCellsWorker.set_axes
        (TrackCellsWorker.with_label_maps (Some two_frames) TrackCellsWorker.init)
        "YX"
      = Raise (ValueError "The candidate axes are not compatible with the current data.").
Proof.
  intros w0. eexists _, _.
  split; [by vm_compute|]. split; [done|]. split; [by vm_compute|].
  split; [by vm_compute|]. split; [done|]. split; [done|]. by vm_compute.
Qed.

End AxesFacts.

(* ================================================================== *)
(** * Pruning of incomplete tracks *)
(* ================================================================== *)

Module PruningFacts.
Import TrackCellsWorker.

(** The track [p] has a row at frame [last] in the table. *)
Definition reaches (tbl : list Row.t) (last : Z) (p : Z) : Prop :=
  Exists (fun r => Row.particle r = p ∧ Row.frame r = last) tbl.

#[global] Instance reaches_dec tbl last p : Decision (reaches tbl last p).
Proof. unfold reaches. apply _. Defined.

Lemma reaches_iff tbl last p :
  reaches tbl last p
  ↔ ∃ r, r ∈ tbl ∧ Row.particle r = p ∧ Row.frame r = last.
Proof. unfold reaches. rewrite Exists_exists. done. Qed.

Lemma complete_labels_spec (tbl : list Row.t) (last p : Z) :
  p ∈ (list_to_set (Row.particle <$> rows_of_frame last tbl) : gset Z)
  ↔ reaches tbl last p.
Proof.
  rewrite elem_of_list_to_set, list_elem_of_fmap, reaches_iff.
  unfold rows_of_frame. split.
  - intros (r & -> & Hr). apply list_elem_of_filter in Hr as [Hf Hin]. eauto.
  - intros (r & Hin & <- & Hf). exists r. split; [done|].
    apply list_elem_of_filter. done.
Qed.

Lemma filter_complete_labels (tbl : list Row.t) (last : Z) :
  filter (fun r => Row.particle r
                   ∈ (list_to_set (Row.particle <$> rows_of_frame last tbl) : gset Z))
         tbl
  = filter (fun r => reaches tbl last (Row.particle r)) tbl.
Proof. apply list_filter_iff. intros r. apply complete_labels_spec. Qed.

(** A second pass finds the same complete tracks. *)
Lemma reaches_filter (tbl : list Row.t) (last p : Z) :
  reaches (filter (fun r => reaches tbl last (Row.particle r)) tbl) last p
  ↔ reaches tbl last p.
Proof.
  rewrite !reaches_iff. split.
  - intros (r & Hr & Hp & Hf). apply list_elem_of_filter in Hr as [_ Hin]. eauto.
  - intros (r & Hin & Hp & Hf). exists r. split; [|done].
    apply list_elem_of_filter. split; [|done].
    apply reaches_iff. exists r. done.
Qed.

Lemma filter_reaches_idemp (tbl : list Row.t) (last : Z) :
  let kept := filter (fun r => reaches tbl last (Row.particle r)) tbl in
  filter (fun r => reaches kept last (Row.particle r)) kept = kept.
Proof.
  intros kept.
  rewrite (list_filter_iff _ (fun r => reaches tbl last (Row.particle r))).
  - unfold kept. by apply list_filter_filter_r.
  - intros r. apply reaches_filter.
Qed.

(** With a leading T, the call returns and keeps exactly the rows of the
    tracks that reach the last frame, in their order. *)
Lemma isolate_with_time (w : t) (tbl : list Row.t) (lm : Np.stack) :
  linked w = Some tbl →
  label_maps w = Some lm →
  head (chars (axes w)) = Some "T"%char →
  isolate_full_tracks w
  = Ok (with_linked
          (Some (filter (fun r => reaches tbl (Np.shape0 lm - 1) (Row.particle r)) tbl))
          w).
Proof.
  intros Hl Hlm Hhd. unfold isolate_full_tracks, axes0_is_not_T, last_frame_idx.
  rewrite Hl, Hlm. destruct (chars (axes w)) as [|a0 rest]; [done|].
  simpl in Hhd. injection Hhd as ->. simpl.
  by rewrite filter_complete_labels.
Qed.

(** Without a leading T nothing is written; the call returns unless the
    axis string is empty, where [self.axes[0]] raises. *)
Lemma isolate_without_time (w : t) (tbl : list Row.t) :
  linked w = Some tbl →
  head (chars (axes w)) ≠ Some "T"%char →
  state_after w (isolate_full_tracks w) = w
  ∧ (chars (axes w) ≠ [] → isolate_full_tracks w = Ok w)
  ∧ (chars (axes w) = [] → isolate_full_tracks w = Raise IndexError).
Proof.
  intros Hl Hhd. unfold isolate_full_tracks, axes0_is_not_T.
  rewrite Hl. destruct (chars (axes w)) as [|a0 rest]; simpl.
  - done.
  - destruct (Ascii.eqb_spec a0 "T") as [->|Hne]; [done|]. simpl. done.
Qed.

Lemma isolate_idempotent (w w1 : t) :
  isolate_full_tracks w = Ok w1 → isolate_full_tracks w1 = Ok w1.
Proof.
  unfold isolate_full_tracks, axes0_is_not_T, last_frame_idx.
  destruct (linked w) as [tbl|] eqn:Hl; [|done].
  destruct (chars (axes w)) as [|a0 rest] eqn:Hax; [done|]. simpl.
  destruct (Ascii.eqb_spec a0 "T") as [->|Hne]; simpl.
  2:{ intros [= <-]. rewrite Hl, Hax. simpl.
      destruct (Ascii.eqb_spec a0 "T"); done. }
  destruct (label_maps w) as [lm|] eqn:Hlm; [|done]. simpl.
  intros [= <-]. simpl. rewrite Hax, Hlm. simpl.
  rewrite !filter_complete_labels.
  pose proof (filter_reaches_idemp tbl (Np.shape0 lm - 1)) as Hid.
  simpl in Hid. rewrite Hid. done.
Qed.

(** C5: on a linked table, [isolate_full_tracks] under a leading time
    axis returns the table without the rows whose track has no row at
    frame [shape[0] - 1], and with every other row, in order; under an
    axis string that does not begin with T the worker is left as it was;
    and a second call changes nothing more. *)
Theorem isolate_full_tracks_spec (w : t) (tbl : list Row.t) (lm : Np.stack) :
  linked w = Some tbl →
  label_maps w = Some lm →
  let last := Np.shape0 lm - 1 in
  (head (chars (axes w)) = Some "T"%char →
     ∃ kept, isolate_full_tracks w = Ok (with_linked (Some kept) w)
             ∧ kept = filter (fun r => reaches tbl last (Row.particle r)) tbl
             ∧ ∀ r, r ∈ tbl →
                 (r ∉ kept ↔ ¬ ∃ r', r' ∈ tbl ∧ Row.particle r' = Row.particle r
                                     ∧ Row.frame r' = last))
  ∧ (head (chars (axes w)) ≠ Some "T"%char →
       state_after w (isolate_full_tracks w) = w
       ∧ (chars (axes w) ≠ [] → isolate_full_tracks w = Ok w))
  ∧ (∀ w1, isolate_full_tracks w = Ok w1 → isolate_full_tracks w1 = Ok w1).
Proof.
  intros Hl Hlm last. split; [|split].
  - intros Hhd. eexists. split; [by apply isolate_with_time|].
    split; [done|]. intros r Hr.
    rewrite list_elem_of_filter, reaches_iff. tauto.
  - intros Hhd. destruct (isolate_without_time w tbl Hl Hhd) as (? & ? & _).
    done.
  - apply isolate_idempotent.
Qed.

(** C10: when no row of the linked table sits at frame [shape[0] - 1],
    [isolate_full_tracks] under a leading time axis returns with an empty
    table. *)
Theorem isolate_full_tracks_empties (w : t) (tbl : list Row.t) (lm : Np.stack) :
  linked w = Some tbl →
  label_maps w = Some lm →
  head (chars (axes w)) = Some "T"%char →
  (∀ r, r ∈ tbl → Row.frame r ≠ Np.shape0 lm - 1) →
  isolate_full_tracks w = Ok (with_linked (Some []) w).
Proof.
  intros Hl Hlm Hhd Hnone. rewrite (isolate_with_time w tbl lm) by done.
  do 2 f_equal. f_equal.
  induction tbl as [|r tbl' IH] using rev_ind; [done|].
  rewrite filter_app.
  assert (∀ l, filter (fun r0 => reaches (tbl' ++ [r]) (Np.shape0 lm - 1)
                                   (Row.particle r0)) l = []) as Hall.
  { intros l. induction l as [|x l IHl]; [done|].
    rewrite filter_cons. destruct (decide _) as [Hx|]; [|done].
    exfalso. apply reaches_iff in Hx as (r' & Hr' & _ & Hf).
    by apply (Hnone r'). }
  by rewrite !Hall.
Qed.

(** A table of three tracks over two frames: track 1 is in both frames,
    track 2 only in the first, track 3 only in the last. *)
Definition detection (frame track : Z) : Row.t :=
  {| Row.frame := frame; Row.x := 0; Row.y := 0; Row.size := 1;
     Row.orig_label := track; Row.diameter := 1; Row.particle := track |}.
Definition three_tracks : list Row.t :=
  [detection 0 1; detection 0 2; detection 1 1; detection 1 3].
Definition two_frames : Np.stack :=
  {| Np.frame_shape := [2; 2]%nat; Np.frames := [[1; 2; 0; 0]; [1; 0; 0; 3]] |}.
Definition three_tracks_worker : t :=
  with_linked (Some three_tracks) (with_label_maps (Some two_frames) init).

Lemma isolate_full_tracks_spec_witness :
  isolate_full_tracks three_tracks_worker
  = Ok (with_linked (Some [detection 0 1; detection 1 1; detection 1 3])
          three_tracks_worker).
Proof.
  destruct (isolate_full_tracks_spec three_tracks_worker three_tracks two_frames
              eq_refl eq_refl) as [Hwith _].
  destruct (Hwith eq_refl) as (kept & -> & -> & _).
  reflexivity.
Defined.

(** The same tracks when the stack has three frames: none reaches frame 2. *)
Definition three_frames : Np.stack :=
  {| Np.frame_shape := [2; 2]%nat;
     Np.frames := [[1; 2; 0; 0]; [1; 0; 0; 3]; [0; 0; 0; 0]] |}.
Definition empty_last_frame_worker : t :=
  with_linked (Some three_tracks) (with_label_maps (Some three_frames) init).

Lemma isolate_full_tracks_empties_witness :
  isolate_full_tracks empty_last_frame_worker
  = Ok (with_linked (Some []) empty_last_frame_worker).
Proof.
  apply (isolate_full_tracks_empties empty_last_frame_worker three_tracks three_frames);
    [reflexivity|reflexivity|reflexivity|].
  intros r Hr. unfold three_tracks in Hr.
  repeat (apply elem_of_cons in Hr as [->|Hr]); try (vm_compute; discriminate).
  by apply elem_of_nil in Hr.
Defined.

End PruningFacts.

(* ================================================================== *)
(** * Relabeling with track identities *)
(* ================================================================== *)

Module RelabelFacts.
Import TrackCellsWorker.

(** The value a cell of label [l] ends with after the rows [g] of its
    frame went by, starting from [o]: the identity of the last row whose
    original label is [l], when [l] is not the background. *)
Definition paint (g : list Row.t) (l : Z) (o : Z) : Z :=
  foldl (fun acc r =>
           if decide (Row.orig_label r ≠ 0 ∧ l = Row.orig_label r)
           then Row.particle r else acc) o g.

Lemma paint_untouched (g : list Row.t) (l o : Z) :
  (∀ r, r ∈ g → ¬ (Row.orig_label r ≠ 0 ∧ l = Row.orig_label r)) →
  paint g l o = o.
Proof.
  revert o. induction g as [|r g IH]; intros o Hno; [done|].
  unfold paint. simpl. rewrite decide_False by (apply Hno; left).
  apply IH. intros r' Hr'. apply Hno. by right.
Qed.

Lemma paint_written (g : list Row.t) (l o : Z) :
  (∃ r, r ∈ g ∧ Row.orig_label r ≠ 0 ∧ l = Row.orig_label r) →
  ∃ r, r ∈ g ∧ Row.orig_label r ≠ 0 ∧ l = Row.orig_label r
       ∧ paint g l o = Row.particle r.
Proof.
  revert o. induction g as [|r g IH] using rev_ind; intros o (r0 & Hin & Hr0).
  - by apply elem_of_nil in Hin.
  - unfold paint. rewrite foldl_app. simpl.
    destruct (decide (Row.orig_label r ≠ 0 ∧ l = Row.orig_label r)) as [Hr|Hr].
    + exists r. split; [apply elem_of_app; right; left|]. tauto.
    + apply elem_of_app in Hin as [Hin|Hin].
      * destruct (IH o) as (r1 & Hin1 & ? & ? & Hp); [by eauto|].
        exists r1. split; [apply elem_of_app; by left|]. done.
      * apply list_elem_of_singleton in Hin as ->. tauto.
Qed.

Lemma to_uint16_exact (pol : Np.overflow) (v : Z) :
  0 <= v < 65536 → Np.to_uint16 pol v = Ok v.
Proof.
  intros [H0 H1]. unfold Np.to_uint16.
  destruct (Z.leb_spec 0 v); [|lia]. destruct (Z.ltb_spec v 65536); [|lia].
  done.
Qed.

Lemma assign_where_lookup (lab out : list Z) (key v : Z) (i : nat) (l o : Z) :
  lab !! i = Some l → out !! i = Some o →
  Np.assign_where lab key v out !! i = Some (if decide (l = key) then v else o).
Proof.
  intros Hl Ho. unfold Np.assign_where. rewrite lookup_zip_with, Hl. simpl.
  by rewrite Ho.
Qed.

Lemma assign_where_length (lab out : list Z) (key v : Z) :
  List.length out = List.length lab →
  List.length (Np.assign_where lab key v out) = List.length lab.
Proof. intros H. unfold Np.assign_where. rewrite length_zip_with. lia. Qed.

(** The identities of the rows that write fit a [uint16] cell. *)
Definition fits_uint16 (g : list Row.t) : Prop :=
  ∀ r, r ∈ g → Row.orig_label r ≠ 0 → 0 <= Row.particle r < 65536.

Lemma relabel_rows_spec (pol : Np.overflow) (lab : list Z) (g : list Row.t)
    (out_t : list Z) :
  fits_uint16 g →
  List.length out_t = List.length lab →
  ∃ o', relabel_rows pol lab g out_t = Ok o'
        ∧ List.length o' = List.length lab
        ∧ ∀ i l o, lab !! i = Some l → out_t !! i = Some o →
                   o' !! i = Some (paint g l o).
Proof.
  revert out_t. induction g as [|r g IH]; intros out_t Hfit Hlen.
  - exists out_t. split; [done|]. split; [done|]. by intros i l o _ ?.
  - assert (fits_uint16 g) as Hfit'.
    { intros r' Hr'. apply Hfit. by right. }
    cbn [relabel_rows]. unfold relabel_row.
    destruct (decide (Row.orig_label r = 0)) as [Hz|Hnz]; simpl.
    + destruct (IH out_t Hfit' Hlen) as (o' & Ho' & Hlen' & Hcells).
      exists o'. split; [done|]. split; [done|].
      intros i l o Hl Ho. rewrite (Hcells i l o Hl Ho).
      unfold paint. simpl. rewrite decide_False by tauto. done.
    + rewrite to_uint16_exact by (apply Hfit; [left|done]). simpl.
      destruct (IH (Np.assign_where lab (Row.orig_label r) (Row.particle r) out_t)
                  Hfit' (assign_where_length _ _ _ _ Hlen))
        as (o' & Ho' & Hlen' & Hcells).
      exists o'. split; [done|]. split; [done|].
      intros i l o Hl Ho.
      rewrite (Hcells i l _ Hl (assign_where_lookup _ _ _ _ _ _ _ Hl Ho)).
      unfold paint. simpl. f_equal. f_equal.
      destruct (decide (l = Row.orig_label r)) as [->|Hne].
      * by rewrite decide_True.
      * rewrite decide_False by tauto. done.
Qed.

Lemma getitem_nat {A} (l : list A) (i : nat) (x : A) :
  l !! i = Some x → Np.getitem l (Z.of_nat i) = Ok x ∧ Np.position l (Z.of_nat i) = i.
Proof.
  intros Hx. pose proof (lookup_lt_Some _ _ _ Hx) as Hlt.
  unfold Np.getitem, Np.position.
  destruct (Z.ltb_spec (Z.of_nat i) 0); [lia|].
  destruct (Z.leb_spec 0 (Z.of_nat i)); [|lia].
  destruct (Z.ltb_spec (Z.of_nat i) (Z.of_nat (List.length l))); [|lia].
  simpl. rewrite Nat2Z.id, Hx. done.
Qed.

Lemma unique_elem_of (l : list Z) (x : Z) : x ∈ Np.unique l ↔ x ∈ l.
Proof.
  unfold Np.unique. rewrite merge_sort_Permutation. apply elem_of_remove_dups.
Qed.

Lemma unique_NoDup (l : list Z) : NoDup (Np.unique l).
Proof.
  unfold Np.unique. rewrite merge_sort_Permutation. apply NoDup_remove_dups.
Qed.

(** State of the output list between two groups: it has one frame per
    input frame, of the same size. *)
Definition aligned (lm : Np.stack) (out : list (list Z)) : Prop :=
  List.length out = List.length (Np.frames lm)
  ∧ ∀ i lab o, Np.frames lm !! i = Some lab → out !! i = Some o →
               List.length o = List.length lab.

Lemma relabel_groups_spec (pol : Np.overflow) (lm : Np.stack) (tbl : list Row.t)
    (keys : list Z) (out : list (list Z)) :
  fits_uint16 tbl →
  NoDup keys →
  (∀ k, k ∈ keys → 0 <= k < Np.shape0 lm) →
  aligned lm out →
  ∃ out', relabel_groups pol lm tbl keys out = Ok out'
          ∧ aligned lm out'
          ∧ ∀ i lab o, Np.frames lm !! i = Some lab → out !! i = Some o →
              ∃ o', out' !! i = Some o'
                    ∧ ∀ j l c, lab !! j = Some l → o !! j = Some c →
                        o' !! j = Some (if decide (Z.of_nat i ∈ keys)
                                        then paint (rows_of_frame (Z.of_nat i) tbl) l c
                                        else c).
Proof.
  intros Hfit. revert out.
  induction keys as [|k keys IH]; intros out Hnd Hrange Hal.
  - exists out. split; [done|]. split; [done|].
    intros i lab o Hlab Ho. exists o. split; [done|].
    intros j l c _ Hc. rewrite decide_False by apply not_elem_of_nil. done.
  - apply NoDup_cons in Hnd as [Hk Hnd].
    assert (0 <= k < Np.shape0 lm) as Hkr by (apply Hrange; left).
    destruct Hal as [Hlen Hsizes].
    set (n := Z.to_nat k).
    assert (k = Z.of_nat n) as Hkn by (unfold n; lia).
    assert (n < List.length (Np.frames lm))%nat as Hn
      by (unfold Np.shape0 in Hkr; lia).
    destruct (lookup_lt_is_Some_2 (Np.frames lm) n Hn) as [lab Hlab].
    destruct (lookup_lt_is_Some_2 out n ltac:(lia)) as [out_t Hout_t].
    cbn [relabel_groups]. rewrite Hkn.
    destruct (getitem_nat _ _ _ Hlab) as [-> _].
    destruct (getitem_nat _ _ _ Hout_t) as [-> ->]. simpl.
    destruct (relabel_rows_spec pol lab (rows_of_frame (Z.of_nat n) tbl) out_t)
      as (o1 & -> & Hlen1 & Hcells1).
    { intros r Hr. apply Hfit. unfold rows_of_frame in Hr.
      by apply list_elem_of_filter in Hr as [_ ?]. }
    { by eapply Hsizes. }
    simpl.
    destruct (IH (<[n := o1]> out)) as (out' & Hout' & Hal' & Hcells');
      [done| |..].
    { intros k' Hk'. apply Hrange. by right. }
    { split; [by rewrite length_insert|].
      intros i lab' o Hlab' Ho. destruct (decide (i = n)) as [->|Hne].
      - rewrite list_lookup_insert_eq in Ho by lia. congruence.
      - rewrite list_lookup_insert_ne in Ho by done. by eapply Hsizes. }
    exists out'. split; [done|]. split; [done|].
    intros i lab' o Hlab' Ho.
    destruct (decide (i = n)) as [->|Hne].
    + destruct (Hcells' n lab' o1 Hlab') as (o' & Ho' & Hc').
      { rewrite list_lookup_insert_eq by lia. done. }
      exists o'. split; [done|]. intros j l c Hl Hc.
      assert (lab' = lab) as -> by congruence.
      assert (o = out_t) as -> by congruence.
      rewrite (Hc' j l _ Hl (Hcells1 j l c Hl Hc)).
      rewrite decide_False by (rewrite <- Hkn; done).
      rewrite decide_True by (rewrite <- Hkn; left). done.
    + destruct (Hcells' i lab' o Hlab') as (o' & Ho' & Hc').
      { rewrite list_lookup_insert_ne by done. done. }
      exists o'. split; [done|]. intros j l c Hl Hc.
      rewrite (Hc' j l c Hl Hc). f_equal.
      destruct (decide (Z.of_nat i ∈ keys)) as [Hin|Hnin].
      * rewrite decide_True by (by right). done.
      * rewrite decide_False; [done|].
        intros [?|?]%elem_of_cons; [lia|done].
Qed.

(** The row [r] of the table writes the cells of label [l] in frame [t]. *)
Definition writes (tbl : list Row.t) (t : nat) (l : Z) (r : Row.t) : Prop :=
  r ∈ tbl ∧ Row.frame r = Z.of_nat t ∧ Row.orig_label r = l ∧ l ≠ 0.

(** C2, as the code has it: the output frames are [uint16] whatever the
    identities.  When every row lies in a frame of the stack and the
    identities to write are below 65536, [relabel_with_tracks] returns a
    stack of the shape of the label maps in which a cell holds 0 when no
    row of its frame carries its label (or the label is the background),
    and otherwise the unaltered identity of such a row. *)
Theorem relabel_with_tracks_spec (pol : Np.overflow) (w : t)
    (lm : Np.stack) (tbl : list Row.t) :
  label_maps w = Some lm →
  linked w = Some tbl →
  (∀ r, r ∈ tbl → 0 <= Row.frame r < Np.shape0 lm) →
  (∀ r, r ∈ tbl → Row.orig_label r ≠ 0 → 0 <= Row.particle r < 65536) →
  ∃ out,
    relabel_with_tracks pol w = Ok (with_tracked_labels (Some out) w)
    ∧ Np.frame_shape out = Np.frame_shape lm
    ∧ List.length (Np.frames out) = List.length (Np.frames lm)
    ∧ ∀ t lab, Np.frames lm !! t = Some lab →
        ∃ o, Np.frames out !! t = Some o
             ∧ List.length o = List.length lab
             ∧ ∀ i l, lab !! i = Some l →
                 ((¬ ∃ r, writes tbl t l r) → o !! i = Some 0)
                 ∧ ((∃ r, writes tbl t l r) →
                    ∃ r, writes tbl t l r ∧ o !! i = Some (Row.particle r)).
Proof.
  intros Hlm Hl Hframes Hfit.
  unfold relabel_with_tracks. rewrite Hlm, Hl.
  destruct (relabel_groups_spec pol lm tbl (Np.unique (Row.frame <$> tbl))
              (Np.zeros_like <$> Np.frames lm))
    as (out' & -> & [Hlen' Hsizes'] & Hcells); [done| | | |].
  { apply unique_NoDup. }
  { intros k Hk. apply unique_elem_of, list_elem_of_fmap in Hk as (r & -> & Hr).
    by apply Hframes. }
  { split; [by rewrite length_fmap|].
    intros i lab o Hlab Ho. rewrite list_lookup_fmap, Hlab in Ho.
    injection Ho as <-. unfold Np.zeros_like. by rewrite length_fmap. }
  simpl. eexists. split; [done|]. split; [done|]. split; [done|].
  intros t lab Hlab. simpl.
  destruct (Hcells t lab (Np.zeros_like lab) Hlab) as (o & Ho & Hc).
  { by rewrite list_lookup_fmap, Hlab. }
  exists o. split; [done|]. split.
  { eapply Hsizes'; done. }
  intros i l Hi.
  assert (Np.zeros_like lab !! i = Some 0) as Hzero.
  { unfold Np.zeros_like. by rewrite list_lookup_fmap, Hi. }
  rewrite (Hc i l 0 Hi Hzero).
  assert (∀ r, r ∈ rows_of_frame (Z.of_nat t) tbl
               ∧ Row.orig_label r ≠ 0 ∧ l = Row.orig_label r ↔ writes tbl t l r) as Hw.
  { intros r. unfold writes, rows_of_frame. rewrite list_elem_of_filter.
    split; [intros ([? ?] & ? & ->)|intros (? & ? & <- & ?)]; done. }
  split.
  - intros Hnone. f_equal. destruct (decide _) as [Hin|Hnin]; [|done].
    apply paint_untouched. intros r Hr Hrl. apply Hnone. exists r.
    apply Hw. done.
  - intros (r & Hr).
    assert (Z.of_nat t ∈ Np.unique (Row.frame <$> tbl)) as Hin.
    { apply unique_elem_of, list_elem_of_fmap. exists r.
      destruct Hr as (? & ? & _). done. }
    rewrite decide_True by done.
    destruct (paint_written (rows_of_frame (Z.of_nat t) tbl) l 0)
      as (r1 & Hin1 & Hnz & Hl1 & Hp).
    { exists r. by apply Hw. }
    exists r1. split; [apply Hw; done|]. by rewrite Hp.
Qed.

(** A single frame of one cell, labelled 1, whose track received the
    identity 65536. *)
Definition one_cell : Np.stack :=
  {| Np.frame_shape := [1; 1]%nat; Np.frames := [[1]] |}.
Definition track_65536 : Row.t :=
  {| Row.frame := 0; Row.x := 0; Row.y := 0; Row.size := 1;
     Row.orig_label := 1; Row.diameter := 1; Row.particle := 65536 |}.
Definition big_identity : t :=
  with_linked (Some [track_65536]) (with_label_maps (Some one_cell) init).

(** C2 as stated fails: the maximum identity of this table is 65536 and
    the output cell of its track cannot hold it.  Depending on the numpy
    release the cell reads 0 or the call raises. *)
Lemma relabel_loses_large_identity :
  (∀ pol w' out o,
     relabel_with_tracks pol big_identity = Ok w' →
     tracked_labels w' = Some out → Np.frames out !! 0%nat = Some o →
     o !! 0%nat ≠ Some (Row.particle track_65536))
  ∧ relabel_with_tracks Np.Wraps big_identity
    = Ok (with_tracked_labels
            (Some {| Np.frame_shape := [1; 1]%nat; Np.frames := [[0]] |})
            big_identity)
  ∧ relabel_with_tracks Np.Raises big_identity = Raise OverflowError.
Proof.
  split; [|split; by vm_compute].
  intros pol w' out o Hrun Hout Ho Hcell.
  destruct pol; vm_compute in Hrun; [|done].
  injection Hrun as <-. simpl in Hout. injection Hout as <-.
  simpl in Ho. injection Ho as <-. done.
Qed.

(** The labels 1 and 2 of a single frame linked to the tracks 5 and 7. *)
Definition labels_012 : Np.stack :=
  {| Np.frame_shape := [2; 2]%nat; Np.frames := [[0; 1; 2; 2]] |}.
Definition track_of (label track : Z) : Row.t :=
  {| Row.frame := 0; Row.x := 0; Row.y := 0; Row.size := 1;
     Row.orig_label := label; Row.diameter := 1; Row.particle := track |}.
Definition tracks_5_7 : list Row.t := [track_of 1 5; track_of 2 7].
Definition tracks_5_7_worker : t :=
  with_linked (Some tracks_5_7) (with_label_maps (Some labels_012) init).

Lemma relabel_with_tracks_spec_witness :
  ∃ out o, relabel_with_tracks Np.Raises tracks_5_7_worker
           = Ok (with_tracked_labels (Some out) tracks_5_7_worker)
           ∧ Np.frame_shape out = [2; 2]%nat
           ∧ Np.frames out !! 0%nat = Some o
           ∧ o !! 0%nat = Some 0 ∧ o !! 1%nat = Some 5.
Proof.
  destruct (relabel_with_tracks_spec Np.Raises tracks_5_7_worker labels_012 tracks_5_7
              eq_refl eq_refl) as (out & Hrun & Hshape & _ & Hframes).
  - intros r Hr. unfold tracks_5_7 in Hr.
    repeat (apply elem_of_cons in Hr as [->|Hr]); try (vm_compute; split; [discriminate|reflexivity]).
    by apply elem_of_nil in Hr.
  - intros r Hr _. unfold tracks_5_7 in Hr.
    repeat (apply elem_of_cons in Hr as [->|Hr]); try (vm_compute; split; [discriminate|reflexivity]).
    by apply elem_of_nil in Hr.
  - destruct (Hframes 0%nat _ eq_refl) as (o & Ho & _ & Hcells).
    exists out, o. split; [exact Hrun|]. split; [exact Hshape|].
    split; [exact Ho|]. split.
    + destruct (Hcells 0%nat 0 eq_refl) as [Hzero _]. apply Hzero.
      intros (r & _ & _ & _ & Hnz). by apply Hnz.
    + destruct (Hcells 1%nat 1 eq_refl) as [_ Hwritten].
      destruct Hwritten as (r & (Hr & _ & Hlabel & _) & Hcell).
      { exists (track_of 1 5). split; [left|]. split; [reflexivity|].
        split; [reflexivity|discriminate]. }
      unfold tracks_5_7 in Hr.
      apply elem_of_cons in Hr as [->|Hr]; [exact Hcell|].
      apply elem_of_cons in Hr as [->|Hr]; [discriminate Hlabel|].
      by apply elem_of_nil in Hr.
Defined.

End RelabelFacts.

(* ================================================================== *)
(** * Neighbor pairing *)
(* ================================================================== *)

Module PairingFacts.
Import TrackCellsWorker.
Local Close Scope string_scope.

(** ** Graphs held as adjacency dicts *)

(** [b in adj[a]] *)
Definition adjacent (adj : gmap Z (gset Z)) (a b : Z) : Prop :=
  ∃ s, adj !! a = Some s ∧ b ∈ s.

(** Every neighbour is a key, no node is its own neighbour, and the
    neighbour relation is symmetric. *)
Record graph (adj : gmap Z (gset Z)) : Prop := {
  graph_closed : ∀ a b, adjacent adj a b → b ∈ dom adj;
  graph_irrefl : ∀ a, ¬ adjacent adj a a;
  graph_sym : ∀ a b, adjacent adj a b → adjacent adj b a
}.

(** [b] can be reached from [a]. *)
Definition connected (adj : gmap Z (gset Z)) : Z → Z → Prop :=
  rtc (adjacent adj).

Lemma connected_sym adj a b :
  graph adj → connected adj a b → connected adj b a.
Proof.
  intros Hg H. induction H as [|a b c Hab _ IH]; [constructor|].
  eapply rtc_r; [exact IH|]. by apply graph_sym.
Qed.

Lemma adjacent_dom adj a b : adjacent adj a b → a ∈ dom adj.
Proof. intros (s & Hs & _). apply elem_of_dom. eauto. Qed.

Lemma connected_dom adj a b :
  graph adj → a ∈ dom adj → connected adj a b → b ∈ dom adj.
Proof.
  intros Hg Ha H. induction H as [|a b c Hab _ IH]; [done|].
  apply IH. by eapply graph_closed.
Qed.

(** ** The exploration loop *)

Lemma sum_list_with_ext {A} (f g : A → nat) (l : list A) :
  (∀ x, x ∈ l → f x = g x) → sum_list_with f l = sum_list_with g l.
Proof.
  induction l as [|x l IH]; intros H; [done|]. simpl.
  rewrite (H x) by left. rewrite IH; [done|]. intros y Hy. apply H. by right.
Qed.

Lemma weight_visit (adj : gmap Z (gset Z)) (comp : gset Z) (q : Z) (s : gset Z) :
  adj !! q = Some s → q ∉ comp →
  (weight adj ({[q]} ∪ comp) + S (size s) <= weight adj comp)%nat.
Proof.
  intros Hq Hnin. unfold weight.
  rewrite <- !(map_to_list_delete adj q s Hq). simpl.
  rewrite decide_True by set_solver. rewrite decide_False by done.
  rewrite (sum_list_with_ext _
             (λ ks : Z * gset Z, if decide (ks.1 ∈ comp) then 0%nat else S (size ks.2))).
  - lia.
  - intros [k s'] Hk. apply elem_of_map_to_list in Hk. simpl.
    assert (k ≠ q) as Hne.
    { intros ->. by rewrite lookup_delete_eq in Hk. }
    destruct (decide (k ∈ comp)).
    + rewrite decide_True by set_solver. done.
    + rewrite decide_False by set_solver. done.
Qed.

Lemma elem_of_rev {A} (l : list A) (x : A) : x ∈ rev l ↔ x ∈ l.
Proof. rewrite !list_elem_of_In. symmetry. apply in_rev. Qed.

Lemma length_pushed (nbs comp : gset Z) :
  (List.length (rev (filter (λ nb, nb ∉ comp) (elements nbs))) <= size nbs)%nat.
Proof. rewrite length_rev. apply length_filter. Qed.

(** Enough fuel: the loop ends. *)
Lemma explore_returns (adj : gmap Z (gset Z)) (fuel : nat)
    (stack : list Z) (comp : gset Z) :
  graph adj →
  (∀ q, q ∈ stack → q ∈ dom adj) →
  (List.length stack + weight adj comp < fuel)%nat →
  ∃ c, explore fuel adj stack comp = Ok c.
Proof.
  intros Hg. revert stack comp.
  induction fuel as [|fuel IH]; intros stack comp Hst Hfuel; [lia|].
  destruct stack as [|q stack]; [by eexists|].
  cbn [explore]. destruct (decide (q ∈ comp)) as [Hin|Hnin].
  - apply IH.
    + intros q' Hq'. apply Hst. by right.
    + simpl in Hfuel. lia.
  - assert (q ∈ dom adj) as Hq by (apply Hst; left).
    apply elem_of_dom in Hq as [nbs Hnbs]. rewrite Hnbs.
    apply IH.
    + intros q' Hq'. apply elem_of_app in Hq' as [Hq'|Hq'].
      * apply elem_of_rev, list_elem_of_filter in Hq' as [_ Hq'].
        apply elem_of_elements in Hq'.
        eapply graph_closed; [done|]. exists nbs. done.
      * apply Hst. by right.
    + pose proof (weight_visit adj comp q nbs Hnbs Hnin).
      pose proof (length_pushed nbs ({[q]} ∪ comp)).
      rewrite length_app. simpl in Hfuel. lia.
Qed.

(** What the loop returns contains what it started from, only adds nodes
    reachable from the stack, and is closed under neighbours as soon as
    the neighbours of the starting component are on the stack. *)
Lemma explore_spec (adj : gmap Z (gset Z)) (fuel : nat)
    (stack : list Z) (comp c : gset Z) :
  explore fuel adj stack comp = Ok c →
  comp ⊆ c
  ∧ (∀ q, q ∈ stack → q ∈ c)
  ∧ (∀ x, x ∈ c → x ∈ comp ∨ ∃ q, q ∈ stack ∧ connected adj q x)
  ∧ ((∀ x y, x ∈ comp → adjacent adj x y → y ∈ comp ∨ y ∈ stack) →
     ∀ x y, x ∈ c → adjacent adj x y → y ∈ c).
Proof.
  revert stack comp. induction fuel as [|fuel IH]; intros stack comp; [done|].
  destruct stack as [|q stack]; cbn [explore].
  - intros [= <-]. split; [done|]. split; [by intros q ?%elem_of_nil|].
    split; [by left|]. intros Hcl x y Hx Hxy.
    destruct (Hcl x y Hx Hxy) as [?|?%elem_of_nil]; done.
  - destruct (decide (q ∈ comp)) as [Hin|Hnin].
    + intros Hc. destruct (IH _ _ Hc) as (Hsub & Hst & Hreach & Hclosed).
      split; [done|]. split.
      { intros q' [->|Hq']%elem_of_cons; [by apply Hsub|by apply Hst]. }
      split.
      { intros x Hx. destruct (Hreach x Hx) as [?|(q' & Hq' & ?)]; [by left|].
        right. exists q'. split; [by right|done]. }
      intros Hcl. apply Hclosed. intros x y Hx Hxy.
      destruct (Hcl x y Hx Hxy) as [?|[->|?]%elem_of_cons]; auto.
    + destruct (adj !! q) as [nbs|] eqn:Hnbs; [|done].
      intros Hc. destruct (IH _ _ Hc) as (Hsub & Hst & Hreach & Hclosed).
      assert (∀ y, y ∈ rev (filter (λ nb, nb ∉ {[q]} ∪ comp) (elements nbs))
                   ↔ y ∈ nbs ∧ y ∉ {[q]} ∪ comp) as Hpushed.
      { intros y. rewrite elem_of_rev, list_elem_of_filter, elem_of_elements.
        tauto. }
      split; [set_solver|]. split.
      { intros q' [->|Hq']%elem_of_cons; [set_solver|].
        apply Hst. apply elem_of_app. by right. }
      split.
      { intros x Hx. destruct (Hreach x Hx) as [Hx'|(q' & Hq' & Hconn)].
        - apply elem_of_union in Hx' as [->%elem_of_singleton|?]; [|by left].
          right. exists q. split; [left|constructor].
        - right. apply elem_of_app in Hq' as [Hq'|Hq'].
          + exists q. split; [left|]. apply Hpushed in Hq' as [Hq' _].
            eapply rtc_l; [|exact Hconn]. exists nbs. done.
          + exists q'. split; [by right|done]. }
      intros Hcl. apply Hclosed. intros x y Hx Hxy.
      destruct (decide (y ∈ {[q]} ∪ comp)) as [?|Hy]; [by left|]. right.
      apply elem_of_app.
      apply elem_of_union in Hx as [->%elem_of_singleton|Hx].
      * left. apply Hpushed. split; [|done].
        destruct Hxy as (s & Hs & ?). congruence.
      * destruct (Hcl x y Hx Hxy) as [?|[->|?]%elem_of_cons]; [set_solver|set_solver|].
        by right.
Qed.

(** Started from one node, the loop returns the set of the nodes
    connected to it. *)
Lemma explore_component (adj : gmap Z (gset Z)) (p : Z) :
  graph adj → p ∈ dom adj →
  ∃ c, explore (explore_fuel adj) adj [p] ∅ = Ok c
       ∧ ∀ x, x ∈ c ↔ connected adj p x.
Proof.
  intros Hg Hp.
  destruct (explore_returns adj (explore_fuel adj) [p] ∅ Hg) as [c Hc].
  { by intros q ->%list_elem_of_singleton. }
  { unfold explore_fuel. simpl. lia. }
  exists c. split; [done|].
  destruct (explore_spec _ _ _ _ _ Hc) as (_ & Hst & Hreach & Hclosed).
  intros x. split.
  - intros Hx. destruct (Hreach x Hx) as [?|(q & ->%list_elem_of_singleton & ?)];
      [set_solver|done].
  - revert x. apply rtc_ind_r.
    + apply Hst. left.
    + intros y z _ Hyz IH. eapply Hclosed; [set_solver|exact IH|done].
Qed.

(** ** Isolated pairs *)

(** [a] has exactly one neighbour. *)
Definition degree_one (adj : gmap Z (gset Z)) (a : Z) : Prop :=
  ∃ y, ∀ z, adjacent adj a z ↔ z = y.

(** The connected component of [a] is made of the two nodes [a] and [b],
    and both have degree one. *)
Definition isolated (adj : gmap Z (gset Z)) (a b : Z) : Prop :=
  a ≠ b ∧ (∀ x, connected adj a x ↔ x = a ∨ x = b)
  ∧ degree_one adj a ∧ degree_one adj b.

Lemma same_component adj p x :
  graph adj → connected adj p x → ∀ z, connected adj p z ↔ connected adj x z.
Proof.
  intros Hg Hpx z. split; intros H.
  - etrans; [|exact H]. by apply connected_sym.
  - etrans; [exact Hpx|exact H].
Qed.

Lemma isolated_sym adj a b : graph adj → isolated adj a b → isolated adj b a.
Proof.
  intros Hg (Hne & Hcomp & Ha & Hb). split; [done|]. split; [|done].
  assert (connected adj a b) as Hab by (apply Hcomp; by right).
  intros x. rewrite <- (same_component adj a b Hg Hab x), Hcomp. tauto.
Qed.

Lemma isolated_fun adj a b b' : isolated adj a b → isolated adj a b' → b = b'.
Proof.
  intros (Hne & Hcomp & _) (Hne' & Hcomp' & _).
  assert (connected adj a b') as H by (apply Hcomp'; by right).
  apply Hcomp in H as [-> | ->]; done.
Qed.

Lemma isolated_dom adj a b : isolated adj a b → a ∈ dom adj.
Proof.
  intros (_ & _ & [y Hy] & _). apply (adjacent_dom adj a y). by apply Hy.
Qed.

Lemma size_one_degree adj a (na : gset Z) :
  adj !! a = Some na → size na = 1%nat ↔ degree_one adj a.
Proof.
  intros Ha. split.
  - intros Hsz. apply size_1_elem_of in Hsz as [y Hy]. exists y.
    intros z. split.
    + intros (s & Hs & Hz). assert (s = na) as -> by congruence. set_solver.
    + intros ->. exists na. split; [done|]. set_solver.
  - intros [y Hy]. assert (na = {[y]}) as ->; [|apply size_singleton].
    apply set_eq. intros z. rewrite elem_of_singleton, <- Hy. split.
    + intros Hz. exists na. done.
    + intros (s & Hs & Hz). congruence.
Qed.

Lemma elements_two (c : gset Z) :
  size c = 2%nat →
  ∃ a b, elements c = [a; b] ∧ a ≠ b ∧ ∀ x, x ∈ c ↔ x = a ∨ x = b.
Proof.
  intros Hsz. pose proof (NoDup_elements c) as Hnd.
  assert (∀ x, x ∈ c ↔ x ∈ elements c) as Hel
    by (intros x; by rewrite elem_of_elements).
  unfold size, set_size in Hsz. simpl in Hsz.
  destruct (elements c) as [|a [|b [|? ?]]]; try done.
  exists a, b. split; [done|]. split.
  - apply NoDup_cons in Hnd as [Hnd _]. intros ->. apply Hnd. left.
  - intros x. rewrite Hel, !elem_of_cons, elem_of_nil. tauto.
Qed.

Lemma dict_set_fresh (k v : Z) (d : list (Z * Z)) :
  k ∉ d.*1 → dict_set k v d = d ++ [(k, v)].
Proof.
  induction d as [|[k' v'] d IH]; intros Hk; [done|]. simpl.
  rewrite fmap_cons in Hk. simpl in Hk.
  rewrite decide_False by set_solver. rewrite IH by set_solver. done.
Qed.

(** ** The loop over the components *)

(** Between two iterations: [visited] holds the components of the nodes
    gone through, and the dict the isolated pairs among them, each in both
    directions. *)
Definition pairs_inv (adj : gmap Z (gset Z)) (seen : list Z)
    (st : gset Z * list (Z * Z)) : Prop :=
  (∀ x, x ∈ st.1 ↔ ∃ p, p ∈ seen ∧ connected adj p x)
  ∧ (∀ x y, (x, y) ∈ st.2 ↔ x ∈ st.1 ∧ isolated adj x y)
  ∧ NoDup (st.2.*1).

Lemma component_step_spec adj seen st p :
  graph adj → p ∈ dom adj → pairs_inv adj seen st →
  ∃ st', component_step adj st p = Ok st'
         ∧ pairs_inv adj (seen ++ [p]) st'
         ∧ ∃ more, st'.2 = st.2 ++ more.
Proof.
  intros Hg Hp (Hvis & Hvp & Hnd). destruct st as [visited vp].
  simpl in Hvis, Hvp, Hnd. unfold component_step.
  destruct (decide (p ∈ visited)) as [Hin|Hnin].
  { exists (visited, vp). split; [done|]. split; [|exists []; by rewrite app_nil_r].
    split; [|done]. simpl. intros x. rewrite Hvis. split.
    - intros (p' & Hp' & ?). exists p'. split; [|done].
      apply elem_of_app. by left.
    - intros (p' & [Hp'| ->%list_elem_of_singleton]%elem_of_app & Hc); [by eauto|].
      apply Hvis in Hin as (p'' & Hp'' & Hc''). exists p''. split; [done|].
      by etrans. }
  destruct (explore_component adj p Hg Hp) as (c & -> & Hc). simpl.
  assert (∀ x, x ∈ c → x ∉ visited) as Hdisj.
  { intros x Hx Hxv. apply Hnin. apply Hvis in Hxv as (p' & Hp' & Hc').
    apply Hvis. exists p'. split; [done|]. etrans; [exact Hc'|].
    apply connected_sym; [done|]. by apply Hc. }
  assert (∀ x, x ∈ visited ∪ c ↔ ∃ p', p' ∈ seen ++ [p] ∧ connected adj p' x)
    as Hvis'.
  { intros x. rewrite elem_of_union, Hvis, Hc. split.
    - intros [(p' & Hp' & ?)|?].
      + exists p'. split; [apply elem_of_app; by left|done].
      + exists p. split; [apply elem_of_app; right; left|done].
    - intros (p' & [Hp'| ->%list_elem_of_singleton]%elem_of_app & ?); eauto. }
  assert (∀ x y, x ∈ c → isolated adj x y → ∀ z, z ∈ c ↔ z = x ∨ z = y) as Hclass.
  { intros x y Hx (_ & Hcomp & _) z.
    rewrite Hc, (same_component adj p x Hg) by (by apply Hc). apply Hcomp. }
  (* the state when nothing is added to the dict *)
  assert ((∀ x y, x ∈ c → ¬ isolated adj x y) →
          pairs_inv adj (seen ++ [p]) (visited ∪ c, vp)) as Hskip.
  { intros Hnone. split; [done|]. split; [|done]. simpl. intros x y.
    rewrite Hvp, elem_of_union. split; [tauto|].
    intros [[?|Hx] Hiso]; [done|]. by destruct (Hnone x y Hx). }
  destruct (decide (size c = 2%nat)) as [Hsz|Hsz].
  2:{ exists (visited ∪ c, vp). split; [done|].
      split; [|exists []; by rewrite app_nil_r].
      apply Hskip. intros x y Hx Hiso. apply Hsz.
      pose proof (Hclass x y Hx Hiso) as Hcl.
      assert (c = {[x; y]}) as -> by (apply set_eq; set_solver).
      destruct Hiso as (Hne & _). rewrite size_union by set_solver.
      by rewrite !size_singleton. }
  destruct (elements_two c Hsz) as (a & b & -> & Hab & Hcab).
  assert (a ∈ c) as Hac by (apply Hcab; by left).
  assert (b ∈ c) as Hbc by (apply Hcab; by right).
  assert (a ∈ dom adj) as Hadom.
  { apply (connected_dom adj p a Hg Hp). by apply Hc. }
  assert (b ∈ dom adj) as Hbdom.
  { apply (connected_dom adj p b Hg Hp). by apply Hc. }
  apply elem_of_dom in Hadom as [na Hna]. apply elem_of_dom in Hbdom as [nb Hnb].
  assert (∀ x y, x ∈ c → isolated adj x y →
                 degree_one adj a ∧ degree_one adj b) as Hdeg.
  { intros x y Hx Hiso. pose proof (Hclass x y Hx Hiso) as Hcl.
    destruct Hiso as (Hne & _ & Hdx & Hdy).
    assert (a = x ∧ b = y ∨ a = y ∧ b = x) as [[-> ->]|[-> ->]]; [|done..].
    apply Hcl in Hac, Hbc. destruct Hac, Hbc; subst; tauto. }
  rewrite Hna. simpl.
  destruct (decide (size na = 1%nat)) as [Hsa|Hsa].
  2:{ exists (visited ∪ c, vp). split; [done|].
      split; [|exists []; by rewrite app_nil_r].
      apply Hskip. intros x y Hx Hiso. apply Hsa.
      apply (size_one_degree adj a na Hna). by destruct (Hdeg x y Hx Hiso). }
  rewrite Hnb. simpl.
  destruct (decide (size nb = 1%nat)) as [Hsb|Hsb].
  2:{ exists (visited ∪ c, vp). split; [done|].
      split; [|exists []; by rewrite app_nil_r].
      apply Hskip. intros x y Hx Hiso. apply Hsb.
      apply (size_one_degree adj b nb Hnb). by destruct (Hdeg x y Hx Hiso). }
  assert (isolated adj a b) as Hiso.
  { split; [done|]. split.
    - intros x. rewrite <- (same_component adj p a Hg) by (by apply Hc).
      rewrite <- Hc. apply Hcab.
    - split; [by apply (size_one_degree adj a na)|by apply (size_one_degree adj b nb)]. }
  assert (∀ k, k ∈ vp.*1 → k ∈ visited) as Hkeys.
  { intros k Hk. apply list_elem_of_fmap in Hk as ([k' v] & -> & Hkv).
    apply Hvp in Hkv. tauto. }
  assert (a ∉ vp.*1) as Hafresh by (intros ?%Hkeys; by apply (Hdisj a)).
  assert (b ∉ vp.*1) as Hbfresh by (intros ?%Hkeys; by apply (Hdisj b)).
  rewrite (dict_set_fresh a b vp) by done.
  rewrite (dict_set_fresh b a).
  2:{ rewrite fmap_app. simpl. rewrite elem_of_app, list_elem_of_singleton.
      intros [?|?]; done. }
  eexists. split; [done|]. split; [|exists [(a, b); (b, a)]; by rewrite <- app_assoc].
  split; [done|]. simpl. split.
  - intros x y. rewrite !elem_of_app, !list_elem_of_singleton, Hvp, elem_of_union.
    split.
    + intros [[[? ?]|[= -> ->]]|[= -> ->]]; [tauto|tauto|].
      split; [by right|]. by apply isolated_sym.
    + intros [[?|Hx] Hxy]; [tauto|].
      apply Hcab in Hx as [-> | ->].
      * left; right. f_equal. by apply (isolated_fun adj a).
      * right. f_equal. apply (isolated_fun adj b); [done|]. by apply isolated_sym.
  - rewrite !fmap_app. simpl. rewrite <- app_assoc. simpl.
    apply NoDup_app. split; [done|]. split.
    + intros k Hk [->|[->|?%elem_of_nil]%elem_of_cons]%elem_of_cons; done.
    + apply NoDup_cons. split; [|apply NoDup_singleton].
      by intros ->%list_elem_of_singleton.
Qed.

Lemma component_loop_spec adj keys seen st :
  graph adj → (∀ p, p ∈ keys → p ∈ dom adj) → pairs_inv adj seen st →
  ∃ st', component_loop adj keys st = Ok st'
         ∧ pairs_inv adj (seen ++ keys) st'
         ∧ ∃ more, st'.2 = st.2 ++ more.
Proof.
  intros Hg. revert seen st. induction keys as [|p keys IH]; intros seen st Hk Hinv.
  - exists st. split; [done|]. rewrite app_nil_r. split; [done|].
    exists []. by rewrite app_nil_r.
  - destruct (component_step_spec adj seen st p Hg) as (st1 & Hst1 & Hinv1 & m1 & Hm1);
      [apply Hk; left|done|].
    destruct (IH (seen ++ [p]) st1) as (st2 & Hst2 & Hinv2 & m2 & Hm2);
      [intros q Hq; apply Hk; by right|done|].
    exists st2. cbn [component_loop]. rewrite Hst1. simpl. split; [done|].
    rewrite <- app_assoc in Hinv2. split; [done|].
    exists (m1 ++ m2). by rewrite Hm2, Hm1, app_assoc.
Qed.

(** Over all the keys of a graph, the loop returns the dict that maps
    every member of an isolated pair to the other member. *)
Lemma component_loop_pairs adj keys :
  graph adj → (∀ p, p ∈ keys ↔ p ∈ dom adj) →
  ∃ st, component_loop adj keys (∅, []) = Ok st
        ∧ (∀ x y, (x, y) ∈ st.2 ↔ isolated adj x y)
        ∧ NoDup (st.2.*1).
Proof.
  intros Hg Hkeys.
  destruct (component_loop_spec adj keys [] (∅, []) Hg) as (st & Hst & Hinv & _).
  { intros p. apply Hkeys. }
  { split; [|split].
    - intros x. split; [set_solver|]. by intros (p & ?%elem_of_nil & _).
    - intros x y. simpl. split; [by intros ?%elem_of_nil|set_solver].
    - constructor. }
  exists st. split; [done|]. destruct Hinv as (Hvis & Hvp & Hnd).
  split; [|done]. intros x y. rewrite Hvp. split; [tauto|].
  intros Hiso. split; [|done]. apply Hvis. exists x. split; [|constructor].
  apply Hkeys. by eapply isolated_dom.
Qed.

(** ** The identities given to the pairs *)

(** A dict of pairs as [make_pairs] leaves it: every pair is there in both
    directions, under distinct keys. *)
Definition matching (items : list (Z * Z)) : Prop :=
  NoDup (items.*1) ∧ ∀ x y, (x, y) ∈ items → (y, x) ∈ items ∧ x ≠ y.

Lemma NoDup_keys_fun (items : list (Z * Z)) x y y' :
  NoDup (items.*1) → (x, y) ∈ items → (x, y') ∈ items → y = y'.
Proof.
  induction items as [|[k v] items IH]; intros Hnd Hy Hy';
    [by apply elem_of_nil in Hy|].
  rewrite fmap_cons in Hnd. apply NoDup_cons in Hnd as [Hk Hnd]. simpl in Hk.
  apply elem_of_cons in Hy as [Hy|Hy];
    apply elem_of_cons in Hy' as [Hy'|Hy']; simplify_eq.
  - done.
  - exfalso. apply Hk. apply list_elem_of_fmap. by exists (k, y').
  - exfalso. apply Hk. apply list_elem_of_fmap. by exists (k, y).
  - by apply IH.
Qed.

Lemma pairing_loop_keeps todo pm n x v :
  pm !! x = Some v → (pairing_loop todo (pm, n)).1 !! x = Some v.
Proof.
  revert pm n. induction todo as [|[p1 p2] todo IH]; intros pm n Hx; [done|].
  cbn [pairing_loop]. destruct (decide _) as [?|Hfresh]; [by apply IH|].
  apply IH. rewrite !lookup_insert_ne; [done|..].
  - intros ->. apply Hfresh. left. apply elem_of_dom. eauto.
  - intros ->. apply Hfresh. right. apply elem_of_dom. eauto.
Qed.

(** Between two iterations of the loop of [apply_pairing], started with
    the identity [n0]. *)
Definition pairing_inv (items : list (Z * Z)) (n0 : Z) (done : list (Z * Z))
    (st : gmap Z Z * Z) : Prop :=
  n0 <= st.2
  ∧ (∀ x v, st.1 !! x = Some v →
       n0 <= v < st.2 ∧ ∃ y, (x, y) ∈ items ∧ st.1 !! y = Some v)
  ∧ (∀ x z v, st.1 !! x = Some v → st.1 !! z = Some v → z = x ∨ (x, z) ∈ items)
  ∧ (∀ x y, (x, y) ∈ done → x ∈ dom st.1).

Lemma pairing_loop_spec items n0 done todo st :
  matching items → items = done ++ todo →
  pairing_inv items n0 done st →
  pairing_inv items n0 items (pairing_loop todo st).
Proof.
  intros [Hnd Hsym]. revert done st.
  induction todo as [|[p1 p2] todo IH]; intros done [pm n] Hitems Hinv.
  - rewrite app_nil_r in Hitems. by subst.
  - assert ((p1, p2) ∈ items) as Hp.
    { rewrite Hitems. apply elem_of_app. right. left. }
    destruct (Hsym p1 p2 Hp) as [Hp' Hne].
    destruct Hinv as (Hn & Hval & Hinj & Hdone). simpl in Hn, Hval, Hinj, Hdone.
    cbn [pairing_loop]. destruct (decide _) as [Hold|Hfresh].
    + apply (IH (done ++ [(p1, p2)])); [by rewrite <- app_assoc|].
      split; [done|]. split; [done|]. split; [done|]. simpl.
      intros x y [Hxy|[= -> ->]%list_elem_of_singleton]%elem_of_app;
        [by eapply Hdone|].
      destruct Hold as [?|H2]; [done|].
      apply elem_of_dom in H2 as [v Hv].
      destruct (Hval p2 v Hv) as (_ & y & Hy & Hyv).
      assert (y = p1) as -> by (by eapply NoDup_keys_fun).
      apply elem_of_dom. eauto.
    + assert ((p1 ∉ dom pm) ∧ (p2 ∉ dom pm)) as [H1 H2] by tauto.
      apply not_elem_of_dom in H1, H2.
      apply (IH (done ++ [(p1, p2)])); [by rewrite <- app_assoc|].
      split; [simpl; lia|]. split; [|split]; simpl.
      * intros x v Hx.
        destruct (decide (x = p2)) as [->|Hx2].
        { rewrite lookup_insert_eq in Hx. injection Hx as <-.
          split; [lia|]. exists p1. split; [done|].
          rewrite lookup_insert_ne by done. by rewrite lookup_insert_eq. }
        rewrite lookup_insert_ne in Hx by done.
        destruct (decide (x = p1)) as [->|Hx1].
        { rewrite lookup_insert_eq in Hx. injection Hx as <-.
          split; [lia|]. exists p2. split; [done|]. by rewrite lookup_insert_eq. }
        rewrite lookup_insert_ne in Hx by done.
        destruct (Hval x v Hx) as (Hv & y & Hy & Hyv). split; [lia|].
        exists y. split; [done|].
        rewrite !lookup_insert_ne; [done|congruence..].
      * intros x z v Hx Hz.
        assert (∀ k, <[p2:=n]> (<[p1:=n]> pm) !! k = Some v →
                     (k = p1 ∨ k = p2) ∧ v = n
                     ∨ (k ≠ p1 ∧ k ≠ p2 ∧ pm !! k = Some v ∧ v < n)) as Hcases.
        { intros k Hk. destruct (decide (k = p2)) as [->|Hk2].
          - rewrite lookup_insert_eq in Hk. left. split; [by right|congruence].
          - rewrite lookup_insert_ne in Hk by done.
            destruct (decide (k = p1)) as [->|Hk1].
            + rewrite lookup_insert_eq in Hk. left. split; [by left|congruence].
            + rewrite lookup_insert_ne in Hk by done. right.
              destruct (Hval k v Hk) as [? _]. repeat split; try done. lia. }
        destruct (Hcases x Hx) as [[Hxp ->]|(? & ? & Hx' & ?)];
          destruct (Hcases z Hz) as [[Hzp ?]|(? & ? & Hz' & ?)]; try lia.
        -- destruct Hxp as [-> | ->], Hzp as [-> | ->]; auto.
        -- by eapply Hinj.
      * intros x y Hxy. rewrite !dom_insert_L.
        apply elem_of_app in Hxy as [Hxy|[= -> ->]%list_elem_of_singleton].
        -- apply Hdone in Hxy. set_solver.
        -- set_solver.
Qed.

(** The identities handed out fill an interval: none is skipped. *)
Lemma pairing_loop_range todo pm n n0 :
  n0 <= n →
  (∀ v, n0 <= v < n → ∃ x, pm !! x = Some v) →
  ∀ v, n0 <= v < (pairing_loop todo (pm, n)).2 →
       ∃ x, (pairing_loop todo (pm, n)).1 !! x = Some v.
Proof.
  revert pm n. induction todo as [|[p1 p2] todo IH]; intros pm n Hn Hfull; [done|].
  cbn [pairing_loop]. destruct (decide _) as [?|Hfresh]; [by apply IH|].
  apply IH; [lia|]. intros v Hv.
  destruct (decide (v = n)) as [->|Hne].
  - exists p2. by rewrite lookup_insert_eq.
  - destruct (Hfull v ltac:(lia)) as [x Hx]. exists x.
    rewrite !lookup_insert_ne; [done|..].
    + intros ->. apply Hfresh. left. apply elem_of_dom. eauto.
    + intros ->. apply Hfresh. right. apply elem_of_dom. eauto.
Qed.

(** What [pair_map] holds after the loop, started from the empty dict and
    the identity [n0]. *)
Lemma pairing_loop_matching (items : list (Z * Z)) (n0 : Z) :
  matching items →
  let pm := (pairing_loop items (∅, n0)).1 in
  (∀ x y, (x, y) ∈ items →
     ∃ v, pm !! x = Some v ∧ pm !! y = Some v ∧ n0 <= v)
  ∧ (∀ x v, pm !! x = Some v → n0 <= v ∧ ∃ y, (x, y) ∈ items)
  ∧ (∀ x z v, pm !! x = Some v → pm !! z = Some v → z = x ∨ (x, z) ∈ items)
  ∧ (∀ x y rest, items = (x, y) :: rest → pm !! x = Some n0)
  ∧ (∀ x v, pm !! x = Some v → v < (pairing_loop items (∅, n0)).2)
  ∧ (∀ v, n0 <= v < (pairing_loop items (∅, n0)).2 → ∃ x, pm !! x = Some v).
Proof.
  intros Hm pm.
  destruct (pairing_loop_spec items n0 [] items (∅, n0) Hm eq_refl)
    as (_ & Hval & Hinj & Hdone).
  { split; [simpl; lia|]. split; [|split]; simpl.
    - intros x v Hx. by rewrite lookup_empty in Hx.
    - intros x z v Hx. by rewrite lookup_empty in Hx.
    - by intros x y ?%elem_of_nil. }
  fold pm in Hval, Hinj, Hdone.
  split; [|split; [|split; [|split; [|split]]]];
    [..|intros x v Hx; by destruct (Hval x v Hx) as [[_ ?] _]
       |apply (pairing_loop_range items ∅ n0 n0); [lia|intros v ?; lia]].
  - intros x y Hxy. apply Hdone in Hxy as Hx. apply elem_of_dom in Hx as [v Hv].
    destruct (Hval x v Hv) as (Hrange & y' & Hy' & Hy'v).
    assert (y' = y) as -> by (destruct Hm; by eapply NoDup_keys_fun).
    exists v. repeat split; try done. lia.
  - intros x v Hx. destruct (Hval x v Hx) as (? & y & ? & _).
    split; [lia|eauto].
  - done.
  - intros x y rest ->. unfold pm. cbn [pairing_loop].
    rewrite decide_False by set_solver.
    apply pairing_loop_keeps.
    destruct Hm as [_ Hsym]. destruct (Hsym x y) as [_ Hne]; [left|].
    rewrite lookup_insert_ne by done. by rewrite lookup_insert_eq.
Qed.

Lemma series_max_upper (l : list Z) (m : Z) :
  series_max l = Some m → ∀ x, x ∈ l → x <= m.
Proof.
  destruct l as [|a l]; [done|]. simpl. intros [= <-].
  induction l as [|b l IH]; intros x Hx.
  - apply list_elem_of_singleton in Hx as ->. simpl. lia.
  - simpl. apply elem_of_cons in Hx as [->|Hx].
    + specialize (IH a (list_elem_of_here _ _)). lia.
    + apply elem_of_cons in Hx as [->|Hx]; [lia|].
      specialize (IH x). etrans; [apply IH; by right|]. lia.
Qed.

(** ** The graph of the last frame *)

Lemma drop_duplicates_particles seen rows p :
  p ∈ Row.particle <$> drop_duplicates seen rows
  ↔ p ∈ Row.particle <$> rows ∧ p ∉ seen.
Proof.
  revert seen. induction rows as [|r0 rows IH]; intros seen.
  - simpl. rewrite elem_of_nil. tauto.
  - cbn [drop_duplicates]. destruct (decide (Row.particle r0 ∈ seen)) as [Hin|Hnin].
    + rewrite IH, fmap_cons, elem_of_cons. split; [tauto|].
      intros [[->|?] ?]; tauto.
    + rewrite !fmap_cons, !elem_of_cons, IH. split.
      * intros [->|[? ?]]; [tauto|]. split; [tauto|set_solver].
      * intros [[->|?] ?]; [tauto|].
        destruct (decide (p = Row.particle r0)); [tauto|]. right. set_solver.
Qed.

Lemma drop_duplicates_NoDup seen rows :
  NoDup (Row.particle <$> drop_duplicates seen rows).
Proof.
  revert seen. induction rows as [|r0 rows IH]; intros seen; [constructor|].
  cbn [drop_duplicates]. destruct (decide (Row.particle r0 ∈ seen)); [apply IH|].
  rewrite fmap_cons. apply NoDup_cons. split; [|apply IH].
  rewrite drop_duplicates_particles. set_solver.
Qed.

Lemma empty_adjacency_lookup (particles : list Z) (p : Z) (s : gset Z) :
  empty_adjacency particles !! p = Some s → s = ∅ ∧ p ∈ particles.
Proof.
  unfold empty_adjacency. induction particles as [|q particles IH]; [done|].
  rewrite fmap_cons, list_to_map_cons.
  destruct (decide (q = p)) as [->|Hne].
  - rewrite lookup_insert_eq. intros [= <-]. split; [done|left].
  - rewrite lookup_insert_ne by done. intros H. destruct (IH H). split; [done|by right].
Qed.

Lemma empty_adjacency_dom (particles : list Z) :
  dom (empty_adjacency particles) = list_to_set particles.
Proof.
  unfold empty_adjacency. induction particles as [|q particles IH].
  - simpl. by rewrite dom_empty_L.
  - rewrite fmap_cons, list_to_map_cons, dom_insert_L, IH. done.
Qed.

Lemma adj_add_spec (k v : Z) (adj : gmap Z (gset Z)) :
  k ∈ dom adj →
  ∃ adj', adj_add k v adj = Ok adj' ∧ dom adj' = dom adj
          ∧ ∀ x y, adjacent adj' x y ↔ adjacent adj x y ∨ (x = k ∧ y = v).
Proof.
  intros Hk. apply elem_of_dom in Hk as Hk'. destruct Hk' as [s Hs].
  unfold adj_add. rewrite Hs. eexists. split; [done|]. split.
  - rewrite dom_insert_L. set_solver.
  - intros x y. unfold adjacent. destruct (decide (x = k)) as [->|Hne].
    + rewrite lookup_insert_eq. split.
      * intros (s' & [= <-] & Hy). apply elem_of_union in Hy as [Hy|Hy].
        -- right. set_solver.
        -- left. eauto.
      * intros [(s' & Hs' & Hy)|[_ ->]]; eexists; (split; [done|]).
        -- assert (s' = s) as -> by congruence. set_solver.
        -- set_solver.
    + rewrite lookup_insert_ne by done. split; [by left|].
      intros [?|[? _]]; done.
Qed.

Section Adjacency.

Variable within_reach : Row.t → Row.t → bool.

(** Two rows of [pts], taken in this order, pass the distance test;
    [a] is the track of the first and [b] of the second. *)
Definition close (pts : list Row.t) (a b : Z) : Prop :=
  ∃ (i j : nat) ri rj,
    (i < j)%nat ∧ pts !! i = Some ri ∧ pts !! j = Some rj
    ∧ within_reach ri rj = true
    ∧ Row.particle ri = a ∧ Row.particle rj = b.

(** The edges of the graph: the unordered pairs that pass the test. *)
Definition edge (pts : list Row.t) (a b : Z) : Prop :=
  close pts a b ∨ close pts b a.

(** [a] and [b] are the rows of [r] and of one of [rest] that pass. *)
Definition close_to (r : Row.t) (rest : list Row.t) (a b : Z) : Prop :=
  ∃ rj, rj ∈ rest ∧ within_reach r rj = true
        ∧ Row.particle r = a ∧ Row.particle rj = b.

Lemma close_cons r pts a b :
  close (r :: pts) a b ↔ close_to r pts a b ∨ close pts a b.
Proof.
  split.
  - intros (i & j & ri & rj & Hij & Hi & Hj & Hw & Ha & Hb).
    destruct j as [|j]; [lia|]. simpl in Hj. destruct i as [|i].
    + left. simpl in Hi. injection Hi as <-. exists rj.
      split; [by eapply list_elem_of_lookup_2|done].
    + right. simpl in Hi. exists i, j, ri, rj. repeat split; try done. lia.
  - intros [(rj & Hrj & Hw & Ha & Hb)|(i & j & ri & rj & Hij & Hi & Hj & H)].
    + apply list_elem_of_lookup_1 in Hrj as [j Hj].
      exists 0%nat, (S j), r, rj. repeat split; try done. lia.
    + exists (S i), (S j), ri, rj. repeat split; try tauto. lia.
Qed.

Lemma link_spec ri rj adj :
  Row.particle ri ∈ dom adj → Row.particle rj ∈ dom adj →
  ∃ adj', link within_reach ri rj adj = Ok adj' ∧ dom adj' = dom adj
          ∧ ∀ x y, adjacent adj' x y
                   ↔ adjacent adj x y
                     ∨ (within_reach ri rj = true
                        ∧ (x = Row.particle ri ∧ y = Row.particle rj
                           ∨ x = Row.particle rj ∧ y = Row.particle ri)).
Proof.
  intros Hi Hj. unfold link. destruct (within_reach ri rj).
  - destruct (adj_add_spec (Row.particle ri) (Row.particle rj) adj Hi)
      as (adj1 & -> & Hd1 & Ha1). simpl.
    destruct (adj_add_spec (Row.particle rj) (Row.particle ri) adj1)
      as (adj2 & -> & Hd2 & Ha2); [by rewrite Hd1|].
    exists adj2. split; [done|]. split; [congruence|].
    intros x y. rewrite Ha2, Ha1. tauto.
  - exists adj. split; [done|]. split; [done|]. intros x y.
    split; [by left|]. intros [?|[? _]]; done.
Qed.

Lemma link_row_spec ri rest adj :
  Row.particle ri ∈ dom adj →
  (∀ rj, rj ∈ rest → Row.particle rj ∈ dom adj) →
  ∃ adj', link_row within_reach ri rest adj = Ok adj' ∧ dom adj' = dom adj
          ∧ ∀ x y, adjacent adj' x y
                   ↔ adjacent adj x y ∨ close_to ri rest x y
                     ∨ close_to ri rest y x.
Proof.
  revert adj. induction rest as [|rj rest IH]; intros adj Hi Hrest.
  - exists adj. split; [done|]. split; [done|]. intros x y.
    split; [by left|].
    intros [?|[(r & ?%elem_of_nil & _)|(r & ?%elem_of_nil & _)]]; done.
  - destruct (link_spec ri rj adj Hi) as (adj1 & Hl & Hd1 & Ha1);
      [apply Hrest; left|].
    destruct (IH adj1) as (adj2 & Hl2 & Hd2 & Ha2).
    { by rewrite Hd1. }
    { intros r Hr. rewrite Hd1. apply Hrest. by right. }
    exists adj2. cbn [link_row]. rewrite Hl. simpl. split; [done|].
    split; [congruence|]. intros x y. rewrite Ha2, Ha1.
    unfold close_to. split.
    + intros [[?|(Hw & [[-> ->]|[-> ->]])]|[(r & Hr & ?)|(r & Hr & ?)]].
      * by left.
      * right; left. exists rj. split; [left|done].
      * right; right. exists rj. split; [left|done].
      * right; left. exists r. split; [by right|done].
      * right; right. exists r. split; [by right|done].
    + intros [?|[(r & [->|Hr]%elem_of_cons & Hw & <- & <-)
                |(r & [->|Hr]%elem_of_cons & Hw & <- & <-)]].
      * by left; left.
      * left; right. split; [done|]. by left.
      * right; left. exists r. done.
      * left; right. split; [done|]. by right.
      * right; right. exists r. done.
Qed.

Lemma build_adjacency_spec pts adj :
  (∀ r, r ∈ pts → Row.particle r ∈ dom adj) →
  ∃ adj', build_adjacency within_reach pts adj = Ok adj' ∧ dom adj' = dom adj
          ∧ ∀ x y, adjacent adj' x y ↔ adjacent adj x y ∨ edge pts x y.
Proof.
  revert adj. induction pts as [|ri pts IH]; intros adj Hdom.
  - exists adj. split; [done|]. split; [done|]. intros x y.
    split; [by left|].
    intros [?|[(i & j & r & ? & _ & Hi & _)|(i & j & r & ? & _ & Hi & _)]]; done.
  - destruct (link_row_spec ri pts adj) as (adj1 & Hl & Hd1 & Ha1).
    { apply Hdom. left. }
    { intros r Hr. apply Hdom. by right. }
    destruct (IH adj1) as (adj2 & Hb & Hd2 & Ha2).
    { intros r Hr. rewrite Hd1. apply Hdom. by right. }
    exists adj2. cbn [build_adjacency]. rewrite Hl. simpl. split; [done|].
    split; [congruence|]. intros x y. rewrite Ha2, Ha1.
    unfold edge. rewrite !close_cons. tauto.
Qed.

Lemma close_particles pts a b :
  close pts a b →
  a ∈ Row.particle <$> pts ∧ b ∈ Row.particle <$> pts
  ∧ (NoDup (Row.particle <$> pts) → a ≠ b).
Proof.
  intros (i & j & ri & rj & Hij & Hi & Hj & _ & <- & <-).
  split; [|split].
  - apply list_elem_of_fmap. exists ri. split; [done|].
    by eapply list_elem_of_lookup_2.
  - apply list_elem_of_fmap. exists rj. split; [done|].
    by eapply list_elem_of_lookup_2.
  - intros Hnd Heq.
    assert (i = j); [|lia].
    eapply NoDup_lookup; [exact Hnd| |].
    + rewrite list_lookup_fmap, Hi. done.
    + rewrite list_lookup_fmap, Hj. simpl. by rewrite Heq.
Qed.

(** The adjacency dict of [make_pairs] is the graph of the test over
    the de-duplicated rows. *)
Lemma build_adjacency_graph pts :
  NoDup (Row.particle <$> pts) →
  ∃ adj, build_adjacency within_reach pts
           (empty_adjacency (Row.particle <$> pts)) = Ok adj
         ∧ (∀ p, p ∈ Row.particle <$> pts ↔ p ∈ dom adj)
         ∧ (∀ x y, adjacent adj x y ↔ edge pts x y)
         ∧ graph adj.
Proof.
  intros Hnd.
  destruct (build_adjacency_spec pts (empty_adjacency (Row.particle <$> pts)))
    as (adj & Hb & Hd & Ha).
  { intros r Hr. rewrite empty_adjacency_dom, elem_of_list_to_set.
    apply list_elem_of_fmap. eauto. }
  assert (∀ x y, adjacent adj x y ↔ edge pts x y) as Hedge.
  { intros x y. rewrite Ha. split; [|by right].
    intros [(s & Hs & Hy)|?]; [|done].
    apply empty_adjacency_lookup in Hs as [-> _]. set_solver. }
  assert (∀ p, p ∈ Row.particle <$> pts ↔ p ∈ dom adj) as Hkeys.
  { intros p. by rewrite Hd, empty_adjacency_dom, elem_of_list_to_set. }
  exists adj. split; [done|]. split; [done|]. split; [done|]. split.
  - intros a b Hab. apply Hkeys. apply Hedge in Hab as [H|H];
      apply close_particles in H; tauto.
  - intros a Haa. apply Hedge in Haa as [H|H];
      apply close_particles in H as (_ & _ & Hne); by apply Hne.
  - intros a b Hab. apply Hedge. apply Hedge in Hab. unfold edge in *. tauto.
Qed.

End Adjacency.

(** ** [make_pairs] followed by [apply_pairing] *)

Lemma rtc_iff {A} (R R' : relation A) :
  (∀ x y, R x y ↔ R' x y) → ∀ x y, rtc R x y ↔ rtc R' x y.
Proof.
  intros H x y. split; intros Hr.
  - induction Hr as [|x y z Hxy _ IH]; [constructor|].
    eapply rtc_l; [by apply H|done].
  - induction Hr as [|x y z Hxy _ IH]; [constructor|].
    eapply rtc_l; [by apply H|done].
Qed.

Lemma with_particle_same (r : Row.t) : Row.with_particle (Row.particle r) r = r.
Proof. by destruct r. Qed.

(** The table after the identities went through [f]. *)
Definition rewritten (f : Z → Z) (tbl : list Row.t) : list Row.t :=
  (λ r, Row.with_particle (f (Row.particle r)) r) <$> tbl.

Lemma apply_pairing_spec (w : t) (tbl : list Row.t) :
  linked w = Some tbl →
  apply_pairing w
  = Ok (with_linked (Some (rewritten (remap (pair_map_of tbl (pairs w))) tbl)) w).
Proof.
  intros Hl. unfold apply_pairing. rewrite Hl.
  destruct (decide (pairs w = [])) as [Hp|Hp]; [|done].
  rewrite Hp. f_equal.
  assert (pair_map_of tbl [] = ∅) as ->.
  { unfold pair_map_of. by destruct (series_max _). }
  assert (rewritten (remap ∅) tbl = tbl) as ->.
  { unfold rewritten. rewrite <- (list_fmap_id tbl) at 2.
    apply list_fmap_ext. intros _ r _. unfold remap. rewrite lookup_empty.
    simpl. apply with_particle_same. }
  destruct w. simpl in *. by subst.
Qed.

Section Pairing.

Variable within_reach : Row.t → Row.t → bool.

(** The nodes of the graph: the first row of every track among the rows
    of frame [shape[0] - 1]. *)
Definition last_points (tbl : list Row.t) (lm : Np.stack) : list Row.t :=
  drop_duplicates ∅ (rows_of_frame (Np.shape0 lm - 1) tbl).

(** [a] and [b] are the two nodes of a connected component of the graph
    over [pts], and each has exactly one neighbour. *)
Definition isolated_pair (pts : list Row.t) (a b : Z) : Prop :=
  a ≠ b
  ∧ (∀ x, rtc (edge within_reach pts) a x ↔ x = a ∨ x = b)
  ∧ (∃ y, ∀ z, edge within_reach pts a z ↔ z = y)
  ∧ (∃ y, ∀ z, edge within_reach pts b z ↔ z = y).

Lemma isolated_edge adj pts a b :
  (∀ x y, adjacent adj x y ↔ edge within_reach pts x y) →
  isolated adj a b ↔ isolated_pair pts a b.
Proof.
  intros H. unfold isolated, isolated_pair, degree_one, connected.
  split; intros (Hne & Hc & [ya Ha] & [yb Hb]); (split; [done|]); split.
  - intros x. by rewrite <- (rtc_iff _ _ H).
  - split; [exists ya|exists yb]; intros z; by rewrite <- H.
  - intros x. by rewrite (rtc_iff _ _ H).
  - split; [exists ya|exists yb]; intros z; by rewrite H.
Qed.

(** Under a leading time axis [make_pairs] returns, and the dict it
    stores maps every member of an isolated pair of the last frame to
    the other one, and nothing else. *)
Lemma make_pairs_spec (w : t) (tbl : list Row.t) (lm : Np.stack) :
  linked w = Some tbl →
  label_maps w = Some lm →
  head (chars (axes w)) = Some "T"%char →
  ∃ vp, make_pairs within_reach w = Ok (with_pairs vp w)
        ∧ matching vp
        ∧ ∀ x y, (x, y) ∈ vp ↔ isolated_pair (last_points tbl lm) x y.
Proof.
  intros Hl Hlm Hhd. unfold make_pairs, axes0_is_not_T, last_frame_idx.
  rewrite Hl. simpl. rewrite Hlm.
  destruct (chars (axes w)) as [|a0 rest]; [done|].
  simpl in Hhd. injection Hhd as ->. simpl.
  fold (last_points tbl lm).
  destruct (decide (rows_of_frame (Np.shape0 lm - 1) tbl = [])) as [Hempty|_].
  { exists []. split; [done|]. split.
    - split; [constructor|]. by intros x y ?%elem_of_nil.
    - intros x y. split; [by intros ?%elem_of_nil|].
      intros (_ & _ & [ya Ha] & _). exfalso.
      assert (edge within_reach (last_points tbl lm) x ya) as [H|H]
        by (by apply Ha).
      all: destruct H as (i & j & ri & rj & _ & Hi & _).
      all: unfold last_points in Hi; by rewrite Hempty in Hi. }
  destruct (build_adjacency_graph within_reach (last_points tbl lm))
    as (adj & -> & Hkeys & Hedge & Hg).
  { apply drop_duplicates_NoDup. }
  simpl.
  destruct (component_loop_pairs adj (Row.particle <$> last_points tbl lm) Hg Hkeys)
    as (st & -> & Hvp & Hnd).
  simpl. exists st.2. split; [done|]. split.
  - split; [done|]. intros x y Hxy. apply Hvp in Hxy. split.
    + apply Hvp. by apply isolated_sym.
    + by destruct Hxy.
  - intros x y. rewrite Hvp. by apply isolated_edge.
Qed.

Lemma isolated_pair_rows tbl lm a b :
  isolated_pair (last_points tbl lm) a b → a ∈ Row.particle <$> tbl.
Proof.
  intros (_ & _ & [y Hy] & _).
  assert (a ∈ Row.particle <$> last_points tbl lm) as Ha.
  { assert (edge within_reach (last_points tbl lm) a y) as [H|H]
      by (by apply Hy).
    - by apply close_particles in H as (? & _).
    - by apply close_particles in H as (_ & ? & _). }
  unfold last_points in Ha.
  apply drop_duplicates_particles in Ha as [Ha _].
  apply list_elem_of_fmap in Ha as (r & -> & Hr).
  apply list_elem_of_fmap. exists r. split; [done|].
  unfold rows_of_frame in Hr. by apply list_elem_of_filter in Hr as [_ ?].
Qed.

(** Three tracks pairwise within reach: none of them is in an isolated
    pair. *)
Lemma triangle_not_isolated pts a b c y :
  a ≠ b → a ≠ c → b ≠ c →
  edge within_reach pts a b → edge within_reach pts a c →
  ¬ isolated_pair pts a y.
Proof.
  intros Hab Hac Hbc Eab Eac (_ & Hcomp & _).
  assert (b = a ∨ b = y) as [?| ->] by (apply Hcomp; by apply rtc_once); [done|].
  assert (c = a ∨ c = y) as [?|?] by (apply Hcomp; by apply rtc_once); done.
Qed.

(** C4, as the code has it.  Under a leading time axis, [make_pairs]
    followed by [apply_pairing] returns and rewrites the identities of
    the whole table through one function [f] such that:
    - two distinct tracks of the table end with one identity exactly
      when they form a connected component of two nodes, both of degree
      one, in the graph of the last frame (an edge joins two tracks
      whose rows pass the distance test);
    - a track outside such a pair keeps its identity, so three tracks
      pairwise within reach keep theirs;
    - the identity shared by an isolated pair is above every identity
      of the table; the new identities are handed out one after the
      other from the maximum plus one, which is what an only isolated
      pair receives. *)
Theorem pairing_merges_isolated_pairs (w : t) (tbl : list Row.t) (lm : Np.stack) :
  linked w = Some tbl →
  label_maps w = Some lm →
  head (chars (axes w)) = Some "T"%char →
  let pts := last_points tbl lm in
  let ids := Row.particle <$> tbl in
  ∃ w1 w2 (f : Z → Z),
    make_pairs within_reach w = Ok w1
    ∧ apply_pairing w1 = Ok w2
    ∧ linked w2 = Some (rewritten f tbl)
    ∧ (∀ a b, a ∈ ids → b ∈ ids → a ≠ b →
         (f a = f b ↔ isolated_pair pts a b))
    ∧ (∀ a, (∀ b, ¬ isolated_pair pts a b) → f a = a)
    ∧ (∀ a b c, a ≠ b → a ≠ c → b ≠ c →
         edge within_reach pts a b → edge within_reach pts a c →
         edge within_reach pts b c →
         f a = a ∧ f b = b ∧ f c = c)
    ∧ (∀ a b, isolated_pair pts a b →
         f a = f b
         ∧ (∀ x, x ∈ ids → x < f a)
         ∧ ∃ m, series_max ids = Some m ∧ m + 1 <= f a
                ∧ ((∀ c d, isolated_pair pts c d → c = a ∨ c = b) →
                   f a = m + 1))
    ∧ (∀ m, series_max ids = Some m →
         ∃ next, (∀ a b, isolated_pair pts a b → f a < next)
                 ∧ ∀ v, m + 1 <= v < next →
                     ∃ a b, isolated_pair pts a b ∧ f a = v).
Proof.
  intros Hl Hlm Hhd pts ids.
  destruct (make_pairs_spec w tbl lm Hl Hlm Hhd) as (vp & Hmp & Hm & Hvp).
  fold pts in Hvp.
  set (w1 := with_pairs vp w).
  assert (linked w1 = Some tbl) as Hl1 by done.
  pose proof (apply_pairing_spec w1 tbl Hl1) as Hap.
  change (pairs w1) with vp in Hap.
  set (pm := pair_map_of tbl vp) in *.
  exists w1, (with_linked (Some (rewritten (remap pm) tbl)) w1), (remap pm).
  split; [done|]. split; [exact Hap|].
  split; [done|].
  (* the facts on [pair_map], whatever the table *)
  assert (∀ x, pm !! x = None → remap pm x = x) as Hkeep.
  { intros x Hx. unfold remap. by rewrite Hx. }
  assert (∀ a, (∀ b, ¬ isolated_pair pts a b) → pm !! a = None) as Hout.
  { intros a Hno. unfold pm, pair_map_of.
    destruct (series_max (Row.particle <$> tbl)) as [m|]; [|done].
    destruct (pairing_loop_matching vp (m + 1) Hm) as (_ & Hdom & _).
    destruct (_ !! a) as [v|] eqn:Hv; [|done].
    destruct (Hdom a v Hv) as (_ & y & Hy). apply Hvp in Hy.
    by destruct (Hno y). }
  assert (∀ a b, isolated_pair pts a b →
            ∃ m v, series_max ids = Some m ∧ pm !! a = Some v
                   ∧ pm !! b = Some v ∧ m + 1 <= v) as Hin.
  { intros a b Hiso.
    pose proof (isolated_pair_rows tbl lm a b Hiso) as Ha. fold ids in Ha.
    unfold pm, pair_map_of. fold ids.
    destruct (series_max ids) as [m|] eqn:Hmax.
    2:{ destruct ids; [by apply elem_of_nil in Ha|done]. }
    destruct (pairing_loop_matching vp (m + 1) Hm) as (Hpairs & _).
    destruct (Hpairs a b) as (v & ? & ? & ?); [by apply Hvp|].
    exists m, v. done. }
  split; [|split; [|split; [|split]]].
  - intros a b Ha Hb Hne. split.
    + intros Hf. unfold remap in Hf.
      destruct (series_max ids) as [m|] eqn:Hmax.
      2:{ destruct ids; [by apply elem_of_nil in Ha|done]. }
      pose proof (series_max_upper ids m Hmax) as Hup.
      assert (pm = (pairing_loop vp (∅, m + 1)).1) as Hpm.
      { unfold pm, pair_map_of. fold ids. by rewrite Hmax. }
      destruct (pairing_loop_matching vp (m + 1) Hm) as (_ & Hdom & Hinj & _).
      rewrite <- Hpm in Hdom, Hinj.
      destruct (pm !! a) as [va|] eqn:Hva, (pm !! b) as [vb|] eqn:Hvb;
        simpl in Hf.
      * subst vb. destruct (Hinj a b va Hva Hvb) as [?|Hab]; [done|].
        by apply Hvp.
      * destruct (Hdom a va Hva) as [? _]. specialize (Hup b Hb). lia.
      * destruct (Hdom b vb Hvb) as [? _]. specialize (Hup a Ha). lia.
      * done.
    + intros Hiso. destruct (Hin a b Hiso) as (m & v & _ & Hva & Hvb & _).
      unfold remap. by rewrite Hva, Hvb.
  - intros a Hno. apply Hkeep. by apply Hout.
  - intros a b c Hab Hac Hbc Eab Eac Ebc.
    assert (∀ x y, edge within_reach pts x y → edge within_reach pts y x) as Hsym.
    { intros x y. unfold edge. tauto. }
    split; [|split]; apply Hkeep, Hout; intros y.
    + by apply (triangle_not_isolated pts a b c).
    + apply (triangle_not_isolated pts b a c); auto.
    + apply (triangle_not_isolated pts c a b); auto.
  - intros a b Hiso. destruct (Hin a b Hiso) as (m & v & Hmax & Hva & Hvb & Hv).
    unfold remap. rewrite Hva, Hvb. simpl. split; [done|]. split.
    + intros x Hx. pose proof (series_max_upper ids m Hmax x Hx). lia.
    + exists m. split; [done|]. split; [done|]. intros Honly.
      assert (pm = (pairing_loop vp (∅, m + 1)).1) as Hpm.
      { unfold pm, pair_map_of. fold ids. by rewrite Hmax. }
      destruct (pairing_loop_matching vp (m + 1) Hm) as (_ & _ & _ & Hfirst & _).
      rewrite <- Hpm in Hfirst.
      destruct vp as [|[x y] rest] eqn:Hvp_eq.
      { exfalso. apply Hvp in Hiso. by apply elem_of_nil in Hiso. }
      specialize (Hfirst x y rest eq_refl).
      assert (isolated_pair pts x y) as Hxy by (apply Hvp; left).
      destruct (Honly x y Hxy) as [-> | ->]; congruence.
  - intros m Hmax.
    assert (pm = (pairing_loop vp (∅, m + 1)).1) as Hpm.
    { unfold pm, pair_map_of. fold ids. by rewrite Hmax. }
    destruct (pairing_loop_matching vp (m + 1) Hm)
      as (_ & Hdom & _ & _ & Hbelow & Hfull).
    rewrite <- Hpm in Hdom, Hbelow, Hfull.
    exists (pairing_loop vp (∅, m + 1)).2. split.
    + intros a b Hiso. destruct (Hin a b Hiso) as (m' & v & _ & Hva & _).
      unfold remap. rewrite Hva. simpl. by eapply Hbelow.
    + intros v Hv. destruct (Hfull v Hv) as [x Hx].
      destruct (Hdom x v Hx) as (_ & y & Hy).
      exists x, y. split; [by apply Hvp|]. unfold remap. by rewrite Hx.
Qed.

End Pairing.

(** ** A table with two isolated pairs *)

(** The distance test in exact arithmetic: for a positive sum [s] of the
    diameters, [hypot(dx, dy) < 1.5 * s] is [dx² + dy² < 9/4 s²]; for
    other sums it fails. *)
Definition within_reach_exact (a b : Row.t) : bool :=
  let dx := (Row.x a - Row.x b)%Q in
  let dy := (Row.y a - Row.y b)%Q in
  let s := (Row.diameter a + Row.diameter b)%Q in
  if Qle_bool s 0 then false
  else negb (Qle_bool ((9 # 4) * s * s) (dx * dx + dy * dy))%Q.

(** A detection of diameter 1 on the line [y = 0]. *)
Definition spot (frame track : Z) (x : Q) : Row.t :=
  {| Row.frame := frame; Row.x := x; Row.y := 0; Row.size := 1;
     Row.orig_label := track; Row.diameter := 1; Row.particle := track |}.

(** Seven tracks in the last frame (index 1): 1 and 2 side by side, 3, 4
    and 5 in a chain, 6 and 7 side by side. *)
Definition seven_tracks : list Row.t :=
  [spot 0 1 0; spot 1 1 0; spot 1 2 1; spot 1 3 100; spot 1 4 102;
   spot 1 5 104; spot 1 6 200; spot 1 7 201].

Definition two_frames : Np.stack :=
  {| Np.frame_shape := [2; 2]%nat; Np.frames := [[1; 0; 0; 2]; [1; 0; 0; 2]] |}.

Definition seven_tracks_worker : t :=
  with_linked (Some seven_tracks) (with_label_maps (Some two_frames) init).

Lemma seven_tracks_pairs :
  make_pairs within_reach_exact seven_tracks_worker
  = Ok (with_pairs [(2, 1); (1, 2); (7, 6); (6, 7)] seven_tracks_worker).
Proof. by vm_compute. Defined.

(** C4 as stated fails on the identity: the tracks 6 and 7 form an
    isolated pair, the largest identity of the table is 7, and the pair
    receives 9, the pair of 1 and 2 having taken 8. *)
Lemma later_pair_gets_later_identity :
  isolated_pair within_reach_exact (last_points seven_tracks two_frames) 6 7
  ∧ series_max (Row.particle <$> seven_tracks) = Some 7
  ∧ ∃ w1 w2,
      make_pairs within_reach_exact seven_tracks_worker = Ok w1
      ∧ apply_pairing w1 = Ok w2
      ∧ option_map (map Row.particle) (linked w2) = Some [8; 8; 8; 3; 4; 5; 9; 9]
      ∧ 9 ≠ 7 + 1.
Proof.
  split; [|split; [done|]].
  - destruct (make_pairs_spec within_reach_exact seven_tracks_worker
                seven_tracks two_frames eq_refl eq_refl eq_refl)
      as (vp & Hmp & _ & Hvp).
    apply Hvp.
    rewrite seven_tracks_pairs in Hmp. injection Hmp as <-.
    do 3 right. left.
  - eexists _, _. split; [by vm_compute|]. split; [by vm_compute|].
    split; [by vm_compute|]. lia.
Qed.

(** On the seven tracks: 1 and 2 end with one identity, and the chain of 3,
    4 and 5 keeps its three identities. *)
Lemma pairing_merges_isolated_pairs_witness :
  ∃ w1 w2 f,
    make_pairs within_reach_exact seven_tracks_worker = Ok w1
    ∧ apply_pairing w1 = Ok w2
    ∧ linked w2 = Some (rewritten f seven_tracks)
    ∧ f 1 = f 2 ∧ f 3 ≠ f 4.
Proof.
  destruct (pairing_merges_isolated_pairs within_reach_exact seven_tracks_worker
              seven_tracks two_frames eq_refl eq_refl eq_refl)
    as (w1 & w2 & f & H1 & H2 & H3 & Hiff & _).
  destruct (make_pairs_spec within_reach_exact seven_tracks_worker
              seven_tracks two_frames eq_refl eq_refl eq_refl)
    as (vp & Hmp & _ & Hvp).
  rewrite seven_tracks_pairs in Hmp. injection Hmp as <-.
  assert (∀ a b, a ∈ Row.particle <$> seven_tracks → b ∈ Row.particle <$> seven_tracks →
                 a ≠ b → f a = f b ↔ (a, b) ∈ [(2, 1); (1, 2); (7, 6); (6, 7)])
    as Hmerged.
  { intros a b Ha Hb Hab. rewrite (Hiff a b Ha Hb Hab). symmetry. apply Hvp. }
  exists w1, w2, f. split; [exact H1|]. split; [exact H2|]. split; [exact H3|].
  split.
  - apply Hmerged.
    + apply list_elem_of_lookup_2 with 0%nat. reflexivity.
    + apply list_elem_of_lookup_2 with 2%nat. reflexivity.
    + discriminate.
    + right. left.
  - intros Heq. apply Hmerged in Heq.
    + repeat (apply elem_of_cons in Heq as [Heq|Heq]; [discriminate Heq|]).
      by apply elem_of_nil in Heq.
    + apply list_elem_of_lookup_2 with 3%nat. reflexivity.
    + apply list_elem_of_lookup_2 with 4%nat. reflexivity.
    + discriminate.
Defined.

End PairingFacts.

(* ================================================================== *)
(** * Ring and inner masks *)
(* ================================================================== *)

Module OutlineFacts.
Import Ndimage MeasureMembraneIntensity.
Local Close Scope string_scope.

(** ** Erosion shrinks *)

Lemma erode1_length shape m : List.length (erode1 shape m) = List.length m.
Proof. unfold erode1. apply length_imap. Qed.

Lemma erode1_cell shape m i : cell (erode1 shape m) i = true → cell m i = true.
Proof.
  unfold cell, erode1. rewrite list_lookup_imap.
  destruct (m !! i) as [b|]; simpl; [|done].
  by intros [? _]%andb_true_iff.
Qed.

Lemma iter_erode1_length shape k m :
  List.length (Nat.iter k (erode1 shape) m) = List.length m.
Proof. induction k as [|k IH]; [done|]. simpl. by rewrite erode1_length. Qed.

Lemma iter_erode1_cell shape k m i :
  cell (Nat.iter k (erode1 shape) m) i = true → cell m i = true.
Proof.
  induction k as [|k IH]; [done|]. simpl. intros H. by apply erode1_cell, IH in H.
Qed.

Lemma erode_stable_length fuel shape m :
  List.length (erode_stable fuel shape m) = List.length m.
Proof.
  revert m. induction fuel as [|fuel IH]; intros m; [done|]. simpl.
  destruct (decide _); [done|]. by rewrite IH, erode1_length.
Qed.

Lemma erode_stable_cell fuel shape m i :
  cell (erode_stable fuel shape m) i = true → cell m i = true.
Proof.
  revert m. induction fuel as [|fuel IH]; intros m; [done|]. simpl.
  destruct (decide _); [done|]. intros H. by apply IH, erode1_cell in H.
Qed.

Lemma binary_erosion_length shape input k :
  List.length (binary_erosion shape input k) = List.length input.
Proof.
  unfold binary_erosion. destruct (k <? 1).
  - by rewrite erode_stable_length, length_fmap.
  - by rewrite iter_erode1_length, length_fmap.
Qed.

(** A cell that survives the erosion was set. *)
Lemma binary_erosion_cell shape input k i :
  cell (binary_erosion shape input k) i = true →
  ∃ v, input !! i = Some v ∧ v ≠ 0.
Proof.
  unfold binary_erosion. intros H.
  assert (cell ((λ v, negb (v =? 0)) <$> input) i = true) as Hc.
  { destruct (k <? 1); [by eapply erode_stable_cell|by eapply iter_erode1_cell]. }
  unfold cell in Hc. rewrite list_lookup_fmap in Hc.
  destruct (input !! i) as [v|]; [|done]. exists v. split; [done|].
  simpl in Hc. intros ->. done.
Qed.

(** ** One frame, cell by cell *)

(** The mask of the label [l] in the frame [lab] and its erosion, as
    [labels_to_outlines] computes them. *)
Definition mask_of (lab : list Z) (l : Z) : list Z :=
  (fun v => if decide (v = l) then 1 else 0) <$> lab.
Definition eroded_of (shape : list nat) (thickness : Z) (lab : list Z) (l : Z)
    : list bool :=
  binary_erosion shape (mask_of lab l) thickness.

Lemma eroded_of_cell shape thickness lab l i :
  cell (eroded_of shape thickness lab l) i = true → lab !! i = Some l.
Proof.
  intros H. apply binary_erosion_cell in H as (v & Hv & Hne).
  unfold mask_of in Hv. rewrite list_lookup_fmap in Hv.
  destruct (lab !! i) as [x|]; [|done]. simpl in Hv.
  destruct (decide (x = l)) as [->|]; [done|]. by injection Hv as <-.
Qed.

Lemma outline_label_spec shape thickness lab bufs v :
  List.length bufs.1 = List.length lab → List.length bufs.2 = List.length lab →
  let bufs' := outline_label shape thickness lab bufs v in
  List.length bufs'.1 = List.length lab ∧ List.length bufs'.2 = List.length lab
  ∧ ∀ i l r0 n0, lab !! i = Some l → bufs.1 !! i = Some r0 → bufs.2 !! i = Some n0 →
      let e := cell (eroded_of shape thickness lab l) i in
      bufs'.1 !! i = Some (if decide (l = v ∧ l ≠ 0)
                           then Z.lor r0 (if e then 0 else l) else r0)
      ∧ bufs'.2 !! i = Some (if decide (l = v ∧ l ≠ 0)
                             then Z.lor n0 (if e then l else 0) else n0).
Proof.
  intros Hl1 Hl2. unfold outline_label. destruct (Z.eqb_spec v 0) as [->|Hv].
  { split; [done|]. split; [done|]. intros i l r0 n0 Hi Hr Hn.
    rewrite !decide_False by (intros [-> ?]; done). done. }
  fold (mask_of lab v). fold (eroded_of shape thickness lab v). simpl.
  assert (List.length (eroded_of shape thickness lab v) = List.length lab) as Hle.
  { unfold eroded_of. rewrite binary_erosion_length. unfold mask_of.
    by rewrite length_fmap. }
  assert (List.length (mask_of lab v) = List.length lab) as Hlm
    by (unfold mask_of; by rewrite length_fmap).
  split; [|split].
  - rewrite !length_zip_with. lia.
  - rewrite length_zip_with, length_fmap. lia.
  - intros i l r0 n0 Hi Hr Hn.
    pose proof (lookup_lt_Some _ _ _ Hi) as Hlt.
    destruct (lookup_lt_is_Some_2 (eroded_of shape thickness lab v) i) as [e He];
      [lia|].
    assert (mask_of lab v !! i = Some (if decide (l = v) then 1 else 0)) as Hm.
    { unfold mask_of. by rewrite list_lookup_fmap, Hi. }
    rewrite !lookup_zip_with, Hr, Hn, Hm, list_lookup_fmap, He. simpl.
    destruct (decide (l = v)) as [->|Hne].
    + rewrite !decide_True by done. unfold cell. rewrite He. simpl.
      destruct e; simpl;
        [change ((1 - 1) `mod` 256) with 0|change ((1 - 0) `mod` 256) with 1];
        (split; f_equal; f_equal; lia).
    + rewrite !decide_False by tauto.
      assert (e = false) as ->.
      { destruct e; [|done]. exfalso. apply Hne.
        assert (lab !! i = Some v) as Hv'.
        { apply (eroded_of_cell shape thickness). unfold cell. by rewrite He. }
        congruence. }
      simpl. rewrite !Z.lor_0_r. done.
Qed.

Lemma outline_fold_spec shape thickness lab vs bufs :
  NoDup vs →
  List.length bufs.1 = List.length lab → List.length bufs.2 = List.length lab →
  let bufs' := foldl (outline_label shape thickness lab) bufs vs in
  List.length bufs'.1 = List.length lab ∧ List.length bufs'.2 = List.length lab
  ∧ ∀ i l r0 n0, lab !! i = Some l → bufs.1 !! i = Some r0 → bufs.2 !! i = Some n0 →
      let e := cell (eroded_of shape thickness lab l) i in
      bufs'.1 !! i = Some (if decide (l ∈ vs ∧ l ≠ 0)
                           then Z.lor r0 (if e then 0 else l) else r0)
      ∧ bufs'.2 !! i = Some (if decide (l ∈ vs ∧ l ≠ 0)
                             then Z.lor n0 (if e then l else 0) else n0).
Proof.
  revert bufs. induction vs as [|v vs IH]; intros bufs Hnd Hl1 Hl2.
  - cbn [foldl]. split; [done|]. split; [done|]. intros i l r0 n0 _ Hr Hn.
    rewrite !decide_False by (intros [?%elem_of_nil _]; done). done.
  - apply NoDup_cons in Hnd as [Hv Hnd]. cbn [foldl].
    destruct (outline_label_spec shape thickness lab bufs v Hl1 Hl2)
      as (Hl1' & Hl2' & Hstep).
    destruct (IH (outline_label shape thickness lab bufs v) Hnd Hl1' Hl2')
      as (Hl1'' & Hl2'' & Hrest).
    split; [done|]. split; [done|]. intros i l r0 n0 Hi Hr Hn.
    destruct (Hstep i l r0 n0 Hi Hr Hn) as [Hr' Hn'].
    destruct (Hrest i l _ _ Hi Hr' Hn') as [-> ->].
    destruct (decide (l = v ∧ l ≠ 0)) as [[-> Hnz]|Hnot].
    + rewrite !(decide_False (P := v ∈ vs ∧ v ≠ 0)) by tauto.
      rewrite !decide_True by (split; [left|done]). done.
    + destruct (decide (l ∈ vs ∧ l ≠ 0)) as [[Hin Hnz]|Hnot'].
      * rewrite !decide_True by (split; [by right|done]). done.
      * rewrite !decide_False; [done|..];
          intros [[->|?]%elem_of_cons ?]; tauto.
Qed.

(** The two buffers of one frame: a cell holds its label in the ring
    buffer when the erosion of the label's mask dropped it, in the inner
    buffer when the erosion kept it, and 0 in the other one; background
    cells hold 0 in both. *)
Lemma outline_frame_spec shape thickness lab :
  let bufs := outline_frame shape thickness lab in
  List.length bufs.1 = List.length lab ∧ List.length bufs.2 = List.length lab
  ∧ ∀ i l, lab !! i = Some l →
      let e := cell (eroded_of shape thickness lab l) i in
      bufs.1 !! i = Some (if decide (l ≠ 0) then (if e then 0 else l) else 0)
      ∧ bufs.2 !! i = Some (if decide (l ≠ 0) then (if e then l else 0) else 0).
Proof.
  unfold outline_frame.
  destruct (outline_fold_spec shape thickness lab (Np.unique lab)
              (Np.zeros_like lab, Np.zeros_like lab))
    as (Hl1 & Hl2 & Hcells).
  { apply RelabelFacts.unique_NoDup. }
  { unfold Np.zeros_like. simpl. by rewrite length_fmap. }
  { unfold Np.zeros_like. simpl. by rewrite length_fmap. }
  split; [done|]. split; [done|]. intros i l Hi.
  assert (Np.zeros_like lab !! i = Some 0) as Hz.
  { unfold Np.zeros_like. by rewrite list_lookup_fmap, Hi. }
  destruct (Hcells i l 0 0 Hi Hz Hz) as [-> ->].
  assert (l ∈ Np.unique lab) as Hin.
  { apply RelabelFacts.unique_elem_of. by eapply list_elem_of_lookup_2. }
  destruct (decide (l ≠ 0)) as [Hnz|Hz'].
  - rewrite !decide_True by done. rewrite !Z.lor_0_l. done.
  - rewrite !decide_False by tauto. done.
Qed.

(** ** Footprints *)

(** Number of cells of [f] that hold [l]. *)
Definition count (l : Z) (f : list Z) : nat :=
  List.length (filter (fun v => v = l) f).

Lemma count_cons l v f :
  count l (v :: f) = ((if decide (v = l) then 1 else 0) + count l f)%nat.
Proof. unfold count. rewrite filter_cons. by destruct (decide (v = l)). Qed.

(** Cell by cell, [l] sits in exactly one of [r] and [n] where it sits in
    [lab], and in none of them elsewhere: the counts add up. *)
Lemma count_split l (lab r n : list Z) :
  List.length r = List.length lab → List.length n = List.length lab →
  (∀ i x a b, lab !! i = Some x → r !! i = Some a → n !! i = Some b →
     (x = l ∧ (a = l ∧ b ≠ l ∨ a ≠ l ∧ b = l)) ∨ (x ≠ l ∧ a ≠ l ∧ b ≠ l)) →
  (count l r + count l n = count l lab)%nat.
Proof.
  revert r n. induction lab as [|x lab IH]; intros r n Hr Hn Hcells.
  - destruct r, n; done.
  - destruct r as [|a r]; [done|]. destruct n as [|b n]; [done|].
    rewrite !count_cons.
    specialize (IH r n ltac:(simpl in Hr; lia) ltac:(simpl in Hn; lia)).
    rewrite <- IH.
    2:{ intros i x' a' b' Hx Ha Hb. by apply (Hcells (S i)). }
    destruct (Hcells 0%nat x a b eq_refl eq_refl eq_refl)
      as [[-> [[-> ?]|[? ->]]]|(? & ? & ?)].
    + rewrite !decide_True by done. rewrite decide_False by done. lia.
    + rewrite decide_False by done. rewrite !decide_True by done. lia.
    + rewrite !decide_False by done. lia.
Qed.

Section Frames.

Context {float : Type}.

(** C6: for every frame and every nonzero label, the cells that hold the
    label in the ring buffer and those that hold it in the inner buffer
    returned by [labels_to_outlines] are disjoint, together they are
    the cells that hold the label in the label map, and the two counts
    add up to the count of the label in the label map.  (The erosion
    never grows a mask, so this needs no assumption on the label.) *)
Theorem ring_inner_partition (w : t float) (lm : Np.stack) :
  label_maps float w = Some lm →
  ∃ rings inner,
    labels_to_outlines float w = Ok (rings, inner)
    ∧ ∀ t lab, Np.frames lm !! t = Some lab →
        ∃ r n, Np.frames rings !! t = Some r ∧ Np.frames inner !! t = Some n
               ∧ List.length r = List.length lab
               ∧ List.length n = List.length lab
               ∧ ∀ l, l ≠ 0 →
                   (∀ i, ¬ (r !! i = Some l ∧ n !! i = Some l))
                   ∧ (∀ i, lab !! i = Some l
                           ↔ r !! i = Some l ∨ n !! i = Some l)
                   ∧ (count l r + count l n = count l lab)%nat.
Proof.
  intros Hlm. unfold labels_to_outlines. rewrite Hlm.
  eexists _, _. split; [done|]. simpl. intros t lab Hlab.
  rewrite !list_lookup_fmap, Hlab. simpl.
  destruct (outline_frame_spec (Np.frame_shape lm) (membrane_thickness float w) lab)
    as (Hl1 & Hl2 & Hcells).
  eexists _, _. split; [done|]. split; [done|]. split; [done|].
  split; [done|]. intros l Hl.
  set (r := (outline_frame (Np.frame_shape lm) (membrane_thickness float w) lab).1)
    in *.
  set (n := (outline_frame (Np.frame_shape lm) (membrane_thickness float w) lab).2)
    in *.
  assert (∀ i x a b, lab !! i = Some x → r !! i = Some a → n !! i = Some b →
            (x = l ∧ (a = l ∧ b ≠ l ∨ a ≠ l ∧ b = l))
            ∨ (x ≠ l ∧ a ≠ l ∧ b ≠ l)) as Hpoint.
  { intros i x a b Hx Ha Hb. destruct (Hcells i x Hx) as [Ha' Hb'].
    rewrite Ha in Ha'. rewrite Hb in Hb'.
    injection Ha' as ->. injection Hb' as ->.
    destruct (decide (x = l)) as [->|Hne].
    - left. split; [done|]. rewrite !decide_True by done.
      destruct (cell _ i); [right|left]; done.
    - right. split; [done|]. destruct (decide (x ≠ 0)); [|done].
      destruct (cell _ i); done. }
  assert (∀ i, is_Some (lab !! i) ↔ is_Some (r !! i)) as Hdr.
  { intros i. rewrite !lookup_lt_is_Some. lia. }
  assert (∀ i, is_Some (lab !! i) ↔ is_Some (n !! i)) as Hdn.
  { intros i. rewrite !lookup_lt_is_Some. lia. }
  split; [|split].
  - intros i [Hr Hn].
    destruct (proj2 (Hdr i) (mk_is_Some _ _ Hr)) as [x Hx].
    destruct (Hpoint i x l l Hx Hr Hn) as [[_ [[_ ?]|[? _]]]|(_ & ? & _)]; done.
  - intros i. split.
    + intros Hx.
      destruct (proj1 (Hdr i) (mk_is_Some _ _ Hx)) as [a Ha].
      destruct (proj1 (Hdn i) (mk_is_Some _ _ Hx)) as [b Hb].
      destruct (Hpoint i l a b Hx Ha Hb) as [[_ [[-> _]|[_ ->]]]|(? & _)];
        [by left|by right|done].
    + intros [Hr|Hn].
      * destruct (proj2 (Hdr i) (mk_is_Some _ _ Hr)) as [x Hx].
        destruct (proj1 (Hdn i) (mk_is_Some _ _ Hx)) as [b Hb].
        destruct (Hpoint i x l b Hx Hr Hb) as [[-> _]|(_ & ? & _)]; done.
      * destruct (proj2 (Hdn i) (mk_is_Some _ _ Hn)) as [x Hx].
        destruct (proj1 (Hdr i) (mk_is_Some _ _ Hx)) as [a Ha].
        destruct (Hpoint i x a l Hx Ha Hn) as [[-> _]|(_ & _ & ?)]; done.
  - by apply count_split.
Qed.

End Frames.

(** The disk of radius 2 with a membrane one cell thick: 8 ring cells and 5
    inner cells for the 13 cells of the label. *)
Lemma ring_inner_partition_witness :
  ∃ rings inner r n,
    labels_to_outlines Q Exact.disk_worker = Ok (rings, inner)
    ∧ Np.frames rings !! 0%nat = Some r ∧ Np.frames inner !! 0%nat = Some n
    ∧ (count 3 r + count 3 n = 13)%nat.
Proof.
  destruct (ring_inner_partition Exact.disk_worker Exact.disk eq_refl)
    as (rings & inner & Hrun & Hframes).
  destruct (Hframes 0%nat _ eq_refl) as (r & n & Hr & Hn & _ & _ & Hl).
  destruct (Hl 3 ltac:(discriminate)) as (_ & _ & Hcount).
  exists rings, inner, r, n. split; [exact Hrun|]. split; [exact Hr|].
  split; [exact Hn|exact Hcount].
Defined.

End OutlineFacts.

(* ================================================================== *)
(** * Outlier masking *)
(* ================================================================== *)

Module OutlierFacts.
Import MeasureMembraneIntensity.
Local Close Scope string_scope.

Lemma getitem_frame {A} (l : list A) (i : nat) (x : A) :
  l !! i = Some x → Np.getitem l (Z.of_nat i) = Ok x.
Proof. intros H. by destruct (RelabelFacts.getitem_nat l i x H). Qed.

Section Float64.

Variable float : Type.
Variable np_mean np_std : list Z → float.
Variable fadd fmul : float → float → float.
Variable lt_float : Z → float → bool.

(** The comparison [v >= x] of numpy and the test for NaN: against a
    number the two comparisons are complementary, against NaN every
    comparison is false. *)
Variable ge_float : Z → float → bool.
Variable is_nan : float → bool.
Hypothesis lt_ge : ∀ v x, is_nan x = false → lt_float v x = negb (ge_float v x).
Hypothesis lt_nan : ∀ v x, is_nan x = true → lt_float v x = false.
Variable acc : Np.accumulator.

Abbreviation worker := (t float).
Abbreviation too_bright := (too_bright float np_mean np_std fadd fmul).
Abbreviation remove_outlier_intensities :=
  (remove_outlier_intensities float np_mean np_std fadd fmul lt_float).
Abbreviation masked_buffers :=
  (masked_buffers float np_mean np_std fadd fmul lt_float).
Abbreviation run := (run float np_mean np_std fadd fmul lt_float acc).

(** The stacks of a worker ready for [run]: both bound, of one shape,
    with non-negative labels. *)
Record ready (w : worker) (lm ic : Np.stack) : Prop := {
  ready_labels : label_maps float w = Some lm;
  ready_channel : intensity_channel float w = Some ic;
  ready_shape : Np.frame_shape lm = Np.frame_shape ic;
  ready_frames : List.length (Np.frames lm) = List.length (Np.frames ic);
  ready_cells : ∀ t lab int, Np.frames lm !! t = Some lab →
                  Np.frames ic !! t = Some int →
                  List.length lab = List.length int;
  ready_nonneg : ∀ t lab l, Np.frames lm !! t = Some lab → l ∈ lab → 0 <= l
}.

(** The mask of one frame, as [remove_outlier_intensities] fills it. *)
Definition kept (w : worker) (lab int : list Z) : list bool :=
  (fun v => lt_float v (too_bright w lab int)) <$> int.

Lemma outlier_loop_spec (w : worker) (lm ic : Np.stack) (t0 : nat)
    (todo : list (list Z)) :
  label_maps float w = Some lm →
  Np.frame_shape lm = Np.frame_shape ic →
  (∀ k int, todo !! k = Some int → is_Some (Np.frames lm !! (t0 + k)%nat)) →
  ∃ masks, outlier_loop float np_mean np_std fadd fmul lt_float w ic t0 todo
           = Ok masks
           ∧ List.length masks = List.length todo
           ∧ ∀ k int lab, todo !! k = Some int →
               Np.frames lm !! (t0 + k)%nat = Some lab →
               masks !! k = Some (kept w lab int).
Proof.
  intros Hlm Hshape. revert t0.
  induction todo as [|int todo IH]; intros t0 Hframes.
  - exists []. split; [done|]. split; [done|]. by intros k.
  - destruct (Hframes 0%nat int eq_refl) as [lab Hlab].
    rewrite Nat.add_0_r in Hlab.
    destruct (IH (S t0)) as (masks & Hloop & Hlen & Hmasks).
    { intros k int' Hk. specialize (Hframes (S k) int' Hk).
      by rewrite Nat.add_succ_r in Hframes. }
    exists (kept w lab int :: masks).
    cbn [outlier_loop]. unfold outlier_frame. rewrite Hlm.
    rewrite (getitem_frame _ _ _ Hlab). simpl.
    rewrite decide_True by done. simpl. rewrite Hloop. simpl.
    split; [done|]. split; [by rewrite Hlen|].
    intros [|k] int' lab' Hk Hlab'.
    + rewrite Nat.add_0_r in Hlab'. simpl in Hk. by simplify_eq.
    + simpl in Hk. rewrite Nat.add_succ_r in Hlab'. simpl.
      by apply (Hmasks k int').
Qed.

Lemma select_ext (c1 c2 : Z → bool) (b a : list Z) :
  (∀ x, x ∈ b → c1 x = c2 x) → Np.select c1 b a = Np.select c2 b a.
Proof.
  unfold Np.select. revert a. induction b as [|x b IH]; intros a H; [done|].
  destruct a as [|y a]; [done|]. simpl. rewrite !filter_cons. simpl.
  rewrite (H x) by left.
  destruct (decide (c2 x = true)); simpl; rewrite IH; try done.
  all: intros z Hz; apply H; by right.
Qed.

Lemma remove_outlier_spec (w : worker) (lm ic : Np.stack) :
  ready w lm ic →
  ∃ discard, remove_outlier_intensities w = Ok discard
             ∧ List.length discard = List.length (Np.frames ic)
             ∧ ∀ t lab int, Np.frames lm !! t = Some lab →
                 Np.frames ic !! t = Some int →
                 discard !! t = Some (kept w lab int).
Proof.
  intros [Hlm Hic Hshape Hframes _ _].
  unfold MeasureMembraneIntensity.remove_outlier_intensities. rewrite Hic.
  destruct (outlier_loop_spec w lm ic 0 (Np.frames ic) Hlm Hshape)
    as (masks & Hloop & Hlen & Hmasks).
  { intros k int Hk. apply lookup_lt_is_Some. simpl.
    apply lookup_lt_Some in Hk. lia. }
  exists masks. split; [done|]. split; [done|].
  intros t lab int Hlab Hint. by apply (Hmasks t int lab).
Qed.

(** The ring and inner buffers of one frame after the product with the
    mask of the frame. *)
Definition masked (w : worker) (shape : list nat) (lab int : list Z)
    : list Z * list Z :=
  let bufs := outline_frame shape (membrane_thickness float w) lab in
  let discard := kept w lab int in
  (zip_with (fun v b => v * Z.b2z b) bufs.1 discard,
   zip_with (fun v b => v * Z.b2z b) bufs.2 discard).

Lemma zip_with_frames {A B C} (f : A → B → C)
    (l : list A) (k : list B) (t : nat) (a : A) (b : B) :
  l !! t = Some a → k !! t = Some b → zip_with f l k !! t = Some (f a b).
Proof. intros Ha Hb. by rewrite lookup_zip_with, Ha, Hb. Qed.

Lemma masked_buffers_spec (w : worker) (lm ic : Np.stack) :
  ready w lm ic →
  ∃ rings inner,
    masked_buffers w = Ok (rings, inner)
    ∧ Np.frame_shape rings = Np.frame_shape lm
    ∧ Np.frame_shape inner = Np.frame_shape lm
    ∧ List.length (Np.frames rings) = List.length (Np.frames lm)
    ∧ List.length (Np.frames inner) = List.length (Np.frames lm)
    ∧ ∀ t lab int, Np.frames lm !! t = Some lab →
        Np.frames ic !! t = Some int →
        Np.frames rings !! t = Some (masked w (Np.frame_shape lm) lab int).1
        ∧ Np.frames inner !! t = Some (masked w (Np.frame_shape lm) lab int).2.
Proof.
  intros Hready.
  destruct (remove_outlier_spec w lm ic Hready) as (discard & Hd & Hdl & Hdt).
  destruct Hready as [Hlm Hic Hshape Hframes _ _].
  unfold MeasureMembraneIntensity.masked_buffers. rewrite Hlm, Hic, Hd. simpl.
  unfold labels_to_outlines. rewrite Hlm. simpl.
  unfold apply_mask. simpl. rewrite !length_fmap.
  rewrite !decide_True by (split; congruence). simpl.
  eexists _, _. split; [done|]. simpl.
  rewrite !length_zip_with, !length_fmap.
  do 2 (split; [done|]). do 2 (split; [lia|]).
  intros t lab int Hlab Hint. unfold masked.
  split; apply zip_with_frames; try done.
  all: try (rewrite !list_lookup_fmap, Hlab; done).
  all: by apply Hdt.
Qed.

(** C7, as the code has it.  On a worker whose two stacks are bound
    with one shape, [run] stores ring and inner buffers in which, frame by
    frame, the limit [mean + factor * stddev] is taken from the
    intensities of the same frame under a nonzero label.  In a frame
    whose limit is a number, a cell is marked, and zeroed in both
    buffers, exactly when its intensity is at least the limit, and the
    cells below the limit hold what [labels_to_outlines] put there.  In a
    frame whose limit is NaN, as numpy returns for a frame without
    labelled cell, every cell is marked and zeroed.  Every stored frame is
    a function of the label frame and the intensity frame of the same
    index alone. *)
Theorem outliers_masked_per_frame (w : worker) (lm ic : Np.stack) (σ : IO.world) :
  ready w lm ic →
  ∃ discard outlines inner0 rings' inner',
    remove_outlier_intensities w = Ok discard
    ∧ labels_to_outlines float w = Ok (outlines, inner0)
    ∧ rings float (run w σ).1.2 = Some rings'
    ∧ inner float (run w σ).1.2 = Some inner'
    ∧ ∀ t lab int, Np.frames lm !! t = Some lab →
        Np.frames ic !! t = Some int →
        let values := Np.select (fun l => negb (l =? 0)) lab int in
        let limit := fadd (np_mean values) (fmul (factor float w) (np_std values)) in
        Np.frames rings' !! t = Some (masked w (Np.frame_shape lm) lab int).1
        ∧ Np.frames inner' !! t = Some (masked w (Np.frame_shape lm) lab int).2
        ∧ ∃ m o n o' n',
            discard !! t = Some m
            ∧ Np.frames outlines !! t = Some o
            ∧ Np.frames inner0 !! t = Some n
            ∧ Np.frames rings' !! t = Some o'
            ∧ Np.frames inner' !! t = Some n'
            ∧ ∀ i v, int !! i = Some v →
                (is_nan limit = false →
                   (m !! i = Some false ↔ ge_float v limit = true)
                   ∧ (ge_float v limit = true →
                      o' !! i = Some 0 ∧ n' !! i = Some 0)
                   ∧ (ge_float v limit = false →
                      o' !! i = o !! i ∧ n' !! i = n !! i))
                ∧ (is_nan limit = true →
                   m !! i = Some false
                   ∧ o' !! i = Some 0 ∧ n' !! i = Some 0).
Proof.
  intros Hready.
  destruct (remove_outlier_spec w lm ic Hready) as (discard & Hd & Hdl & Hdt).
  destruct (masked_buffers_spec w lm ic Hready)
    as (R & N & Hmb & _ & _ & _ & _ & Hframes).
  pose proof Hready as [Hlm Hic Hshape Hlen Hcells Hnonneg].
  exists discard. eexists _, _. exists R, N.
  split; [done|]. split; [unfold labels_to_outlines; by rewrite Hlm|].
  assert (rings float (run w σ).1.2 = Some R
          ∧ inner float (run w σ).1.2 = Some N) as [HR HN].
  { unfold MeasureMembraneIntensity.run. rewrite Hmb.
    destruct (measure_intensities _ _ _ _ _) as [[w2|e] σ'] eqn:Hmi; simpl; [|done].
    unfold measure_intensities in Hmi. simpl in Hmi.
    unfold mbind, IO.io_bind in Hmi.
    destruct (measure_loop _ _ _ _ _ _ _ _ _) as [[res|e] σ'']; simpl in Hmi;
      [|done].
    injection Hmi as <- _. done. }
  split; [done|]. split; [done|].
  intros t lab int Hlab Hint values limit.
  destruct (Hframes t lab int Hlab Hint) as [HRt HNt].
  split; [done|]. split; [done|].
  pose proof (Hcells t lab int Hlab Hint) as Hsame.
  assert (too_bright w lab int = limit) as Hlimit.
  { unfold MeasureMembraneIntensity.too_bright, labelled_values, limit, values.
    rewrite (select_ext (λ l, 0 <? l) (λ l, negb (l =? 0)) lab int); [done|].
    intros l Hl. specialize (Hnonneg t lab l Hlab Hl).
    destruct (Z.ltb_spec 0 l), (Z.eqb_spec l 0); simpl; lia || done. }
  destruct (OutlineFacts.outline_frame_spec (Np.frame_shape lm)
              (membrane_thickness float w) lab) as (Hl1 & Hl2 & _).
  eexists _, _, _, _, _. split; [by apply Hdt|].
  simpl. rewrite !list_lookup_fmap, Hlab. simpl.
  split; [done|]. split; [done|]. split; [exact HRt|]. split; [exact HNt|].
  intros i v Hv.
  pose proof (lookup_lt_Some _ _ _ Hv) as Hi.
  destruct (lookup_lt_is_Some_2
              (outline_frame (Np.frame_shape lm) (membrane_thickness float w) lab).1 i)
    as [ov Hov]; [lia|].
  destruct (lookup_lt_is_Some_2
              (outline_frame (Np.frame_shape lm) (membrane_thickness float w) lab).2 i)
    as [nv Hnv]; [lia|].
  unfold masked, kept. simpl.
  rewrite !lookup_zip_with, Hov, Hnv, !list_lookup_fmap, Hv. simpl.
  rewrite Hlimit. split; intros Hnan.
  - rewrite (lt_ge v limit Hnan). destruct (ge_float v limit); simpl.
    + split; [done|]. split; [|done]. intros _. split; f_equal; lia.
    + split; [split; done|]. split; [done|]. intros _. split; f_equal; lia.
  - rewrite (lt_nan v limit Hnan). simpl. split; [done|]. split; f_equal; lia.
Qed.

End Float64.

Lemma disk_worker_ready : ready Q Exact.disk_worker Exact.disk Exact.glare.
Proof.
  split; try reflexivity.
  - intros [|t] lab int Hlab Hint; [|discriminate].
    injection Hlab as <-. injection Hint as <-. reflexivity.
  - intros [|t] lab l Hlab Hl; [|discriminate].
    injection Hlab as <-.
    repeat (apply elem_of_cons in Hl as [->|Hl]; [by vm_compute|]).
    by apply elem_of_nil in Hl.
Defined.

(** On the disk with one glaring cell, [run] stores both buffers, and the
    glaring cell (cell 2 of the frame, of intensity 1000) is zeroed in
    both. *)
Lemma outliers_masked_per_frame_witness :
  ∃ rings' inner' o' n',
    rings Q (Exact.run Exact.disk_worker Exact.with_directory).1.2 = Some rings'
    ∧ inner Q (Exact.run Exact.disk_worker Exact.with_directory).1.2 = Some inner'
    ∧ Np.frames rings' !! 0%nat = Some o' ∧ Np.frames inner' !! 0%nat = Some n'
    ∧ o' !! 2%nat = Some 0 ∧ n' !! 2%nat = Some 0.
Proof.
  destruct (outliers_masked_per_frame Q Exact.np_mean Exact.np_std Qplus Qmult
              Exact.lt_float Exact.ge_float (fun _ => false)
              (fun v x _ => eq_refl) (fun v x H => match H with end)
              Np.uint64 Exact.disk_worker Exact.disk Exact.glare Exact.with_directory
              disk_worker_ready)
    as (discard & outlines & inner0 & rings' & inner' & _ & _ & Hr & Hn & Hframes).
  destruct (Hframes 0%nat _ _ eq_refl eq_refl)
    as (_ & _ & m & o & n & o' & n' & _ & _ & _ & Ho' & Hn' & Hcells).
  destruct (Hcells 2%nat 1000 eq_refl) as [Hnumber _].
  destruct (Hnumber eq_refl) as (_ & Hzero & _).
  destruct (Hzero eq_refl) as [Hoz Hnz].
  exists rings', inner', o', n'. split; [exact Hr|]. split; [exact Hn|].
  split; [exact Ho'|]. split; [exact Hn'|]. split; [exact Hoz|exact Hnz].
Defined.

(** A mask of one frame is broadcast over the frames of a buffer, and a
    mask of two frames does not go with a buffer of three. *)
Lemma apply_mask_broadcasts :
  apply_mask {| Np.frame_shape := [2]%nat;
                Np.frames := [[1; 2]; [3; 4]; [5; 6]] |}
             [2]%nat [[true; false]]
  = Ok {| Np.frame_shape := [2]%nat; Np.frames := [[1; 0]; [3; 0]; [5; 0]] |}
  ∧ apply_mask {| Np.frame_shape := [2]%nat;
                  Np.frames := [[1; 2]; [3; 4]; [5; 6]] |}
               [2]%nat [[true; false]; [true; true]]
    = Raise (ValueError "operands could not be broadcast together").
Proof. split; reflexivity. Qed.

(** C7 as stated (in every frame a pixel is marked exactly when its
    intensity is at least the limit) fails on a frame without any
    labelled pixel: the mean and the standard deviation of no value are
    NaN, so is the limit, and every pixel of the frame is marked while
    the intensity of none of them is at least the limit. *)
Theorem unlabelled_frame_is_marked_whole :
  labelled_values [0; 0; 0; 0] [5; 7; 9; 11] = []
  ∧ Ieee.is_nan (too_bright Ieee.float Ieee.np_mean Ieee.np_std Ieee.fadd
                   Ieee.fmul Ieee.blank_worker [0; 0; 0; 0] [5; 7; 9; 11])
    = true
  ∧ remove_outlier_intensities Ieee.float Ieee.np_mean Ieee.np_std Ieee.fadd
      Ieee.fmul Ieee.lt_float Ieee.blank_worker
    = Ok [[false; false; false; false]]
  ∧ Forall (fun v =>
              Ieee.ge_float v
                (too_bright Ieee.float Ieee.np_mean Ieee.np_std Ieee.fadd
                   Ieee.fmul Ieee.blank_worker [0; 0; 0; 0] [5; 7; 9; 11])
              = false)
           [5; 7; 9; 11].
Proof.
  split; [reflexivity|]. split; [reflexivity|]. split; [reflexivity|].
  repeat constructor.
Qed.

End OutlierFacts.

(* ================================================================== *)
(** * Measurements *)
(* ================================================================== *)

Module MeasureFacts.
Import IO MeasureMembraneIntensity.

(** ** The helper of utils.py *)

Definition intensity_path (n : Z) : string :=
  "/tmp/exported/intensity-" +:+ pretty n +:+ ".tif".
Definition label_path (n : Z) : string :=
  "/tmp/exported/label-" +:+ pretty n +:+ ".tif".

(** The number the next call of [random.randint(0, 1000)] returns. *)
Definition next_random (σ : world) : Z := rng σ (drawn σ) mod 1001.

(** The world after one call of [get_integrated_intensity] that found
    the directory. *)
Definition exported (σ : world) : world :=
  {| rng := rng σ; drawn := S (drawn σ); export_dir := export_dir σ;
     written := label_path (next_random σ) :: intensity_path (next_random σ)
                :: written σ |}.

(** The world after a call that did not find it: a number was drawn. *)
Definition drew (σ : world) : world :=
  {| rng := rng σ; drawn := S (drawn σ); export_dir := export_dir σ;
     written := written σ |}.

Definition integrated (acc : Np.accumulator) (intensity label : list Z) : Z :=
  Np.sum acc (Np.select (fun l => 0 <? l) label intensity).

(** Every call draws a random number and, before any sum is taken, writes
    two files under [/tmp/exported]; without that directory it raises. *)
Lemma get_integrated_intensity_spec (acc : Np.accumulator)
    (intensity label : list Z) (σ : world) :
  Utils.get_integrated_intensity acc intensity label σ
  = if export_dir σ then (Ok (integrated acc intensity label), exported σ)
    else (Raise (FileNotFoundError (intensity_path (next_random σ))), drew σ).
Proof.
  unfold Utils.get_integrated_intensity, mbind, io_bind, randint_0_1000, imwrite.
  destruct σ as [r d e wr]. simpl. destruct e; done.
Qed.

Local Close Scope string_scope.

(** The sum taken over the mask of a region is the sum of the intensities
    under the label. *)
Lemma integrated_region (acc : Np.accumulator) (L I : list Z) (l : Z) :
  integrated acc
    (zip_with Z.mul ((fun v => if decide (v = l) then 1 else 0) <$> L) I)
    ((fun v => if decide (v = l) then 1 else 0) <$> L)
  = Np.sum acc (Np.select (fun v => v =? l) L I).
Proof.
  unfold integrated, Np.sum. f_equal. unfold Np.select. revert I.
  induction L as [|x L IH]; intros I; [done|].
  destruct I as [|y I]; [done|].
  rewrite fmap_cons. cbn [zip_with zip]. rewrite !filter_cons. cbn [fst snd].
  destruct (decide (x = l)) as [->|Hne].
  - rewrite Z.eqb_refl. simpl. rewrite IH. destruct y; done.
  - destruct (Z.eqb_spec x l) as [?|_]; [done|]. simpl. apply IH.
Qed.

Lemma region_labels_spec (L : list Z) (l : Z) :
  l ∈ filter (fun l => 0 < l) (Np.unique L) ↔ 0 < l ∧ l ∈ L.
Proof. by rewrite list_elem_of_filter, RelabelFacts.unique_elem_of. Qed.

Lemma region_labels_NoDup (L : list Z) :
  NoDup (filter (fun l => 0 < l) (Np.unique L)).
Proof. apply NoDup_filter, RelabelFacts.unique_NoDup. Qed.

Section Float64.

Variable float : Type.
Variable np_mean : list Z → float.
Variable acc : Np.accumulator.

Abbreviation worker := (t float).
Abbreviation record := (record float).
Abbreviation region_of := (region_of float np_mean).
Abbreviation measure_ring := (measure_ring float acc).
Abbreviation measure_inner := (measure_inner float acc).
Abbreviation measure_frame := (measure_frame float np_mean acc).
Abbreviation measure_loop := (measure_loop float np_mean acc).
Abbreviation measure_intensities := (measure_intensities float np_mean acc).

(** The three statistics of the label [l] over its cells in the buffer
    [L]: mean of the intensities there, their sum as [np.sum] accumulates
    it, and their number. *)
Definition mean_of (L I : list Z) (l : Z) : float :=
  np_mean (Np.select (fun v => v =? l) L I).
Definition sum_of (L I : list Z) (l : Z) : Z :=
  Np.sum acc (Np.select (fun v => v =? l) L I).
Definition area_of (L : list Z) (l : Z) : Z :=
  Z.of_nat (List.length (filter (fun v => v = l) L)).

Definition ring_record (R I : list Z) (l : Z) : record :=
  RingOnly float (mean_of R I l) (sum_of R I l) (area_of R l).
Definition full_record (R N I : list Z) (l : Z) : record :=
  RingAndInner float (mean_of R I l) (sum_of R I l) (area_of R l)
               (mean_of N I l) (sum_of N I l) (area_of N l).

Lemma measure_ring_spec (R I : list Z) (l : Z) (m : gmap Z record) (σ : world) :
  export_dir σ = true → l ≠ 0 →
  measure_ring m (region_of R I l) σ
  = (Ok (<[l := ring_record R I l]> m), exported σ).
Proof.
  intros Hdir Hl. unfold MeasureMembraneIntensity.measure_ring. simpl.
  rewrite decide_False by done. unfold mbind, io_bind.
  rewrite get_integrated_intensity_spec, Hdir. simpl.
  unfold ring_record, sum_of. by rewrite integrated_region.
Qed.

Lemma ring_loop_spec (R I : list Z) (ls : list Z) (m : gmap Z record) (σ : world) :
  export_dir σ = true → (∀ l, l ∈ ls → l ≠ 0) →
  ∃ m' σ', for_each measure_ring (region_of R I <$> ls) m σ = (Ok m', σ')
           ∧ export_dir σ' = true
           ∧ ∀ l, m' !! l = if decide (l ∈ ls) then Some (ring_record R I l)
                            else m !! l.
Proof.
  revert m σ. induction ls as [|l0 ls IH]; intros m σ Hdir Hnz.
  - exists m, σ. split; [done|]. split; [done|]. intros l.
    by rewrite decide_False by apply not_elem_of_nil.
  - rewrite fmap_cons. cbn [for_each]. unfold mbind at 1, io_bind at 1.
    rewrite measure_ring_spec by (try done; apply Hnz; left).
    destruct (IH (<[l0 := ring_record R I l0]> m) (exported σ))
      as (m' & σ' & Hrun & Hdir' & Hm'); [done|intros l Hl; apply Hnz; by right|].
    exists m', σ'. split; [done|]. split; [done|]. intros l. rewrite Hm'.
    destruct (decide (l ∈ ls)) as [Hin|Hnin].
    + by rewrite decide_True by (by right).
    + destruct (decide (l = l0)) as [->|Hne].
      * rewrite lookup_insert_eq. by rewrite decide_True by left.
      * rewrite lookup_insert_ne by done.
        rewrite decide_False; [done|]. by intros [?|?]%elem_of_cons.
Qed.

(** What the second loop makes of the entry of a label that has a
    region in the inner buffer. *)
Definition completed (N I : list Z) (l : Z) (old : record) : record :=
  match old with
  | RingOnly _ a b c =>
      RingAndInner float a b c (mean_of N I l) (sum_of N I l) (area_of N l)
  | RingAndInner _ _ _ _ _ _ _ => old
  end.

Lemma measure_inner_spec (N I : list Z) (l : Z) (m : gmap Z record) (σ : world) :
  export_dir σ = true → l ≠ 0 →
  (∀ r, m !! l = Some r → arity float r = 3%nat) →
  measure_inner m (region_of N I l) σ
  = match m !! l with
    | None => (Ok m, σ)
    | Some old => (Ok (<[l := completed N I l old]> m), exported σ)
    end.
Proof.
  intros Hdir Hl Hthree. unfold MeasureMembraneIntensity.measure_inner. simpl.
  rewrite decide_False by done.
  destruct (m !! l) as [old|] eqn:Hold; [|done].
  unfold mbind, io_bind. rewrite get_integrated_intensity_spec, Hdir. simpl.
  specialize (Hthree old eq_refl). destruct old; [|done]. simpl.
  unfold sum_of. by rewrite integrated_region.
Qed.

Lemma inner_loop_spec (N I : list Z) (ls : list Z) (m : gmap Z record)
    (σ : world) :
  export_dir σ = true → NoDup ls → (∀ l, l ∈ ls → l ≠ 0) →
  (∀ l r, l ∈ ls → m !! l = Some r → arity float r = 3%nat) →
  ∃ m' σ', for_each measure_inner (region_of N I <$> ls) m σ = (Ok m', σ')
           ∧ export_dir σ' = true
           ∧ ∀ l, m' !! l = if decide (l ∈ ls) then completed N I l <$> m !! l
                            else m !! l.
Proof.
  revert m σ. induction ls as [|l0 ls IH]; intros m σ Hdir Hnd Hnz Hthree.
  - exists m, σ. split; [done|]. split; [done|]. intros l.
    by rewrite decide_False by apply not_elem_of_nil.
  - apply NoDup_cons in Hnd as [Hl0 Hnd].
    rewrite fmap_cons. cbn [for_each]. unfold mbind at 1, io_bind at 1.
    rewrite measure_inner_spec;
      [|done|apply Hnz; left|intros r; apply Hthree; left].
    assert (∀ l, l ∈ ls → l ≠ 0) as Hnz' by (intros l Hl; apply Hnz; by right).
    destruct (m !! l0) as [old|] eqn:Hold.
    + destruct (IH (<[l0 := completed N I l0 old]> m) (exported σ))
        as (m' & σ' & Hrun & Hdir' & Hm'); [done..| |].
      { intros l r Hl. rewrite lookup_insert_ne by (by intros ->).
        apply Hthree. by right. }
      exists m', σ'. split; [done|]. split; [done|]. intros l. rewrite Hm'.
      destruct (decide (l = l0)) as [->|Hne].
      * rewrite decide_False by done. rewrite decide_True by left.
        by rewrite lookup_insert_eq, Hold.
      * rewrite lookup_insert_ne by done.
        destruct (decide (l ∈ ls)) as [Hin|Hnin].
        -- by rewrite decide_True by (by right).
        -- rewrite decide_False; [done|]. by intros [?|?]%elem_of_cons.
    + destruct (IH m σ) as (m' & σ' & Hrun & Hdir' & Hm'); [done..| |].
      { intros l r Hl. apply Hthree. by right. }
      exists m', σ'. split; [done|]. split; [done|]. intros l. rewrite Hm'.
      destruct (decide (l = l0)) as [->|Hne].
      * rewrite decide_False by done. rewrite decide_True by left.
        by rewrite Hold.
      * destruct (decide (l ∈ ls)) as [Hin|Hnin].
        -- by rewrite decide_True by (by right).
        -- rewrite decide_False; [done|]. by intros [?|?]%elem_of_cons.
Qed.

(** The entry of the label [l] in the dict of a frame with ring buffer
    [R], inner buffer [N] and intensities [I]. *)
Definition entry (R N I : list Z) (l : Z) : option record :=
  if decide (0 < l ∧ l ∈ R) then
    Some (if decide (l ∈ N) then full_record R N I l else ring_record R I l)
  else None.

(** The buffers a worker measures: bound, of the shape of the intensity
    channel, 2-D or 3-D frames, and no more ring frames than there are
    inner and intensity frames. *)
Record measurable (w : worker) (rg inn ic : Np.stack) : Prop := {
  meas_rings : rings float w = Some rg;
  meas_inner : inner float w = Some inn;
  meas_channel : intensity_channel float w = Some ic;
  meas_ring_shape : Np.frame_shape rg = Np.frame_shape ic;
  meas_inner_shape : Np.frame_shape inn = Np.frame_shape ic;
  meas_rank : List.length (Np.frame_shape rg) = 2%nat
              ∨ List.length (Np.frame_shape rg) = 3%nat;
  meas_inner_frames :
    (List.length (Np.frames rg) <= List.length (Np.frames inn))%nat;
  meas_channel_frames :
    (List.length (Np.frames rg) <= List.length (Np.frames ic))%nat
}.

Lemma measure_frame_spec (w : worker) (rg inn ic : Np.stack) (t : nat)
    (R N I : list Z) (σ : world) :
  measurable w rg inn ic → export_dir σ = true →
  Np.frames inn !! t = Some N → Np.frames ic !! t = Some I →
  ∃ res_t σ', measure_frame w rg inn t R σ = (Ok res_t, σ')
              ∧ export_dir σ' = true
              ∧ ∀ l, res_t !! l = entry R N I l.
Proof.
  intros [_ _ Hic Hrs His Hrank _ _] Hdir HN HI.
  unfold MeasureMembraneIntensity.measure_frame.
  unfold mbind, io_bind, lift.
  rewrite (OutlierFacts.getitem_frame _ _ _ HN), Hic. cbn [from_option].
  rewrite (OutlierFacts.getitem_frame _ _ _ HI).
  unfold regionprops. rewrite decide_True by done.
  rewrite decide_True by (by right).
  rewrite decide_True by (rewrite His, <- Hrs; done).
  rewrite decide_True by (by right).
  destruct (ring_loop_spec R I (filter (λ l, 0 < l) (Np.unique R)) ∅ σ Hdir)
    as (m1 & σ1 & -> & Hdir1 & Hm1).
  { intros l [? _]%region_labels_spec. lia. }
  destruct (inner_loop_spec N I (filter (λ l, 0 < l) (Np.unique N)) m1 σ1 Hdir1)
    as (m2 & σ2 & -> & Hdir2 & Hm2).
  { apply region_labels_NoDup. }
  { intros l [? _]%region_labels_spec. lia. }
  { intros l r _. rewrite Hm1. destruct (decide _); [|done].
    by intros [= <-]. }
  exists m2, σ2. split; [done|]. split; [done|]. intros l.
  rewrite Hm2, Hm1. rewrite lookup_empty. unfold entry.
  destruct (decide (l ∈ filter (λ l, 0 < l) (Np.unique R))) as [HR|HR];
    rewrite region_labels_spec in HR.
  - rewrite (decide_True (P := 0 < l ∧ l ∈ R)) by done.
    destruct (decide (l ∈ filter (λ l, 0 < l) (Np.unique N))) as [Hn|Hn];
      rewrite region_labels_spec in Hn.
    + rewrite decide_True by tauto. done.
    + rewrite decide_False by tauto. done.
  - rewrite (decide_False (P := 0 < l ∧ l ∈ R)) by done.
    by destruct (decide _).
Qed.

Lemma measure_loop_spec (w : worker) (rg inn ic : Np.stack) (t0 : nat)
    (todo : list (list Z)) (σ : world) :
  measurable w rg inn ic → export_dir σ = true →
  (t0 + List.length todo <= List.length (Np.frames inn))%nat →
  (t0 + List.length todo <= List.length (Np.frames ic))%nat →
  ∃ res σ', measure_loop w rg inn t0 todo σ = (Ok res, σ')
            ∧ export_dir σ' = true
            ∧ List.length res = List.length todo
            ∧ ∀ k R N I, todo !! k = Some R →
                Np.frames inn !! (t0 + k)%nat = Some N →
                Np.frames ic !! (t0 + k)%nat = Some I →
                ∃ res_t, res !! k = Some res_t ∧ ∀ l, res_t !! l = entry R N I l.
Proof.
  intros Hmeas. revert t0 σ.
  induction todo as [|R todo IH]; intros t0 σ Hdir Hinn Hic.
  - exists [], σ. split; [done|]. split; [done|]. split; [done|]. by intros k.
  - simpl in Hinn, Hic.
    destruct (lookup_lt_is_Some_2 (Np.frames inn) t0) as [N HN]; [lia|].
    destruct (lookup_lt_is_Some_2 (Np.frames ic) t0) as [I HI]; [lia|].
    destruct (measure_frame_spec w rg inn ic t0 R N I σ Hmeas Hdir HN HI)
      as (res_t & σ1 & Hframe & Hdir1 & Hres_t).
    destruct (IH (S t0) σ1 Hdir1) as (res & σ2 & Hloop & Hdir2 & Hlen & Hres);
      [lia..|].
    exists (res_t :: res), σ2.
    cbn [MeasureMembraneIntensity.measure_loop].
    unfold mbind at 1, io_bind at 1. rewrite Hframe.
    unfold mbind at 1, io_bind at 1. rewrite Hloop. simpl.
    split; [done|]. split; [done|]. split; [by rewrite Hlen|].
    intros [|k] R' N' I' HR' HN' HI'.
    + rewrite Nat.add_0_r in HN', HI'. simpl in HR'. simplify_eq.
      exists res_t. done.
    + rewrite Nat.add_succ_r in HN', HI'. simpl in HR'. simpl.
      by apply (Hres k R').
Qed.


End Float64.

(** ** The disk with one glaring cell *)

(** The buffers [run] stores for the disk: the glaring cell is out of the
    ring. *)
Definition disk_rings : Np.stack :=
  {| Np.frame_shape := [5; 5]%nat;
     Np.frames := [[0; 0; 0; 0; 0;
                    0; 3; 0; 3; 0;
                    3; 0; 0; 0; 3;
                    0; 3; 0; 3; 0;
                    0; 0; 3; 0; 0]] |}.
Definition disk_inner : Np.stack :=
  {| Np.frame_shape := [5; 5]%nat;
     Np.frames := [[0; 0; 0; 0; 0;
                    0; 0; 3; 0; 0;
                    0; 3; 3; 3; 0;
                    0; 0; 3; 0; 0;
                    0; 0; 0; 0; 0]] |}.
Definition outlined_disk : t Q := with_buffers Q disk_rings disk_inner Exact.disk_worker.

Lemma outlined_disk_measurable :
  measurable Q outlined_disk disk_rings disk_inner Exact.glare.
Proof.
  split; try reflexivity. left. reflexivity.
Defined.



(** C9 (the measurement pipeline writes no file): it does.  On the disk
    example [run] leaves four files under [/tmp/exported], two for the ring
    region and two for the inner region of the label, and where that
    directory is missing it raises [FileNotFoundError] and measures
    nothing; every call of [get_integrated_intensity] does the same. *)
Theorem run_writes_files :
  written (Exact.run Exact.disk_worker Exact.with_directory).2
  = ["/tmp/exported/label-8.tif"; "/tmp/exported/intensity-8.tif";
     "/tmp/exported/label-7.tif"; "/tmp/exported/intensity-7.tif"]%string
  ∧ (Exact.run Exact.disk_worker Exact.without_directory).1.1
    = Raise (FileNotFoundError "/tmp/exported/intensity-7.tif")
  ∧ results Q (Exact.run Exact.disk_worker Exact.without_directory).1.2 = None
  ∧ ∀ acc intensity label σ,
      Utils.get_integrated_intensity acc intensity label σ
      = if export_dir σ then (Ok (integrated acc intensity label), exported σ)
        else (Raise (FileNotFoundError (intensity_path (next_random σ))), drew σ).
Proof.
  split; [by vm_compute|]. split; [by vm_compute|]. split; [by vm_compute|].
  apply get_integrated_intensity_spec.
Qed.

End MeasureFacts.

(* ================================================================== *)
(** * The accepted axis strings *)
(* ================================================================== *)

Module ValidatorFacts.
Import Axes AxesFacts.

(** ** Positions in a list without repetition *)

Lemma index_nonneg (a : ascii) (o : list ascii) (p : Z) :
  index a o = Some p → 0 <= p.
Proof.
  revert p. induction o as [|b o IH]; intros p; [done|]. simpl.
  destruct (decide (a = b)); [intros [= <-]; lia|].
  destruct (index a o) as [q|]; [|done]. intros [= <-].
  specialize (IH q eq_refl). lia.
Qed.

Lemma index_cons_other (a b : ascii) (o : list ascii) (p : Z) :
  a ≠ b → index a (b :: o) = Some p ↔ index a o = Some (p - 1).
Proof.
  intros Hne. simpl. rewrite decide_False by done.
  destruct (index a o) as [q|]; [|done].
  split; intros [= H]; f_equal; lia.
Qed.

(** Two elements of [l] stand against the order of [o]. *)
Definition inversion_in (o l : list ascii) : Prop :=
  ∃ (i j : nat) a b pa pb,
    (i < j)%nat ∧ l !! i = Some a ∧ l !! j = Some b ∧
    index a o = Some pa ∧ index b o = Some pb ∧ pb < pa.

(** An inversion among elements other than [b] does not depend on [b]
    standing in front of the reference list. *)
Lemma inversion_in_cons (b : ascii) (o l : list ascii) :
  b ∉ l → inversion_in (b :: o) l ↔ inversion_in o l.
Proof.
  intros Hb.
  assert (∀ k x, l !! k = Some x → x ≠ b) as Hne.
  { intros k x Hk ->. apply Hb. by eapply list_elem_of_lookup_2. }
  split; intros (i & j & x & y & px & py & Hij & Hi & Hj & Hx & Hy & Hlt).
  - apply index_cons_other in Hx; [|by eapply Hne].
    apply index_cons_other in Hy; [|by eapply Hne].
    exists i, j, x, y, (px - 1), (py - 1). repeat split; try done. lia.
  - exists i, j, x, y, (px + 1), (py + 1). repeat split; try done.
    + apply index_cons_other; [by eapply Hne|]. by replace (px + 1 - 1) with px by lia.
    + apply index_cons_other; [by eapply Hne|]. by replace (py + 1 - 1) with py by lia.
    + lia.
Qed.

(** A list without repetition whose elements follow the order of [o] is
    what is left of [o] after deleting some elements. *)
Lemma sorted_sublist (o l : list ascii) :
  NoDup l → (∀ a, a ∈ l → a ∈ o) → ¬ inversion_in o l → l `sublist_of` o.
Proof.
  revert l. induction o as [|b o IH]; intros l Hnd Hin Hinv.
  - destruct l as [|a l]; [constructor|].
    exfalso. eapply not_elem_of_nil, Hin. left.
  - destruct l as [|a l]; [apply sublist_nil_l|].
    apply NoDup_cons in Hnd as Hnd'. destruct Hnd' as [Ha Hndl].
    destruct (decide (a = b)) as [->|Hne].
    + apply sublist_skip. apply IH; [done| |].
      * intros x Hx. specialize (Hin x ltac:(by right)).
        apply elem_of_cons in Hin as [->|?]; done.
      * intros Hinv'. apply Hinv.
        apply (inversion_in_cons b) in Hinv'; [|done].
        destruct Hinv' as (i & j & x & y & px & py & Hij & Hi & Hj & H).
        exists (S i), (S j), x, y, px, py. repeat split; try tauto. lia.
    + assert (b ∉ a :: l) as Hb.
      { intros [?|Hb]%elem_of_cons; [done|]. apply Hinv.
        apply list_elem_of_lookup_1 in Hb as [j Hj].
        assert (a ∈ o) as Hao.
        { specialize (Hin a ltac:(left)).
          apply elem_of_cons in Hin as [?|?]; done. }
        destruct (index_Some_elem a o Hao) as (p & Hp & Hp0).
        exists 0%nat, (S j), a, b, (p + 1), 0. repeat split; try done.
        - lia.
        - apply index_cons_other; [done|]. by replace (p + 1 - 1) with p by lia.
        - simpl. by rewrite decide_True.
        - lia. }
      apply sublist_cons. apply IH; [done| |].
      * intros x Hx. specialize (Hin x Hx).
        apply elem_of_cons in Hin as [->|?]; done.
      * intros Hinv'. apply Hinv. by apply inversion_in_cons.
Qed.

Lemma sublist_sorted (o l : list ascii) :
  NoDup o → l `sublist_of` o → ¬ inversion_in o l.
Proof.
  intros Hnd Hsub. induction Hsub as [|x l o Hsub IH|x l o Hsub IH].
  - intros (i & j & a & b & pa & pb & _ & Hi & _). done.
  - apply NoDup_cons in Hnd as [Hx Hnd].
    assert (x ∉ l) as Hxl.
    { intros Hxl. apply Hx. by eapply sublist_subseteq. }
    intros (i & j & a & b & pa & pb & Hij & Hi & Hj & Ha & Hb & Hlt).
    destruct j as [|j]; [lia|]. simpl in Hj.
    assert (b ≠ x) as Hbx.
    { intros ->. apply Hxl. by eapply list_elem_of_lookup_2. }
    apply index_cons_other in Hb; [|done].
    apply index_nonneg in Hb as Hb0.
    destruct i as [|i].
    + simpl in Hi. injection Hi as <-. simpl in Ha.
      rewrite decide_True in Ha by done. injection Ha as <-. lia.
    + simpl in Hi.
      assert (a ≠ x) as Hax.
      { intros ->. apply Hxl. by eapply list_elem_of_lookup_2. }
      apply index_cons_other in Ha; [|done].
      apply (IH Hnd). exists i, j, a, b, (pa - 1), (pb - 1).
      repeat split; try done; lia.
  - apply NoDup_cons in Hnd as [Hx Hnd].
    assert (x ∉ l) as Hxl.
    { intros Hxl. apply Hx. by eapply sublist_subseteq. }
    intros Hinv. apply (IH Hnd). by apply (inversion_in_cons x).
Qed.

Lemma NoDup_ordered : NoDup ordered.
Proof. by apply (bool_decide_unpack _). Qed.

(** What the validators with the order loop let through. *)
Lemma not_rejected_sublist (bound : option nat) (axes : string) :
  ¬ rejected bound axes
  ↔ chars axes `sublist_of` ordered ∧ ∀ n, bound = Some n → len axes = n.
Proof.
  unfold rejected, has_duplicates, has_unknown_tag, rank_mismatch, out_of_order.
  split.
  - intros Hno. split.
    + apply sorted_sublist.
      * destruct (decide (NoDup (chars axes))); tauto.
      * intros a Ha. destruct (decide (a ∈ ordered)) as [|Hna]; [done|].
        exfalso. apply Hno. right; left. eauto.
      * intros Hinv. apply Hno. by do 3 right.
    + intros n Hn. destruct (decide (len axes = n)) as [|Hne]; [done|].
      exfalso. apply Hno. right; right; left. eauto.
  - intros [Hsub Hrank] [Hdup|[(a & Ha & Hna)|[(n & Hn & Hne)|Hinv]]].
    + apply Hdup. exact (sublist_NoDup _ _ NoDup_ordered Hsub).
    + apply Hna. by eapply sublist_subseteq.
    + by apply Hne, Hrank.
    + by apply (sublist_sorted ordered (chars axes) NoDup_ordered).
Qed.

Lemma full_check_ok_iff (bound : option nat) (axes : string) :
  full_check bound axes = Ok tt
  ↔ chars axes `sublist_of` ordered ∧ ∀ n, bound = Some n → len axes = n.
Proof.
  destruct (full_check_iff bound axes) as [-> _]. apply not_rejected_sublist.
Qed.

Lemma track_check_axes_ok (w : TrackCellsWorker.t) (axes : string) :
  TrackCellsWorker.check_axes w axes = Ok tt
  ↔ chars axes `sublist_of` ordered
    ∧ ∀ lm, TrackCellsWorker.label_maps w = Some lm → len axes = Np.ndim lm.
Proof.
  change (TrackCellsWorker.check_axes w axes)
    with (full_check (Np.ndim <$> TrackCellsWorker.label_maps w) axes).
  rewrite full_check_ok_iff.
  split; intros [Hsub Hrank]; (split; [done|]).
  - intros lm Hlm. apply Hrank. by rewrite Hlm.
  - intros n Hn. destruct (TrackCellsWorker.label_maps w) as [lm|]; [|done].
    injection Hn as <-. by apply Hrank.
Qed.

Lemma segment_check_axes_ok (w : SegmentCellsWorker.t) (axes : string) :
  SegmentCellsWorker.check_axes w axes = Ok tt
  ↔ chars axes `sublist_of` ordered
    ∧ ∀ ch, SegmentCellsWorker.segmentation_channel w = Some ch →
            len axes = Np.ndim ch.
Proof.
  change (SegmentCellsWorker.check_axes w axes)
    with (full_check (Np.ndim <$> SegmentCellsWorker.segmentation_channel w) axes).
  rewrite full_check_ok_iff.
  split; intros [Hsub Hrank]; (split; [done|]).
  - intros ch Hch. apply Hrank. by rewrite Hch.
  - intros n Hn.
    destruct (SegmentCellsWorker.segmentation_channel w) as [ch|]; [|done].
    injection Hn as <-. by apply Hrank.
Qed.

(** X1.  [check_axes] of the tracking and of the segmentation worker
    returns exactly on the strings obtained from "TZYX" by deleting
    letters, the empty one included, that have as many letters as the
    array bound to the worker has axes; every other candidate raises a
    [ValueError]. *)
Theorem check_axes_accepts_subsequences (wt : TrackCellsWorker.t)
    (ws : SegmentCellsWorker.t) (axes : string) :
  (TrackCellsWorker.check_axes wt axes = Ok tt
   ↔ chars axes `sublist_of` ordered
     ∧ ∀ lm, TrackCellsWorker.label_maps wt = Some lm → len axes = Np.ndim lm)
  ∧ (SegmentCellsWorker.check_axes ws axes = Ok tt
     ↔ chars axes `sublist_of` ordered
       ∧ ∀ ch, SegmentCellsWorker.segmentation_channel ws = Some ch →
               len axes = Np.ndim ch)
  ∧ (TrackCellsWorker.check_axes wt axes = Ok tt
     ∨ ∃ msg, TrackCellsWorker.check_axes wt axes = Raise (ValueError msg))
  ∧ (SegmentCellsWorker.check_axes ws axes = Ok tt
     ∨ ∃ msg, SegmentCellsWorker.check_axes ws axes = Raise (ValueError msg)).
Proof.
  split; [apply track_check_axes_ok|]. split; [apply segment_check_axes_ok|].
  split.
  - destruct (full_check_spec (Np.ndim <$> TrackCellsWorker.label_maps wt) axes)
      as [[Hok _]|[Hraise _]]; [by left|by right].
  - destruct (full_check_spec (Np.ndim <$> SegmentCellsWorker.segmentation_channel ws) axes)
      as [[Hok _]|[Hraise _]]; [by left|by right].
Qed.

(** ** The measurement worker *)

Lemma NoDup_known_submseteq (l : list ascii) :
  NoDup l ∧ (∀ a, a ∈ l → a ∈ ordered) ↔ l ⊆+ ordered.
Proof.
  split.
  - intros [Hnd Hin]. by apply NoDup_submseteq.
  - intros Hsub. split.
    + apply submseteq_Permutation in Hsub as [k Hk].
      pose proof NoDup_ordered as Hnd. rewrite Hk in Hnd.
      by apply NoDup_app in Hnd as [? _].
    + intros a Ha. by eapply elem_of_submseteq.
Qed.

(** X2.  [check_axes] of the measurement worker returns exactly on the
    strings made of distinct letters of "TZYX", in any order, that have
    as many letters as the bound intensity channel has axes; every other
    candidate raises a [ValueError].  The label maps play no part. *)
Theorem measure_check_axes_accepts_rearrangements {float : Type}
    (w : MeasureMembraneIntensity.t float) (axes : string) :
  (MeasureMembraneIntensity.check_axes float w axes = Ok tt
   ↔ chars axes ⊆+ ordered
     ∧ ∀ ic, MeasureMembraneIntensity.intensity_channel float w = Some ic →
             len axes = Np.ndim ic)
  ∧ (MeasureMembraneIntensity.check_axes float w axes = Ok tt
     ∨ ∃ msg, MeasureMembraneIntensity.check_axes float w axes
              = Raise (ValueError msg)).
Proof.
  split.
  - rewrite measure_check_axes_spec, <- NoDup_known_submseteq.
    unfold has_duplicates, has_unknown_tag, rank_mismatch. split.
    + intros Hno. split; [split|].
      * destruct (decide (NoDup (chars axes))); tauto.
      * intros a Ha. destruct (decide (a ∈ ordered)) as [|Hna]; [done|].
        exfalso. apply Hno. right; left. eauto.
      * intros ic Hic. destruct (decide (len axes = Np.ndim ic)) as [|Hne]; [done|].
        exfalso. apply Hno. right; right. exists (Np.ndim ic). by rewrite Hic.
    + intros [[Hnd Hin] Hrank] [Hdup|[(a & Ha & Hna)|(n & Hn & Hne)]].
      * by apply Hdup.
      * by apply Hna, Hin.
      * destruct (MeasureMembraneIntensity.intensity_channel float w) as [ic|];
          [|done].
        injection Hn as <-. by apply Hne, Hrank.
  - unfold MeasureMembraneIntensity.check_axes.
    destruct (check_tags_spec axes) as [(-> & _)|([msg ->] & _)]; simpl;
      [|right; eauto].
    unfold check_rank.
    destruct (Np.ndim <$> MeasureMembraneIntensity.intensity_channel float w)
      as [n|]; [|by left].
    destruct (negb _); [right; eauto|by left].
Qed.

(** ** Which test fails first *)

(** The outcome [r] of a validator with the order loop on a candidate:
    the message is that of the first test, in the order duplicates,
    unknown letters, rank, order, that the candidate fails. *)
Definition first_failure (bound : option nat) (axes : string)
    (r : result unit) : Prop :=
  (has_duplicates axes
   ∧ r = Raise (ValueError "The candidate axes contain duplicates."))
  ∨ (¬ has_duplicates axes ∧ has_unknown_tag axes
     ∧ r = Raise (ValueError "The candidate axes contain unknown elements."))
  ∨ (¬ has_duplicates axes ∧ ¬ has_unknown_tag axes ∧ rank_mismatch bound axes
     ∧ r = Raise (ValueError
                    "The candidate axes are not compatible with the current data."))
  ∨ (¬ has_duplicates axes ∧ ¬ has_unknown_tag axes ∧ ¬ rank_mismatch bound axes
     ∧ out_of_order axes
     ∧ r = Raise (ValueError "The candidate axes are not in the correct order."))
  ∨ (¬ rejected bound axes ∧ r = Ok tt).

Lemma full_check_first_failure (bound : option nat) (axes : string) :
  first_failure bound axes (full_check bound axes).
Proof.
  unfold first_failure, full_check, check_tags, rejected,
    has_duplicates, has_unknown_tag, len, candidate.
  destruct (Nat.eqb_spec (List.length (chars axes))
              (size (list_to_set (chars axes) : gset ascii))) as [Heq|Hne]; simpl.
  2:{ left. split; [|done]. intros Hnd. by apply Hne, length_eq_size_NoDup. }
  apply length_eq_size_NoDup in Heq as Hnd.
  assert (¬ ¬ NoDup (chars axes)) as Hnodup by tauto.
  right.
  destruct (Nat.eqb_spec (List.length (chars axes))
              (size (valid ∩ (list_to_set (chars axes) : gset ascii))))
    as [Heq2|Hne2]; simpl.
  2:{ left. split; [done|]. split; [|done].
      destruct (decide (Forall (λ a, a ∈ ordered) (chars axes))) as [Hall|Hex].
      - exfalso. apply Hne2. apply size_inter_valid; [done|].
        by apply Forall_forall.
      - apply not_Forall_Exists in Hex; [|apply _].
        apply Exists_exists in Hex as (a & Ha & Hna). eauto. }
  assert (∀ a, a ∈ chars axes → a ∈ ordered) as Hknown
    by (by apply (size_inter_valid (chars axes) Hnd)).
  assert (¬ ∃ a, a ∈ chars axes ∧ a ∉ ordered) as Hnounk.
  { intros (a & Ha & Hna). by apply Hna, Hknown. }
  right.
  assert (size (list_to_set (chars axes) : gset ascii) = List.length (chars axes))
    as Hsz by (by apply size_list_to_set).
  unfold check_rank, rank_mismatch, candidate, len.
  assert ((∃ ndim, bound = Some ndim ∧ List.length (chars axes) ≠ ndim)
          ∧ match bound with
            | Some ndim =>
                if negb (size (list_to_set (chars axes) : gset ascii) =? ndim)%nat
                then Raise (ValueError
                       "The candidate axes are not compatible with the current data.")
                else Ok tt
            | None => Ok tt
            end = Raise (ValueError
                    "The candidate axes are not compatible with the current data.")
          ∨ (¬ ∃ ndim, bound = Some ndim ∧ List.length (chars axes) ≠ ndim)
            ∧ match bound with
              | Some ndim =>
                  if negb (size (list_to_set (chars axes) : gset ascii) =? ndim)%nat
                  then Raise (ValueError
                         "The candidate axes are not compatible with the current data.")
                  else Ok tt
              | None => Ok tt
              end = Ok tt) as [[Hrm ->]|[Hnrm ->]]; simpl.
  { destruct bound as [ndim|].
    - rewrite Hsz. destruct (Nat.eqb_spec (List.length (chars axes)) ndim) as [?|Hne];
        simpl.
      + right. split; [|done]. intros (n & [= <-] & ?). done.
      + left. split; [eauto|done].
    - right. split; [|done]. intros (n & ? & _). done. }
  { left. done. }
  right. unfold check_order, out_of_order.
  destruct (order_loop_spec (chars axes) (-1) Hknown)
    as [(-> & _ & Hinv)|(-> & Hwhy)].
  - right. split; [|done]. tauto.
  - left. repeat (split; [done|]). split; [|done].
    destruct Hwhy as [(a & p & Ha & Hp & Hlt)|?]; [|done].
    apply index_nonneg in Hp. lia.
Qed.

(** X3.  On a candidate that fails several tests, [check_axes] of the
    tracking and of the segmentation worker reports the first one in the
    order of the source: duplicates, then unknown letters, then the rank
    of the bound array, then the order of the letters.  No other
    exception leaves the method: [ordered.index] never fails, the letters
    being known when the loop runs. *)
Theorem check_axes_reports_first_failure (wt : TrackCellsWorker.t)
    (ws : SegmentCellsWorker.t) (axes : string) :
  first_failure (Np.ndim <$> TrackCellsWorker.label_maps wt) axes
    (TrackCellsWorker.check_axes wt axes)
  ∧ first_failure (Np.ndim <$> SegmentCellsWorker.segmentation_channel ws) axes
      (SegmentCellsWorker.check_axes ws axes).
Proof. split; apply full_check_first_failure. Qed.

End ValidatorFacts.

(* ================================================================== *)
(** * What the setters maintain *)
(* ================================================================== *)

Module BindingFacts.
Import Axes AxesFacts ValidatorFacts.

(** ** The tracking worker *)

(** A call of one of the setters of [TrackCellsWorker]. *)
Inductive track_call : Type :=
| TrackSetAxes (axes : string)
| TrackSetLabelMaps (data : Np.stack)
| TrackOverrideLabelMaps (labels : Np.stack) (axes : string)
| TrackSetSearchRange (sr : Z)
| TrackSetMemory (mem : Z)
| TrackSetUseVelocity (uv : bool)
| TrackSetMergeNeighbors (mn : bool)
| TrackSetRemoveIncomplete (ri : bool).

(** The worker after the call, whether it returned or raised. *)
Definition track_exec (st : TrackCellsWorker.t * TrackCellsWorker.settings)
    (c : track_call) : TrackCellsWorker.t * TrackCellsWorker.settings :=
  match c with
  | TrackSetAxes axes =>
      (state_after st.1 (TrackCellsWorker.set_axes st.1 axes), st.2)
  | TrackSetLabelMaps data =>
      (state_after st.1 (TrackCellsWorker.set_label_maps st.1 data), st.2)
  | TrackOverrideLabelMaps labels axes =>
      ((TrackCellsWorker.override_label_maps st.1 labels axes).2, st.2)
  | TrackSetSearchRange sr =>
      (st.1, state_after st.2 (TrackCellsWorker.set_search_range st.2 sr))
  | TrackSetMemory mem =>
      (st.1, state_after st.2 (TrackCellsWorker.set_memory st.2 mem))
  | TrackSetUseVelocity uv => (st.1, TrackCellsWorker.set_use_velocity st.2 uv)
  | TrackSetMergeNeighbors mn =>
      (st.1, TrackCellsWorker.set_merge_neighbors st.2 mn)
  | TrackSetRemoveIncomplete ri =>
      (st.1, TrackCellsWorker.set_remove_incomplete st.2 ri)
  end.

Record track_sound (st : TrackCellsWorker.t * TrackCellsWorker.settings) : Prop := {
  track_sound_axes : chars (TrackCellsWorker.axes st.1) `sublist_of` ordered;
  track_sound_rank : ∀ lm, TrackCellsWorker.label_maps st.1 = Some lm →
                       Np.ndim lm = len (TrackCellsWorker.axes st.1);
  track_sound_range : 0 < TrackCellsWorker.search_range st.2;
  track_sound_memory : 0 <= TrackCellsWorker.memory st.2;
  track_sound_results : TrackCellsWorker.linked st.1 = None
                        ∧ TrackCellsWorker.tracked_labels st.1 = None
}.

Lemma track_set_axes_sound (w : TrackCellsWorker.t) (axes : string) :
  chars (TrackCellsWorker.axes w) `sublist_of` ordered →
  (∀ lm, TrackCellsWorker.label_maps w = Some lm →
         Np.ndim lm = len (TrackCellsWorker.axes w)) →
  let w' := state_after w (TrackCellsWorker.set_axes w axes) in
  chars (TrackCellsWorker.axes w') `sublist_of` ordered
  ∧ (∀ lm, TrackCellsWorker.label_maps w' = Some lm →
           Np.ndim lm = len (TrackCellsWorker.axes w'))
  ∧ TrackCellsWorker.label_maps w' = TrackCellsWorker.label_maps w
  ∧ TrackCellsWorker.linked w' = TrackCellsWorker.linked w
  ∧ TrackCellsWorker.tracked_labels w' = TrackCellsWorker.tracked_labels w.
Proof.
  intros Hax Hrank. unfold TrackCellsWorker.set_axes.
  destruct (TrackCellsWorker.check_axes w axes) as [[]|e] eqn:Hc; simpl; [|done].
  apply track_check_axes_ok in Hc as [Hsub Hr].
  split; [done|]. split; [|done]. intros lm Hlm. symmetry. by apply Hr.
Qed.

Lemma track_set_label_maps_sound (w : TrackCellsWorker.t) (data : Np.stack) :
  (∀ lm, TrackCellsWorker.label_maps w = Some lm →
         Np.ndim lm = len (TrackCellsWorker.axes w)) →
  let w' := state_after w (TrackCellsWorker.set_label_maps w data) in
  (∀ lm, TrackCellsWorker.label_maps w' = Some lm →
         Np.ndim lm = len (TrackCellsWorker.axes w'))
  ∧ TrackCellsWorker.axes w' = TrackCellsWorker.axes w
  ∧ TrackCellsWorker.linked w' = TrackCellsWorker.linked w
  ∧ TrackCellsWorker.tracked_labels w' = TrackCellsWorker.tracked_labels w.
Proof.
  intros Hrank. unfold TrackCellsWorker.set_label_maps.
  destruct (Nat.eqb_spec (Np.ndim data) (len (TrackCellsWorker.axes w)))
    as [Heq|Hne]; simpl; [|done].
  split; [|done]. by intros lm [= <-].
Qed.

Lemma track_exec_sound st c : track_sound st → track_sound (track_exec st c).
Proof.
  intros [Hax Hrank Hsr Hmem [Hl Ht]]. destruct st as [w s].
  cbn [fst snd] in *.
  destruct c; cbn [track_exec fst snd].
  - destruct (track_set_axes_sound w axes Hax Hrank) as (? & ? & _ & Hl' & Ht').
    split; cbn [fst snd]; try done; rewrite ?Hl', ?Ht'; done.
  - destruct (track_set_label_maps_sound w data Hrank) as (? & Ha' & Hl' & Ht').
    split; cbn [fst snd]; try done; rewrite ?Ha', ?Hl', ?Ht'; done.
  - unfold TrackCellsWorker.override_label_maps.
    set (w0 := TrackCellsWorker.with_label_maps None w).
    assert (∀ lm, TrackCellsWorker.label_maps w0 = Some lm →
                  Np.ndim lm = len (TrackCellsWorker.axes w0)) as Hrank0 by done.
    destruct (track_set_axes_sound w0 axes Hax Hrank0) as (Ha1 & Hr1 & _ & Hl1 & Ht1).
    destruct (TrackCellsWorker.set_axes w0 axes) as [w1|e] eqn:H1;
      cbn [state_after] in *.
    + destruct (track_set_label_maps_sound w1 labels Hr1) as (Hr2 & Ha2 & Hl2 & Ht2).
      destruct (TrackCellsWorker.set_label_maps w1 labels) as [w2|e] eqn:H2;
        cbn [state_after] in *.
      * split; cbn [fst snd]; try done; rewrite ?Ha2, ?Hl2, ?Hl1, ?Ht2, ?Ht1; done.
      * split; cbn [fst snd]; try done; rewrite ?Hl1, ?Ht1; done.
    + split; cbn [fst snd]; done.
  - unfold TrackCellsWorker.set_search_range.
    destruct (Z.leb_spec sr 0); simpl; split; simpl; done.
  - unfold TrackCellsWorker.set_memory.
    destruct (Z.ltb_spec mem 0); simpl; split; simpl; done.
  - split; simpl; done.
  - split; simpl; done.
  - split; simpl; done.
Qed.

(** X4.  Whatever setters of the tracking worker are called after
    [__init__], in whatever order and whether they return or raise: the
    axis string is "TZYX" with some letters deleted, the label maps, when
    bound, have as many axes as the string has letters, the search range
    is positive and the memory is not negative; no setter touches the
    linked table or the tracked labels. *)
Theorem track_setters_keep_worker_sound (calls : list track_call) :
  track_sound (foldl track_exec
                 (TrackCellsWorker.init, TrackCellsWorker.default_settings) calls).
Proof.
  assert (track_sound (TrackCellsWorker.init, TrackCellsWorker.default_settings))
    as Hinit.
  { split; simpl; try done; try lia.
    unfold ordered. apply sublist_skip, sublist_cons, sublist_skip, sublist_skip.
    constructor. }
  revert Hinit.
  generalize (TrackCellsWorker.init, TrackCellsWorker.default_settings).
  induction calls as [|c calls IH]; intros st Hst; [done|].
  simpl. apply IH. by apply track_exec_sound.
Qed.

(** X5.  [override_label_maps] of the tracking worker has three
    outcomes, whatever was bound before.  It returns, with the new axes and
    label maps in place, when the axes are "TZYX" with some letters
    deleted and as many as the label maps have axes.  It raises out of
    [set_axes] when the axes are not such a string, and the worker is left
    with its old axes and no label maps.  It raises out of
    [set_label_maps] when only the number of letters is wrong, and the
    worker is left with the new axes and no label maps. *)
Theorem override_label_maps_outcome (w : TrackCellsWorker.t)
    (labels : Np.stack) (axes : string) :
  let r := TrackCellsWorker.override_label_maps w labels axes in
  (chars axes `sublist_of` ordered ∧ len axes = Np.ndim labels
   ∧ r = (Ok tt, TrackCellsWorker.with_label_maps (Some labels)
                   (TrackCellsWorker.with_axes axes w)))
  ∨ (¬ chars axes `sublist_of` ordered
     ∧ ∃ msg, r = (Raise (ValueError msg), TrackCellsWorker.with_label_maps None w))
  ∨ (chars axes `sublist_of` ordered ∧ len axes ≠ Np.ndim labels
     ∧ r = (Raise (ValueError
                     "The candidate label maps are not compatible with the current axes."),
            TrackCellsWorker.with_axes axes
              (TrackCellsWorker.with_label_maps None w))).
Proof.
  intros r. unfold r, TrackCellsWorker.override_label_maps,
    TrackCellsWorker.set_axes.
  set (w0 := TrackCellsWorker.with_label_maps None w).
  pose proof (track_check_axes_ok w0 axes) as Hok.
  destruct (full_check_spec (Np.ndim <$> TrackCellsWorker.label_maps w0) axes)
    as [[Hc _]|[[msg Hc] _]];
    change (full_check (Np.ndim <$> TrackCellsWorker.label_maps w0) axes)
      with (TrackCellsWorker.check_axes w0 axes) in Hc; rewrite Hc; simpl.
  - apply Hok in Hc as [Hsub _].
    unfold TrackCellsWorker.set_label_maps.
    cbn [TrackCellsWorker.axes TrackCellsWorker.with_axes].
    destruct (Nat.eqb_spec (Np.ndim labels) (len axes)) as [Heq|Hne];
      cbn [negb].
    + left. done.
    + right; right. split; [done|]. split; [congruence|done].
  - right; left. split; [|eauto]. intros Hsub.
    assert (TrackCellsWorker.check_axes w0 axes = Ok tt) as Hc'
      by (apply Hok; split; [done|]; by intros lm ?).
    congruence.
Qed.

(** ** The segmentation worker *)

Inductive segment_call : Type :=
| SegmentSetAxes (axes : string)
| SegmentSetChannel (data : Np.stack)
| SegmentOverrideChannel (channel : Np.stack) (axes : string).

(** The worker after the call, whether it returned or raised. *)
Definition segment_exec (w : SegmentCellsWorker.t) (c : segment_call)
    : SegmentCellsWorker.t :=
  match c with
  | SegmentSetAxes axes => state_after w (SegmentCellsWorker.set_axes w axes)
  | SegmentSetChannel data =>
      state_after w (SegmentCellsWorker.set_segmentation_channel w data)
  | SegmentOverrideChannel channel axes =>
      (SegmentCellsWorker.override_segmentation_channel w channel axes).2
  end.

Definition segment_sound (w : SegmentCellsWorker.t) : Prop :=
  chars (SegmentCellsWorker.axes w) `sublist_of` ordered
  ∧ ∀ ch, SegmentCellsWorker.segmentation_channel w = Some ch →
          Np.ndim ch = len (SegmentCellsWorker.axes w).

Lemma segment_set_axes_sound (w : SegmentCellsWorker.t) (axes : string) :
  segment_sound w →
  segment_sound (state_after w (SegmentCellsWorker.set_axes w axes)).
Proof.
  intros Hs. unfold SegmentCellsWorker.set_axes.
  destruct (SegmentCellsWorker.check_axes w axes) as [[]|e] eqn:Hc; simpl; [|done].
  apply segment_check_axes_ok in Hc as [Hsub Hr].
  split; [done|]. simpl. intros ch Hch. symmetry. by apply Hr.
Qed.

Lemma segment_set_channel_sound (w : SegmentCellsWorker.t) (data : Np.stack) :
  segment_sound w →
  segment_sound (state_after w (SegmentCellsWorker.set_segmentation_channel w data)).
Proof.
  intros [Hax Hrank]. unfold SegmentCellsWorker.set_segmentation_channel.
  destruct (Nat.eqb_spec (Np.ndim data) (len (SegmentCellsWorker.axes w)))
    as [Heq|Hne]; cbn [negb state_after]; [|done].
  split; [done|]. cbn. by intros ch [= <-].
Qed.

Lemma segment_exec_sound w c : segment_sound w → segment_sound (segment_exec w c).
Proof.
  intros Hs. destruct c; cbn [segment_exec].
  - by apply segment_set_axes_sound.
  - by apply segment_set_channel_sound.
  - unfold SegmentCellsWorker.override_segmentation_channel.
    set (w0 := {| SegmentCellsWorker.axes := SegmentCellsWorker.axes w;
                  SegmentCellsWorker.segmentation_channel := None |}).
    assert (segment_sound w0) as Hs0 by (destruct Hs; by split).
    pose proof (segment_set_axes_sound w0 axes Hs0) as Hs1.
    destruct (SegmentCellsWorker.set_axes w0 axes) as [w1|e]; cbn [state_after] in Hs1;
      [|done].
    pose proof (segment_set_channel_sound w1 channel Hs1) as Hs2.
    destruct (SegmentCellsWorker.set_segmentation_channel w1 channel) as [w2|e];
      cbn [state_after] in Hs2; done.
Qed.

Lemma segment_setters_sound (calls : list segment_call) :
  segment_sound (foldl segment_exec SegmentCellsWorker.init calls).
Proof.
  assert (segment_sound SegmentCellsWorker.init) as Hinit.
  { split; [|done]. simpl.
    unfold ordered. apply sublist_skip, sublist_cons, sublist_skip, sublist_skip.
    constructor. }
  revert Hinit. generalize SegmentCellsWorker.init.
  induction calls as [|c calls IH]; intros w Hw; [done|].
  simpl. apply IH. by apply segment_exec_sound.
Qed.

(** In a string accepted by the validator the letter T, when there,
    comes first. *)
Lemma sublist_time_first (l : list ascii) :
  l `sublist_of` ordered → "T"%char ∈ l → index "T"%char l = Some 0.
Proof.
  unfold ordered. intros Hsub Hin.
  apply sublist_cons_r in Hsub as [Hsub|(l' & -> & _)].
  - apply (sublist_subseteq _ _ Hsub) in Hin. exfalso.
    repeat (apply elem_of_cons in Hin as [?|Hin]; [done|]).
    by apply elem_of_nil in Hin.
  - cbn [index]. by rewrite decide_True.
Qed.

(** The loop over the frames of a stack, reading one frame per turn, is
    the loop over the frames themselves. *)
Lemma mapM_frames {A B} (g : A → result B) (pre l : list A) :
  mapM (fun t => x ← Np.getitem (pre ++ l)%list (Z.of_nat t); g x)
       (seq (List.length pre) (List.length l))
  = mapM g l.
Proof.
  revert pre. induction l as [|x l IH]; intros pre; [done|].
  cbn [List.length seq mapM].
  destruct (RelabelFacts.getitem_nat (pre ++ x :: l)%list (List.length pre) x) as [-> _].
  { by apply list_lookup_middle. }
  cbn [mbind result_bind Py.bind].
  specialize (IH (pre ++ [x])%list). rewrite <- app_assoc in IH. cbn [app] in IH.
  rewrite length_app in IH. cbn [List.length] in IH.
  replace (List.length pre + 1)%nat with (S (List.length pre)) in IH by lia.
  by rewrite IH.
Qed.

Lemma mapM_result_length {A B} (g : A → result B) (l : list A) (k : list B) :
  mapM g l = Ok k → List.length k = List.length l.
Proof.
  revert k. induction l as [|x l IH]; intros k; cbn [mapM].
  - by intros [= <-].
  - destruct (g x) as [y|e]; cbn [mbind result_bind Py.bind]; [|done].
    destruct (mapM g l) as [k'|e]; cbn [mbind result_bind Py.bind mret result_ret];
      [|done].
    intros [= <-]. cbn [List.length]. f_equal. by apply IH.
Qed.

Section Inference.

Variable float : Type.
Variable model : Type.
Variable logger_setup : result unit.
Variable CellposeModel : bool → string → result model.
Variable model_eval :
  model → list nat → list Z → bool → Z → float → result (list Z).

Abbreviation run :=
  (SegmentCellsWorker.run float model logger_setup CellposeModel model_eval).

(** X6.  Whatever setters bound the axes and the channel of the
    segmentation worker since [__init__], and whatever its other settings,
    [run] on a bound channel of at least two axes does this and nothing
    else: it sets up the logger, builds the model from [use_gpu] and
    [model_name], and calls [model.eval] with [do_3D], [objs_diameter] and
    [anisotropy], once per frame of the channel and in the order of the
    frames when the axes hold T, once on the whole channel when they do
    not.  The first of these calls that raises makes [run] raise the same
    exception; when all of them return, [run] returns their masks, one per
    frame under T.  Reading the frames never raises: the frame count is
    read at the position of T in the axis string while the frames are
    taken along the first axis, and the validator makes the two agree. *)
Theorem run_segments_every_frame (calls : list segment_call)
    (s : SegmentCellsWorker.settings float) (ch : Np.stack) :
  let w := foldl segment_exec SegmentCellsWorker.init calls in
  let eval := fun m shape cells =>
    model_eval m shape cells (SegmentCellsWorker.do_3D w)
               (SegmentCellsWorker.objs_diameter s)
               (SegmentCellsWorker.anisotropy s) in
  SegmentCellsWorker.segmentation_channel w = Some ch →
  (2 <= len (SegmentCellsWorker.axes w))%nat →
  run s w
  = (_ ← logger_setup;
     m ← CellposeModel (SegmentCellsWorker.use_gpu s)
                       (SegmentCellsWorker.model_name s);
     if SegmentCellsWorker.has_time w then
       mapM (fun cells => eval m (Np.frame_shape ch) cells) (Np.frames ch)
     else
       masks ← eval m (SegmentCellsWorker.shape ch) (concat (Np.frames ch));
       Ok [masks])
  ∧ ∀ all_masks, run s w = Ok all_masks →
      List.length all_masks
      = if SegmentCellsWorker.has_time w then List.length (Np.frames ch)
        else 1%nat.
Proof.
  intros w eval Hch Hlen.
  destruct (segment_setters_sound calls) as [Hsub _]. fold w in Hsub.
  assert (run s w
          = (_ ← logger_setup;
             m ← CellposeModel (SegmentCellsWorker.use_gpu s)
                               (SegmentCellsWorker.model_name s);
             if SegmentCellsWorker.has_time w then
               mapM (fun cells => eval m (Np.frame_shape ch) cells) (Np.frames ch)
             else
               masks ← eval m (SegmentCellsWorker.shape ch) (concat (Np.frames ch));
               Ok [masks])) as Hrun.
  { unfold SegmentCellsWorker.run. rewrite Hch.
    destruct (Nat.ltb_spec (len (SegmentCellsWorker.axes w)) 2) as [?|_]; [lia|].
    destruct logger_setup as [[]|e]; cbn [mbind result_bind Py.bind]; [|done].
    destruct (CellposeModel _ _) as [m|e]; cbn [mbind result_bind Py.bind]; [|done].
    unfold SegmentCellsWorker.inference, SegmentCellsWorker.inference_frame.
    destruct (SegmentCellsWorker.has_time w) eqn:Ht.
    - unfold SegmentCellsWorker.has_time in Ht. apply bool_decide_eq_true in Ht.
      rewrite (sublist_time_first _ Hsub Ht). cbn [Z.to_nat].
      unfold SegmentCellsWorker.shape. cbn [lookup list_lookup from_option].
      cbn [mbind result_bind Py.bind].
      apply (mapM_frames (fun cells => eval m (Np.frame_shape ch) cells)
                         [] (Np.frames ch)).
    - cbn [mbind result_bind Py.bind seq mapM]. unfold eval.
      destruct (model_eval m _ _ _ _ _) as [masks|e]; done. }
  split; [exact Hrun|]. intros all_masks. rewrite Hrun.
  destruct logger_setup as [[]|e]; cbn [mbind result_bind Py.bind]; [|done].
  destruct (CellposeModel _ _) as [m|e]; cbn [mbind result_bind Py.bind]; [|done].
  destruct (SegmentCellsWorker.has_time w).
  - apply mapM_result_length.
  - destruct (eval m _ _) as [masks|e]; cbn [mbind result_bind Py.bind]; [|done].
    by intros [= <-].
Qed.

End Inference.

(** Two calls that bind a stack of two 2x2 frames under "TYX", and an
    engine whose weights are at hand for the model "cyto3" only and whose
    masks mark the cells above zero. *)
Definition bind_two_frames : list segment_call :=
  [SegmentSetAxes "TYX"; SegmentSetChannel AxesFacts.two_frames].
Definition load_cyto3 (gpu : bool) (name : string) : result unit :=
  if String.eqb name "cyto3" then Ok tt else Raise (LibraryError "URLError").
Definition mark_positive (m : unit) (shape : list nat) (cells : list Z)
    (do_3D : bool) (diameter : Z) (anisotropy : Q) : result (list Z) :=
  Ok ((fun v => if 0 <? v then 1 else 0) <$> cells).

Lemma run_segments_every_frame_witness :
  SegmentCellsWorker.run Q unit (Ok tt) load_cyto3 mark_positive
    (SegmentCellsWorker.default_settings (inject_Z 1))
    (foldl segment_exec SegmentCellsWorker.init bind_two_frames)
  = Ok [[1; 0; 0; 1]; [1; 0; 0; 1]].
Proof.
  destruct (run_segments_every_frame Q unit (Ok tt) load_cyto3 mark_positive
              bind_two_frames (SegmentCellsWorker.default_settings (inject_Z 1))
              AxesFacts.two_frames) as [Hrun _].
  - reflexivity.
  - vm_compute. lia.
  - rewrite Hrun. reflexivity.
Defined.

End BindingFacts.

(* ================================================================== *)
(** * The tracking pipeline, step after step *)
(* ================================================================== *)

Module TrackingFacts.
Import TrackCellsWorker PruningFacts PairingFacts.
Local Close Scope string_scope.

(** ** Tables whose tracks are all complete *)

(** Every track of the table has a row at frame [last]. *)
Definition complete (tbl : list Row.t) (last : Z) : Prop :=
  ∀ r, r ∈ tbl → reaches tbl last (Row.particle r).

Lemma filter_complete (tbl : list Row.t) (last : Z) :
  complete (filter (fun r => reaches tbl last (Row.particle r)) tbl) last.
Proof.
  intros r Hr. apply reaches_filter.
  by apply list_elem_of_filter in Hr as [? _].
Qed.

Lemma rewritten_complete (f : Z → Z) (tbl : list Row.t) (last : Z) :
  complete tbl last → complete (rewritten f tbl) last.
Proof.
  intros Hc r' Hr'. unfold rewritten in Hr'.
  apply list_elem_of_fmap in Hr' as (r & -> & Hr).
  apply Hc, reaches_iff in Hr as (r0 & Hr0 & Hp & Hf).
  apply reaches_iff. exists (Row.with_particle (f (Row.particle r0)) r0).
  split; [|split].
  - apply list_elem_of_fmap. by exists r0.
  - simpl. by rewrite Hp.
  - done.
Qed.

Lemma with_linked_same (w : t) (tbl : list Row.t) :
  linked w = Some tbl → with_linked (Some tbl) w = w.
Proof. intros H. destruct w. simpl in *. by subst. Qed.

Lemma filter_all {A} (P : A → Prop) `{∀ x, Decision (P x)} (l : list A) :
  (∀ x, x ∈ l → P x) → filter P l = l.
Proof.
  induction l as [|x l IH]; intros Hall; [done|].
  rewrite filter_cons, decide_True by (apply Hall; left).
  rewrite IH; [done|]. intros y Hy. apply Hall. by right.
Qed.

(** On a table of complete tracks the pruning changes nothing. *)
Lemma isolate_complete (w : t) (tbl : list Row.t) (lm : Np.stack) :
  linked w = Some tbl → label_maps w = Some lm →
  head (chars (axes w)) = Some "T"%char →
  complete tbl (Np.shape0 lm - 1) →
  isolate_full_tracks w = Ok w.
Proof.
  intros Hl Hlm Hhd Hc. rewrite (isolate_with_time w tbl lm) by done.
  rewrite filter_all by done. by rewrite with_linked_same.
Qed.

(** ** [apply_pairing] on any dict of pairs *)

(** An identity that the loop of [apply_pairing] adds to [pair_map] is
    at least the identity the loop started from, and is given to a
    member of a pair. *)
Lemma pairing_loop_fresh (items : list (Z * Z)) (pm : gmap Z Z) (n x v : Z) :
  (pairing_loop items (pm, n)).1 !! x = Some v →
  pm !! x = Some v ∨ (n <= v ∧ (x ∈ items.*1 ∨ x ∈ items.*2)).
Proof.
  revert pm n. induction items as [|[p1 p2] items IH]; intros pm n Hx; [by left|].
  cbn [pairing_loop] in Hx. rewrite !fmap_cons. cbn [fst snd].
  destruct (decide _) as [_|_].
  - destruct (IH pm n Hx) as [?|(? & [?|?])]; [by left|right..];
      (split; [done|]); [left|right]; by right.
  - destruct (IH _ _ Hx) as [Hin|(Hn & Hmem)].
    + destruct (decide (x = p2)) as [->|Hne2].
      * rewrite lookup_insert_eq in Hin. injection Hin as <-.
        right. split; [lia|]. right. left.
      * rewrite lookup_insert_ne in Hin by done.
        destruct (decide (x = p1)) as [->|Hne1].
        -- rewrite lookup_insert_eq in Hin. injection Hin as <-.
           right. split; [lia|]. left. left.
        -- rewrite lookup_insert_ne in Hin by done. by left.
    + right. split; [lia|]. destruct Hmem; [left|right]; by right.
Qed.

(** Which identities get an entry does not depend on the identity the
    loop starts from. *)
Lemma pairing_loop_dom (items : list (Z * Z)) (pm pm' : gmap Z Z) (n n' : Z) :
  dom pm = dom pm' →
  dom (pairing_loop items (pm, n)).1 = dom (pairing_loop items (pm', n')).1.
Proof.
  revert pm pm' n n'. induction items as [|[p1 p2] items IH];
    intros pm pm' n n' Hd; [done|].
  cbn [pairing_loop]. rewrite <- Hd.
  destruct (decide _) as [_|_]; [by apply IH|].
  apply IH. rewrite !dom_insert_L. by rewrite Hd.
Qed.

Lemma remap_changed (pm : gmap Z Z) (p : Z) :
  remap pm p ≠ p → pm !! p = Some (remap pm p).
Proof. unfold remap. by destruct (pm !! p). Qed.

(** What [pair_map] holds for a table and any dict of pairs. *)
Lemma pair_map_of_fresh (tbl : list Row.t) (items : list (Z * Z)) (x v : Z) :
  pair_map_of tbl items !! x = Some v →
  (x ∈ items.*1 ∨ x ∈ items.*2)
  ∧ ∀ r, r ∈ tbl → Row.particle r < v.
Proof.
  unfold pair_map_of.
  destruct (series_max (Row.particle <$> tbl)) as [m|] eqn:Hm; [|done].
  intros Hx. apply pairing_loop_fresh in Hx as [Hx|(Hv & Hmem)]; [done|].
  split; [done|]. intros r Hr.
  assert (Row.particle r <= m); [|lia].
  apply (series_max_upper _ m Hm). apply list_elem_of_fmap. eauto.
Qed.

(** X10.  [apply_pairing], whatever dict of pairs the worker holds,
    returns and touches nothing but the [particle] column of the linked
    table: as many rows, in the same order, with every other column as
    before.  A row whose identity changed carried an identity named in
    the dict, and its new identity is above every identity the table held
    before. *)
Theorem apply_pairing_rewrites_identities_only (w : t) (tbl : list Row.t) :
  linked w = Some tbl →
  ∃ tbl',
    apply_pairing w = Ok (with_linked (Some tbl') w)
    ∧ List.length tbl' = List.length tbl
    ∧ ∀ i r, tbl !! i = Some r →
        ∃ r', tbl' !! i = Some r'
              ∧ r' = Row.with_particle (Row.particle r') r
              ∧ (Row.particle r' ≠ Row.particle r →
                 (Row.particle r ∈ (pairs w).*1 ∨ Row.particle r ∈ (pairs w).*2)
                 ∧ ∀ r0, r0 ∈ tbl → Row.particle r0 < Row.particle r').
Proof.
  intros Hl. eexists. split; [by apply apply_pairing_spec|].
  unfold rewritten. split; [by rewrite length_fmap|].
  intros i r Hr. eexists. rewrite list_lookup_fmap, Hr. split; [done|].
  split; [done|]. cbn [Row.particle Row.with_particle].
  intros Hch. apply remap_changed in Hch. by apply pair_map_of_fresh in Hch.
Qed.

(** X11.  When the dict of pairs names identities of the linked table
    only, as the dict left by [make_pairs] does, a second [apply_pairing]
    changes nothing more. *)
Theorem apply_pairing_twice (w : t) (tbl : list Row.t) :
  linked w = Some tbl →
  (∀ x y, (x, y) ∈ pairs w →
     x ∈ Row.particle <$> tbl ∧ y ∈ Row.particle <$> tbl) →
  ∃ w1, apply_pairing w = Ok w1 ∧ apply_pairing w1 = Ok w1.
Proof.
  intros Hl Hnamed.
  set (pm := pair_map_of tbl (pairs w)).
  set (tbl1 := rewritten (remap pm) tbl).
  set (w1 := with_linked (Some tbl1) w).
  exists w1. split; [by apply apply_pairing_spec|].
  rewrite (apply_pairing_spec w1 tbl1 eq_refl).
  change (pairs w1) with (pairs w).
  set (pm1 := pair_map_of tbl1 (pairs w)).
  assert (dom pm1 ⊆ dom pm) as Hdom.
  { unfold pm1, pm, pair_map_of, tbl1, rewritten.
    rewrite <- list_fmap_compose.
    destruct tbl as [|r0 tbl0]; [done|]. cbn [fmap list_fmap series_max].
    by rewrite (pairing_loop_dom (pairs w) ∅ ∅ _
                  (foldr Z.max (Row.particle r0) (Row.particle <$> tbl0) + 1)). }
  assert (∀ x, x ∈ dom pm → x ∈ Row.particle <$> tbl) as Hkeys.
  { intros x [v Hv]%elem_of_dom. apply pair_map_of_fresh in Hv as [Hmem _].
    destruct Hmem as [Hx|Hx]; apply list_elem_of_fmap in Hx as ([a b] & -> & Hab);
      by destruct (Hnamed a b Hab). }
  assert (rewritten (remap pm1) tbl1 = tbl1) as ->; [|done].
  unfold rewritten. rewrite <- (list_fmap_id tbl1) at 2.
  apply list_fmap_ext. intros _ r1 Hr1%list_elem_of_lookup_2.
  assert (pm1 !! Row.particle r1 = None) as Hnone.
  { apply not_elem_of_dom. intros Hin%Hdom.
    unfold tbl1, rewritten in Hr1.
    apply list_elem_of_fmap in Hr1 as (r & -> & Hr). simpl in Hin.
    destruct (decide (remap pm (Row.particle r) = Row.particle r)) as [Heq|Hch].
    - rewrite Heq in Hin. apply elem_of_dom in Hin as [v Hv].
      assert (remap pm (Row.particle r) = v) as Hv' by (unfold remap; by rewrite Hv).
      apply pair_map_of_fresh in Hv as [_ Hlt]. specialize (Hlt r Hr). lia.
    - apply remap_changed, pair_map_of_fresh in Hch as [_ Hlt].
      apply Hkeys, list_elem_of_fmap in Hin as (r0 & Hr0 & Hin).
      specialize (Hlt r0 Hin). lia. }
  unfold remap. rewrite Hnone. apply with_particle_same.
Qed.

Section Pipeline.

Variable within_reach : Row.t → Row.t → bool.

(** X7.  Pruning, then pairing: under a leading time axis
    [isolate_full_tracks], [make_pairs] and [apply_pairing] return one
    after the other, and in the table they leave every track still has a
    row at the last frame, so that a further [isolate_full_tracks] changes
    nothing: the rows are those of the complete tracks of the input, in
    their order, with their identities rewritten. *)
Theorem pairing_keeps_tracks_complete (w : t) (tbl : list Row.t) (lm : Np.stack) :
  linked w = Some tbl →
  label_maps w = Some lm →
  head (chars (axes w)) = Some "T"%char →
  let last := Np.shape0 lm - 1 in
  let kept := filter (fun r => reaches tbl last (Row.particle r)) tbl in
  ∃ w1 w2 w3 (f : Z → Z),
    isolate_full_tracks w = Ok w1
    ∧ make_pairs within_reach w1 = Ok w2
    ∧ apply_pairing w2 = Ok w3
    ∧ linked w3 = Some (rewritten f kept)
    ∧ complete (rewritten f kept) last
    ∧ isolate_full_tracks w3 = Ok w3.
Proof.
  intros Hl Hlm Hhd last kept.
  set (w1 := with_linked (Some kept) w).
  assert (isolate_full_tracks w = Ok w1) as H1 by (by apply isolate_with_time).
  destruct (make_pairs_spec within_reach w1 kept lm) as (vp & H2 & _); [done..|].
  set (w2 := with_pairs vp w1) in *.
  pose proof (apply_pairing_spec w2 kept eq_refl) as H3.
  set (f := remap (pair_map_of kept (pairs w2))) in *.
  set (w3 := with_linked (Some (rewritten f kept)) w2) in *.
  assert (complete (rewritten f kept) last) as Hc
    by apply rewritten_complete, filter_complete.
  exists w1, w2, w3, f. repeat (split; [done|]).
  by apply (isolate_complete w3 (rewritten f kept) lm).
Qed.

(** ** The graph of the last frame and its exploration *)

(** X12.  On rows of distinct tracks, the two nested loops of
    [make_pairs] return an adjacency dict without [KeyError], and the
    exploration started from any track of them terminates.  The set it
    returns holds the start, is closed under the distance test, and is
    the smallest such set; it holds tracks of the rows only. *)
Theorem exploration_finds_component (pts : list Row.t) (p : Z) :
  NoDup (Row.particle <$> pts) →
  p ∈ Row.particle <$> pts →
  ∃ adj c,
    build_adjacency within_reach pts (empty_adjacency (Row.particle <$> pts))
    = Ok adj
    ∧ explore (explore_fuel adj) adj [p] ∅ = Ok c
    ∧ p ∈ c
    ∧ (∀ x y, x ∈ c → edge within_reach pts x y → y ∈ c)
    ∧ (∀ s : gset Z,
         p ∈ s → (∀ x y, x ∈ s → edge within_reach pts x y → y ∈ s) → c ⊆ s)
    ∧ (∀ x, x ∈ c → x ∈ Row.particle <$> pts).
Proof.
  intros Hnd Hp.
  destruct (build_adjacency_graph within_reach pts Hnd)
    as (adj & Hb & Hkeys & Hedge & Hg).
  destruct (explore_component adj p Hg) as (c & Hc & Hcomp); [by apply Hkeys|].
  exists adj, c. split; [done|]. split; [done|].
  split; [apply Hcomp; constructor|]. split; [|split].
  - intros x y Hx Hxy. apply Hcomp. eapply rtc_r; [by apply Hcomp|].
    by apply Hedge.
  - intros s Hps Hclosed x Hx. apply Hcomp in Hx. revert x Hx.
    apply rtc_ind_r; [done|]. intros y z _ Hyz IH.
    eapply Hclosed; [exact IH|]. by apply Hedge.
  - intros x Hx. apply Hkeys. eapply connected_dom; [done| |by apply Hcomp].
    by apply Hkeys.
Qed.

(** ** What can go wrong in the relabeling *)

Lemma relabel_rows_outcome (pol : Np.overflow) (lab : list Z) (g : list Row.t)
    (out_t : list Z) :
  (∃ o, relabel_rows pol lab g out_t = Ok o)
  ∨ relabel_rows pol lab g out_t = Raise OverflowError.
Proof.
  revert out_t. induction g as [|r g IH]; intros out_t; [left; by eexists|].
  cbn [relabel_rows]. unfold relabel_row.
  destruct (decide (Row.orig_label r = 0)); [apply IH|].
  unfold Np.to_uint16.
  destruct ((0 <=? Row.particle r) && (Row.particle r <? 65536));
    [apply IH|].
  destruct pol; [apply IH|by right].
Qed.

Lemma getitem_outcome {A} (l : list A) (i : Z) :
  (∃ x, Np.getitem l i = Ok x) ∨ Np.getitem l i = Raise IndexError.
Proof.
  unfold Np.getitem. destruct (_ && _); [|by right].
  destruct (l !! _); [left; by eexists|by right].
Qed.

Lemma relabel_groups_outcome (pol : Np.overflow) (lm : Np.stack)
    (tbl : list Row.t) (keys : list Z) (out : list (list Z)) :
  (∃ out', relabel_groups pol lm tbl keys out = Ok out')
  ∨ relabel_groups pol lm tbl keys out = Raise IndexError
  ∨ relabel_groups pol lm tbl keys out = Raise OverflowError.
Proof.
  revert out. induction keys as [|k keys IH]; intros out; [left; by eexists|].
  cbn [relabel_groups].
  destruct (getitem_outcome (Np.frames lm) k) as [[lab ->]| ->]; [|by right; left].
  destruct (getitem_outcome out k) as [[out_t ->]| ->]; [|by right; left].
  cbn [mbind result_bind Py.bind].
  destruct (relabel_rows_outcome pol lab (rows_of_frame k tbl) out_t)
    as [[o ->]| ->]; [|by right; right].
  apply IH.
Qed.

(** With label maps and a table, [relabel_with_tracks] returns, leaving
    everything but [tracked_labels] as it was, or raises [IndexError] or
    [OverflowError]. *)
Lemma relabel_outcome (pol : Np.overflow) (w : t) (lm : Np.stack)
    (tbl : list Row.t) :
  label_maps w = Some lm → linked w = Some tbl →
  (∃ out, relabel_with_tracks pol w = Ok (with_tracked_labels (Some out) w))
  ∨ relabel_with_tracks pol w = Raise IndexError
  ∨ relabel_with_tracks pol w = Raise OverflowError.
Proof.
  intros Hlm Hl. unfold relabel_with_tracks. rewrite Hlm, Hl.
  destruct (relabel_groups_outcome pol lm tbl (Np.unique (Row.frame <$> tbl))
              (Np.zeros_like <$> Np.frames lm)) as [[out ->]|[-> | ->]].
  - left. by eexists.
  - by right; left.
  - by right; right.
Qed.

(** ** Rows and frames in the relabeling *)

Lemma getitem_in_range {A} (l : list A) (k : Z) :
  - Z.of_nat (List.length l) <= k < Z.of_nat (List.length l) →
  ∃ x, Np.getitem l k = Ok x ∧ l !! Np.position l k = Some x
       ∧ (Np.position l k < List.length l)%nat.
Proof.
  intros Hk. unfold Np.getitem, Np.position.
  set (j := if k <? 0 then k + Z.of_nat (List.length l) else k).
  assert (0 <= j < Z.of_nat (List.length l)) as Hj.
  { unfold j. destruct (Z.ltb_spec k 0); lia. }
  destruct (Z.leb_spec 0 j); [|lia].
  destruct (Z.ltb_spec j (Z.of_nat (List.length l))); [|lia]. simpl.
  destruct (lookup_lt_is_Some_2 l (Z.to_nat j)) as [x Hx]; [lia|].
  exists x. rewrite Hx. split; [done|]. split; [done|]. lia.
Qed.

Lemma getitem_out_of_range {A} (l : list A) (k : Z) :
  ¬ (- Z.of_nat (List.length l) <= k < Z.of_nat (List.length l)) →
  Np.getitem l k = Raise IndexError.
Proof.
  intros Hk. unfold Np.getitem.
  set (j := if k <? 0 then k + Z.of_nat (List.length l) else k).
  assert (¬ 0 <= j < Z.of_nat (List.length l)) as Hj.
  { unfold j. destruct (Z.ltb_spec k 0); lia. }
  destruct (Z.leb_spec 0 j); [|done].
  destruct (Z.ltb_spec j (Z.of_nat (List.length l))); [lia|done].
Qed.

(** A frame number that indexes the stack, counted from either end. *)
Definition indexes (lm : Np.stack) (k : Z) : Prop :=
  - Np.shape0 lm <= k < Np.shape0 lm.

#[local] Instance indexes_dec lm k : Decision (indexes lm k).
Proof. unfold indexes. apply _. Defined.

Lemma relabel_groups_bounds (pol : Np.overflow) (lm : Np.stack)
    (tbl : list Row.t) (keys : list Z) (out : list (list Z)) :
  RelabelFacts.fits_uint16 tbl →
  RelabelFacts.aligned lm out →
  ((∀ k, k ∈ keys → indexes lm k) →
     ∃ out', relabel_groups pol lm tbl keys out = Ok out')
  ∧ ((∃ k, k ∈ keys ∧ ¬ indexes lm k) →
     relabel_groups pol lm tbl keys out = Raise IndexError).
Proof.
  intros Hfit. revert out. induction keys as [|k keys IH]; intros out Hal.
  { split; [by eexists|]. by intros (k & ?%elem_of_nil & _). }
  cbn [relabel_groups].
  destruct (decide (indexes lm k)) as [Hk|Hk].
  2:{ rewrite (getitem_out_of_range _ _ Hk). split; [|done].
      intros Hall. destruct Hk. apply Hall. left. }
  destruct Hal as [Hlen Hsizes].
  destruct (getitem_in_range (Np.frames lm) k Hk) as (lab & -> & Hlab & Hpos).
  destruct (getitem_in_range out k) as (out_t & -> & Hout & _).
  { rewrite Hlen. exact Hk. }
  assert (Np.position out k = Np.position (Np.frames lm) k) as Hsame.
  { unfold Np.position. by rewrite Hlen. }
  rewrite Hsame in *. cbn [mbind result_bind Py.bind].
  destruct (RelabelFacts.relabel_rows_spec pol lab (rows_of_frame k tbl) out_t)
    as (o1 & -> & Hlen1 & _).
  { intros r Hr. apply Hfit. unfold rows_of_frame in Hr.
    by apply list_elem_of_filter in Hr as [_ ?]. }
  { by eapply Hsizes. }
  cbn [mbind result_bind Py.bind].
  destruct (IH (<[Np.position (Np.frames lm) k := o1]> out)) as [Hret Hraise].
  { split; [by rewrite length_insert|].
    intros i lab' o Hlab' Ho.
    destruct (decide (i = Np.position (Np.frames lm) k)) as [->|Hne].
    - rewrite list_lookup_insert_eq in Ho by lia. congruence.
    - rewrite list_lookup_insert_ne in Ho by done. by eapply Hsizes. }
  split.
  - intros Hall. apply Hret. intros k' Hk'. apply Hall. by right.
  - intros (k' & [->|Hk']%elem_of_cons & Hbad); [done|]. apply Hraise. eauto.
Qed.

(** X13.  [relabel_with_tracks] and the frames of the rows, for
    identities that fit the output cells.  When the frame number of every
    row indexes the stack of label maps (from the front or, negative,
    from the back) the call returns; when that of some row does not, it
    raises [IndexError] and the tracked labels are not assigned.  On an
    empty stack every row is out of it. *)
Theorem relabel_needs_frames_in_stack (pol : Np.overflow) (w : t)
    (lm : Np.stack) (tbl : list Row.t) :
  label_maps w = Some lm →
  linked w = Some tbl →
  (∀ r, r ∈ tbl → Row.orig_label r ≠ 0 → 0 <= Row.particle r < 65536) →
  ((∀ r, r ∈ tbl → indexes lm (Row.frame r)) →
     ∃ out, relabel_with_tracks pol w = Ok (with_tracked_labels (Some out) w))
  ∧ ((∃ r, r ∈ tbl ∧ ¬ indexes lm (Row.frame r)) →
     relabel_with_tracks pol w = Raise IndexError
     ∧ state_after w (relabel_with_tracks pol w) = w).
Proof.
  intros Hlm Hl Hfit. unfold relabel_with_tracks. rewrite Hlm, Hl.
  destruct (relabel_groups_bounds pol lm tbl (Np.unique (Row.frame <$> tbl))
              (Np.zeros_like <$> Np.frames lm) Hfit) as [Hret Hraise].
  { split; [by rewrite length_fmap|].
    intros i lab o Hlab Ho. rewrite list_lookup_fmap, Hlab in Ho.
    injection Ho as <-. unfold Np.zeros_like. by rewrite length_fmap. }
  split.
  - intros Hall. destruct Hret as [out ->].
    { intros k Hk.
      apply RelabelFacts.unique_elem_of, list_elem_of_fmap in Hk as (r & -> & Hr).
      by apply Hall. }
    by eexists.
  - intros (r & Hr & Hbad). rewrite Hraise; [done|].
    exists (Row.frame r). split; [|done].
    apply RelabelFacts.unique_elem_of, list_elem_of_fmap. eauto.
Qed.

Lemma paint_last (g1 g2 : list Row.t) (r : Row.t) (l o : Z) :
  Row.orig_label r ≠ 0 → l = Row.orig_label r →
  (∀ r', r' ∈ g2 → Row.orig_label r' ≠ l) →
  RelabelFacts.paint (g1 ++ r :: g2) l o = Row.particle r.
Proof.
  intros Hnz Hl Hlater. unfold RelabelFacts.paint.
  rewrite foldl_app. cbn [foldl]. rewrite decide_True by done.
  apply RelabelFacts.paint_untouched. intros r' Hr' [_ Heq].
  by apply (Hlater r' Hr').
Qed.

(** X14.  When several rows of one frame carry the same original
    label, [relabel_with_tracks] leaves in the cells of that label the
    identity of the last of them in the table. *)
Theorem relabel_last_row_wins (pol : Np.overflow) (w : t) (lm : Np.stack)
    (tbl1 tbl2 : list Row.t) (r : Row.t) (t i : nat) (lab : list Z) :
  label_maps w = Some lm →
  linked w = Some (tbl1 ++ r :: tbl2) →
  (∀ r', r' ∈ tbl1 ++ r :: tbl2 → 0 <= Row.frame r' < Np.shape0 lm) →
  (∀ r', r' ∈ tbl1 ++ r :: tbl2 → Row.orig_label r' ≠ 0 →
         0 <= Row.particle r' < 65536) →
  Row.frame r = Z.of_nat t →
  Row.orig_label r ≠ 0 →
  Np.frames lm !! t = Some lab →
  lab !! i = Some (Row.orig_label r) →
  (∀ r', r' ∈ tbl2 → Row.frame r' = Z.of_nat t →
         Row.orig_label r' ≠ Row.orig_label r) →
  ∃ out o,
    relabel_with_tracks pol w = Ok (with_tracked_labels (Some out) w)
    ∧ Np.frames out !! t = Some o
    ∧ o !! i = Some (Row.particle r).
Proof.
  intros Hlm Hl Hframes Hfit Hrt Hnz Hlab Hi Hlater.
  set (tbl := tbl1 ++ r :: tbl2) in *.
  unfold relabel_with_tracks. rewrite Hlm, Hl.
  destruct (RelabelFacts.relabel_groups_spec pol lm tbl
              (Np.unique (Row.frame <$> tbl)) (Np.zeros_like <$> Np.frames lm))
    as (out' & -> & _ & Hcells); [done| | | |].
  { apply RelabelFacts.unique_NoDup. }
  { intros k Hk.
    apply RelabelFacts.unique_elem_of, list_elem_of_fmap in Hk as (r' & -> & Hr').
    by apply Hframes. }
  { split; [by rewrite length_fmap|].
    intros j lab' o Hlab' Ho. rewrite list_lookup_fmap, Hlab' in Ho.
    injection Ho as <-. unfold Np.zeros_like. by rewrite length_fmap. }
  destruct (Hcells t lab (Np.zeros_like lab) Hlab) as (o & Ho & Hc).
  { by rewrite list_lookup_fmap, Hlab. }
  eexists _, o. split; [done|]. split; [done|].
  rewrite (Hc i (Row.orig_label r) 0 Hi).
  2:{ unfold Np.zeros_like. by rewrite list_lookup_fmap, Hi. }
  rewrite decide_True.
  2:{ apply RelabelFacts.unique_elem_of, list_elem_of_fmap. exists r.
      split; [done|]. unfold tbl. apply elem_of_app. right. left. }
  f_equal. unfold tbl, rows_of_frame.
  rewrite filter_app, filter_cons, decide_True by done.
  apply paint_last; [done..|].
  intros r' Hr'. apply list_elem_of_filter in Hr' as [Hf Hin]. by apply Hlater.
Qed.

(** ** [run] *)

Variable detect_and_link : Np.stack → settings → result (list Row.t).

Abbreviation run := (TrackCellsWorker.run within_reach detect_and_link).

Lemma rewritten_id (tbl : list Row.t) : rewritten (fun p => p) tbl = tbl.
Proof.
  unfold rewritten. rewrite <- (list_fmap_id tbl) at 2.
  apply list_fmap_ext. intros _ r _. apply with_particle_same.
Qed.

(** The last step of [run], from a worker [w3] that holds the final
    table. *)
Lemma run_last_step (pol : Np.overflow) (w3 : t) (lm : Np.stack)
    (final : list Row.t) :
  label_maps w3 = Some lm → linked w3 = Some final →
  let after := match relabel_with_tracks pol w3 with
               | Raise e => (Raise e, w3)
               | Ok w4 => (Ok tt, w4)
               end in
  linked after.2 = Some final ∧ label_maps after.2 = Some lm
  ∧ axes after.2 = axes w3 ∧ pairs after.2 = pairs w3
  ∧ (after.1 = Ok tt ∨ after.1 = Raise IndexError
     ∨ after.1 = Raise OverflowError).
Proof.
  intros Hlm Hl.
  destruct (relabel_outcome pol w3 lm final Hlm Hl) as [[out ->]|[-> | ->]];
    simpl; repeat (split; [done|]); tauto.
Qed.

(** X8.  [run] with [remove_incomplete] set, on label maps with a
    leading time axis; the label maps and the axes are as before whatever
    happens.  When the detection or the linking raises, [run] raises the
    same exception.  When they return a table then, whether
    [merge_neighbors] is set or not and whether the final relabeling
    returns or raises, the linked table left in the worker holds the rows
    of the tracks that the linking brought up to the last frame, in their
    order, with identities rewritten by the pairing (not at all without
    [merge_neighbors]); every track of it has a row at the last frame;
    and nothing but the relabeling can raise: the outcome is a return, an
    [IndexError] or an [OverflowError]. *)
Theorem run_keeps_complete_tracks (pol : Np.overflow) (w : t) (s : settings)
    (lm : Np.stack) :
  label_maps w = Some lm →
  head (chars (axes w)) = Some "T"%char →
  remove_incomplete s = true →
  let last := Np.shape0 lm - 1 in
  let after := run pol w s in
  label_maps after.2 = Some lm
  ∧ axes after.2 = axes w
  ∧ match detect_and_link lm s with
    | Raise e => after.1 = Raise e
    | Ok tbl =>
        let kept := filter (fun r => reaches tbl last (Row.particle r)) tbl in
        ∃ f : Z → Z,
          linked after.2 = Some (rewritten f kept)
          ∧ complete (rewritten f kept) last
          ∧ (merge_neighbors s = false → rewritten f kept = kept)
          ∧ (after.1 = Ok tt ∨ after.1 = Raise IndexError
             ∨ after.1 = Raise OverflowError)
    end.
Proof.
  intros Hlm Hhd Hri last after.
  unfold after, TrackCellsWorker.run. rewrite Hlm.
  destruct (detect_and_link lm s) as [tbl|e]; [|done].
  rewrite Hri.
  set (kept := filter (fun r => reaches tbl last (Row.particle r)) tbl).
  set (w1 := with_linked (Some tbl) w).
  rewrite (isolate_with_time w1 tbl lm) by done.
  fold last. fold kept. set (w2 := with_linked (Some kept) w1).
  destruct (merge_neighbors s) eqn:Hmn.
  - unfold merge_step.
    destruct (make_pairs_spec within_reach w2 kept lm) as (vp & -> & _);
      [done..|].
    set (w2' := with_pairs vp w2).
    rewrite (apply_pairing_spec w2' kept eq_refl).
    set (f := remap (pair_map_of kept (pairs w2'))).
    set (w3 := with_linked (Some (rewritten f kept)) w2').
    destruct (run_last_step pol w3 lm (rewritten f kept) Hlm eq_refl)
      as (Hl' & Hlm' & Hax' & _ & Hout).
    split; [done|]. split; [done|]. exists f. split; [done|].
    split; [apply rewritten_complete, filter_complete|].
    split; [done|]. done.
  - destruct (run_last_step pol w2 lm kept Hlm eq_refl)
      as (Hl' & Hlm' & Hax' & _ & Hout).
    split; [done|]. split; [done|].
    exists (fun p => p). rewrite rewritten_id.
    split; [done|]. split; [apply filter_complete|].
    split; [done|]. done.
Qed.

Lemma make_pairs_no_time (w : t) (tbl : list Row.t) :
  linked w = Some tbl → axes0_is_not_T w = Ok true →
  make_pairs within_reach w = Ok (with_pairs [] w).
Proof.
  intros Hl Hnt. unfold make_pairs. rewrite Hl.
  assert (axes0_is_not_T (with_pairs [] w) = Ok true) as -> by exact Hnt.
  done.
Qed.

Lemma apply_pairing_no_pairs (w : t) (tbl : list Row.t) :
  linked w = Some tbl → pairs w = [] → apply_pairing w = Ok w.
Proof.
  intros Hl Hp. unfold apply_pairing. rewrite Hl, Hp.
  by rewrite decide_True.
Qed.

(** X9.  [run] on label maps whose axis string does not begin with T
    (and is not empty); the label maps and the axes are as before
    whatever happens.  When the detection or the linking raises, [run]
    raises the same exception.  When they return a table, neither switch
    has any effect on it: it is left as the linking returned it; with
    [merge_neighbors] the dict of pairs is emptied; and nothing but the
    relabeling can raise. *)
Theorem run_without_time_axis (pol : Np.overflow) (w : t) (s : settings)
    (lm : Np.stack) :
  label_maps w = Some lm →
  head (chars (axes w)) ≠ Some "T"%char →
  chars (axes w) ≠ [] →
  let after := run pol w s in
  label_maps after.2 = Some lm
  ∧ axes after.2 = axes w
  ∧ match detect_and_link lm s with
    | Raise e => after.1 = Raise e
    | Ok tbl =>
        linked after.2 = Some tbl
        ∧ pairs after.2 = (if merge_neighbors s then [] else pairs w)
        ∧ (after.1 = Ok tt ∨ after.1 = Raise IndexError
           ∨ after.1 = Raise OverflowError)
    end.
Proof.
  intros Hlm Hhd Hne after.
  unfold after, TrackCellsWorker.run. rewrite Hlm.
  destruct (detect_and_link lm s) as [tbl|e]; [|done].
  set (w1 := with_linked (Some tbl) w).
  assert (isolate_full_tracks w1 = Ok w1) as Hiso.
  { by destruct (isolate_without_time w1 tbl eq_refl Hhd) as (_ & H & _); apply H. }
  assert ((if remove_incomplete s then isolate_full_tracks w1 else Ok w1) = Ok w1)
    as -> by (by destruct (remove_incomplete s)).
  assert (axes0_is_not_T w1 = Ok true) as Hnt.
  { unfold axes0_is_not_T. change (axes w1) with (axes w).
    destruct (chars (axes w)) as [|a0 rest]; [done|].
    destruct (Ascii.eqb_spec a0 "T") as [->|_]; [by destruct Hhd|done]. }
  destruct (merge_neighbors s).
  - unfold merge_step.
    rewrite (make_pairs_no_time w1 tbl eq_refl Hnt).
    rewrite (apply_pairing_no_pairs (with_pairs [] w1) tbl eq_refl eq_refl).
    destruct (run_last_step pol (with_pairs [] w1) lm tbl Hlm eq_refl)
      as (Hl' & Hlm' & Hax' & Hp' & Hout).
    done.
  - destruct (run_last_step pol w1 lm tbl Hlm eq_refl)
      as (Hl' & Hlm' & Hax' & Hp' & Hout).
    done.
Qed.

End Pipeline.

(** ** The three tracks of [PruningFacts] through the pipeline *)

(** The three tracks when the tracks 1 and 3 were put in a pair. *)
Definition paired_1_3 : t :=
  with_pairs [(1, 3); (3, 1)] PruningFacts.three_tracks_worker.

(** The track 2 stops before the last frame; the tracks 1 and 3 sit at
    the same place of it, and end with the identity 4. *)
Lemma pairing_keeps_tracks_complete_witness :
  ∃ w1 w2 w3,
    isolate_full_tracks PruningFacts.three_tracks_worker = Ok w1
    ∧ make_pairs within_reach_exact w1 = Ok w2
    ∧ apply_pairing w2 = Ok w3
    ∧ isolate_full_tracks w3 = Ok w3
    ∧ option_map (map Row.particle) (linked w3) = Some [4; 4; 4].
Proof.
  destruct (pairing_keeps_tracks_complete within_reach_exact
              PruningFacts.three_tracks_worker PruningFacts.three_tracks
              PruningFacts.two_frames eq_refl eq_refl eq_refl)
    as (w1 & w2 & w3 & f & H1 & H2 & H3 & _ & _ & H5).
  exists w1, w2, w3. split; [exact H1|]. split; [exact H2|].
  split; [exact H3|]. split; [exact H5|].
  vm_compute in H1. injection H1 as <-.
  vm_compute in H2. injection H2 as <-.
  vm_compute in H3. injection H3 as <-.
  reflexivity.
Defined.

(** Two frames of 3x5 cells, no label on the border: the cell of the
    label 1 stays where it is, the cell of the label 2 is in the first
    frame only. *)
Definition two_cells : Np.stack :=
  {| Np.frame_shape := [3; 5]%nat;
     Np.frames := [[0; 0; 0; 0; 0;
                    0; 1; 0; 2; 0;
                    0; 0; 0; 0; 0];
                   [0; 0; 0; 0; 0;
                    0; 1; 0; 0; 0;
                    0; 0; 0; 0; 0]] |}.

(** The row of a region of one cell, at column [x] of row 1. *)
Definition cell_row (frame : Z) (x : Q) (label track : Z) : Row.t :=
  {| Row.frame := frame; Row.x := x; Row.y := 1; Row.size := 1;
     Row.orig_label := label; Row.diameter := 0; Row.particle := track |}.

(** A detection and a linking that return the three regions of the two
    frames, the two regions of the label 1 in one track. *)
Definition two_cells_linked : list Row.t :=
  [cell_row 0 1 1 1; cell_row 0 3 2 2; cell_row 1 1 1 1].
Definition link_two_cells (lm : Np.stack) (s : settings)
    : result (list Row.t) :=
  Ok two_cells_linked.

Definition both_switches : settings :=
  set_remove_incomplete (set_merge_neighbors default_settings true) true.
Definition two_frames_bound : t :=
  with_label_maps (Some PruningFacts.two_frames) init.
Definition two_cells_bound : t := with_label_maps (Some two_cells) init.

(** The track 2 stops before the last frame: its row is pruned and its
    cell is not relabelled. *)
Lemma run_keeps_complete_tracks_witness :
  let after := TrackCellsWorker.run within_reach_exact link_two_cells
                 Np.Raises two_cells_bound both_switches in
  ∃ final,
    linked after.2 = Some final
    ∧ complete final 1
    ∧ Row.particle <$> final = [1; 1]
    ∧ after.1 = Ok tt
    ∧ tracked_labels after.2
      = Some {| Np.frame_shape := [3; 5]%nat;
                Np.frames := [[0; 0; 0; 0; 0;
                               0; 1; 0; 0; 0;
                               0; 0; 0; 0; 0];
                              [0; 0; 0; 0; 0;
                               0; 1; 0; 0; 0;
                               0; 0; 0; 0; 0]] |}.
Proof.
  intros after.
  destruct (run_keeps_complete_tracks within_reach_exact link_two_cells
              Np.Raises two_cells_bound both_switches two_cells
              eq_refl eq_refl eq_refl)
    as (_ & _ & f & Hl & Hc & _).
  assert (linked after.2 = Some [cell_row 0 1 1 1; cell_row 1 1 1 1]) as Hfinal
    by (vm_compute; reflexivity).
  eexists. split; [exact Hfinal|]. split.
  - fold after in Hl. rewrite Hfinal in Hl.
    apply (inj Some) in Hl. rewrite Hl. exact Hc.
  - split; [reflexivity|]. split; vm_compute; reflexivity.
Defined.

(** The same stack read as the planes of a volume, under "ZYX". *)
Definition two_planes_bound : t :=
  with_label_maps (Some two_cells) (with_axes "ZYX" init).

Lemma run_without_time_axis_witness :
  let after := TrackCellsWorker.run within_reach_exact link_two_cells
                 Np.Raises two_planes_bound both_switches in
  linked after.2 = Some two_cells_linked
  ∧ pairs after.2 = []
  ∧ after.1 = Ok tt.
Proof.
  intros after.
  destruct (run_without_time_axis within_reach_exact link_two_cells
              Np.Raises two_planes_bound both_switches two_cells
              eq_refl ltac:(discriminate) ltac:(discriminate))
    as (_ & _ & Hl & Hp & _).
  split; [exact Hl|]. split; [exact Hp|]. vm_compute. reflexivity.
Defined.

(** With the pair of 1 and 3 the row of the track 2 keeps its identity. *)
Lemma apply_pairing_rewrites_identities_only_witness :
  ∃ tbl' r',
    apply_pairing paired_1_3 = Ok (with_linked (Some tbl') paired_1_3)
    ∧ List.length tbl' = 4%nat
    ∧ tbl' !! 1%nat = Some r'
    ∧ Row.particle r' = 2.
Proof.
  destruct (apply_pairing_rewrites_identities_only paired_1_3
              PruningFacts.three_tracks eq_refl)
    as (tbl' & Hrun & Hlen & Hrows).
  destruct (Hrows 1%nat (PruningFacts.detection 0 2) eq_refl)
    as (r' & Hr' & _ & Hch).
  exists tbl', r'. split; [exact Hrun|]. split; [exact Hlen|].
  split; [exact Hr'|].
  destruct (decide (Row.particle r' = 2)) as [Heq|Hne]; [exact Heq|].
  destruct (Hch Hne) as [[Hk|Hv] _]; exfalso.
  - repeat (apply elem_of_cons in Hk as [Hk|Hk]; [discriminate Hk|]).
    by apply elem_of_nil in Hk.
  - repeat (apply elem_of_cons in Hv as [Hv|Hv]; [discriminate Hv|]).
    by apply elem_of_nil in Hv.
Defined.

Lemma apply_pairing_twice_witness :
  ∃ w1, apply_pairing paired_1_3 = Ok w1
        ∧ apply_pairing w1 = Ok w1
        ∧ option_map (map Row.particle) (linked w1) = Some [4; 2; 4; 4].
Proof.
  destruct (apply_pairing_twice paired_1_3 PruningFacts.three_tracks eq_refl)
    as (w1 & H1 & H2).
  - intros x y Hxy. unfold paired_1_3 in Hxy. cbn [pairs with_pairs] in Hxy.
    apply elem_of_cons in Hxy as [Hxy|Hxy].
    { injection Hxy as -> ->. split.
      - apply list_elem_of_lookup_2 with 0%nat. reflexivity.
      - apply list_elem_of_lookup_2 with 3%nat. reflexivity. }
    apply elem_of_cons in Hxy as [Hxy|Hxy].
    { injection Hxy as -> ->. split.
      - apply list_elem_of_lookup_2 with 3%nat. reflexivity.
      - apply list_elem_of_lookup_2 with 0%nat. reflexivity. }
    by apply elem_of_nil in Hxy.
  - exists w1. split; [exact H1|]. split; [exact H2|].
    vm_compute in H1. injection H1 as <-. reflexivity.
Defined.

(** In the last frame of the seven tracks the exploration started from
    the track 3 reaches the track 4, one step away. *)
Lemma exploration_finds_component_witness :
  ∃ adj c,
    build_adjacency within_reach_exact (last_points seven_tracks two_frames)
      (empty_adjacency (Row.particle <$> last_points seven_tracks two_frames))
    = Ok adj
    ∧ explore (explore_fuel adj) adj [3] ∅ = Ok c
    ∧ 3 ∈ c ∧ 4 ∈ c.
Proof.
  destruct (exploration_finds_component within_reach_exact
              (last_points seven_tracks two_frames) 3)
    as (adj & c & Hb & Hc & H3 & Hclosed & _).
  - apply drop_duplicates_NoDup.
  - apply list_elem_of_lookup_2 with 2%nat. vm_compute. reflexivity.
  - exists adj, c. split; [exact Hb|]. split; [exact Hc|]. split; [exact H3|].
    apply (Hclosed 3 4 H3). left.
    exists 2%nat, 3%nat, (spot 1 3 100), (spot 1 4 102).
    split; [lia|]. split; [vm_compute; reflexivity|].
    split; [vm_compute; reflexivity|]. split; [vm_compute; reflexivity|].
    split; reflexivity.
Defined.

(** A row in frame 2 of a stack of two frames. *)
Definition beyond_last_frame : t :=
  with_linked (Some [PruningFacts.detection 2 1]) two_frames_bound.

Lemma relabel_needs_frames_in_stack_witness :
  relabel_with_tracks Np.Raises beyond_last_frame = Raise IndexError.
Proof.
  destruct (relabel_needs_frames_in_stack Np.Raises beyond_last_frame
              PruningFacts.two_frames [PruningFacts.detection 2 1]
              eq_refl eq_refl) as [_ Hraise].
  - intros r Hr _. apply list_elem_of_singleton in Hr as ->.
    vm_compute. split; [discriminate|reflexivity].
  - apply Hraise. exists (PruningFacts.detection 2 1). split; [left|].
    intros [_ Hlt]. vm_compute in Hlt. discriminate Hlt.
Defined.

(** The label 1 of a frame linked twice, to the tracks 5 and 7. *)
Definition linked_twice : t :=
  with_linked (Some [RelabelFacts.track_of 1 5; RelabelFacts.track_of 1 7])
    (with_label_maps (Some RelabelFacts.labels_012) init).

Lemma relabel_last_row_wins_witness :
  ∃ out o,
    relabel_with_tracks Np.Raises linked_twice
    = Ok (with_tracked_labels (Some out) linked_twice)
    ∧ Np.frames out !! 0%nat = Some o
    ∧ o !! 1%nat = Some 7.
Proof.
  apply (relabel_last_row_wins Np.Raises linked_twice RelabelFacts.labels_012
           [RelabelFacts.track_of 1 5] [] (RelabelFacts.track_of 1 7)
           0%nat 1%nat [0; 1; 2; 2]).
  - reflexivity.
  - reflexivity.
  - intros r Hr.
    repeat (apply elem_of_cons in Hr as [->|Hr];
            [vm_compute; split; [discriminate|reflexivity]|]).
    by apply elem_of_nil in Hr.
  - intros r Hr _.
    repeat (apply elem_of_cons in Hr as [->|Hr];
            [vm_compute; split; [discriminate|reflexivity]|]).
    by apply elem_of_nil in Hr.
  - reflexivity.
  - discriminate.
  - reflexivity.
  - reflexivity.
  - intros r Hr. by apply elem_of_nil in Hr.
Defined.

End TrackingFacts.

(* ================================================================== *)
(** * Where the inner masks lie *)
(* ================================================================== *)

Module ErosionFacts.
Import Ndimage MeasureMembraneIntensity OutlineFacts.
Local Close Scope string_scope.

(** ** One pass, and several *)

(** A cell that survives one pass has, along every axis, both
    neighbours inside the array and set. *)
Lemma erode1_neighbours shape m i d s :
  cell (erode1 shape m) i = true →
  (d, s) ∈ zip shape (strides shape) →
  (1 <= (i / s) mod d)%nat ∧ ((i / s) mod d + 1 < d)%nat
  ∧ cell m (i - s) = true ∧ cell m (i + s) = true.
Proof.
  unfold cell at 1, erode1. rewrite list_lookup_imap.
  destruct (m !! i) as [b|]; simpl; [|done].
  intros [_ Hall]%andb_true_iff Hds.
  rewrite forallb_forall in Hall.
  specialize (Hall (d, s)). unfold axis_kept in Hall. cbn [fst snd] in Hall.
  rewrite !andb_true_iff in Hall.
  destruct Hall as [[[H1 H2] H3] H4]; [by apply list_elem_of_In|].
  apply Nat.leb_le in H1. apply Nat.ltb_lt in H2. done.
Qed.

(** The flags of the cells of [lab] that hold [l], as the erosion sees
    the mask of the label. *)
Definition flags (lab : list Z) (l : Z) : list bool :=
  (fun v => negb (v =? 0)) <$> mask_of lab l.

Lemma flags_cell lab l i : cell (flags lab l) i = true → lab !! i = Some l.
Proof.
  unfold cell, flags, mask_of. rewrite !list_lookup_fmap.
  destruct (lab !! i) as [x|]; [|done]. simpl.
  destruct (decide (x = l)) as [->|]; done.
Qed.

Lemma eroded_of_iter shape thickness lab l :
  0 < thickness →
  eroded_of shape thickness lab l
  = Nat.iter (Z.to_nat thickness) (erode1 shape) (flags lab l).
Proof.
  intros Hk. unfold eroded_of, binary_erosion.
  destruct (Z.ltb_spec thickness 1); [lia|done].
Qed.

(** The passes past the [k] first ones only remove cells. *)
Lemma iter_erode1_more shape k k' m i :
  (k <= k')%nat →
  cell (Nat.iter k' (erode1 shape) m) i = true →
  cell (Nat.iter k (erode1 shape) m) i = true.
Proof.
  intros Hle. replace k' with ((k' - k) + k)%nat by lia.
  rewrite Nat.iter_add. apply iter_erode1_cell.
Qed.

(** A nonzero cell of the inner buffer of a frame is a cell the erosion
    of its label kept, and conversely. *)
Lemma inner_cell_eroded shape thickness lab i l :
  l ≠ 0 →
  (outline_frame shape thickness lab).2 !! i = Some l
  ↔ cell (eroded_of shape thickness lab l) i = true.
Proof.
  intros Hl.
  destruct (outline_frame_spec shape thickness lab) as (_ & Hlen & Hcells).
  split.
  - intros Hn.
    destruct (lookup_lt_is_Some_2 lab i) as [x Hx].
    { rewrite <- Hlen. by eapply lookup_lt_Some. }
    destruct (Hcells i x Hx) as [_ Hn']. rewrite Hn in Hn'.
    injection Hn' as Hn'.
    destruct (decide (x ≠ 0)); [|done].
    destruct (cell (eroded_of shape thickness lab x) i) eqn:He; [|done].
    by subst.
  - intros He. apply eroded_of_cell in He as Hx.
    destruct (Hcells i l Hx) as [_ ->]. by rewrite decide_True, He.
Qed.

Section Frames.

Context {float : Type}.

(** X15.  For a positive membrane thickness, a cell of the inner buffer
    that holds a label lies inside the region of that label: it holds
    the label in the label map and, along every axis of the frame, it is
    not on the border of the frame and both its neighbours hold the same
    label. *)
Theorem inner_cells_are_interior (w : t float) (lm : Np.stack) :
  label_maps float w = Some lm →
  0 < membrane_thickness float w →
  ∃ rings inner,
    labels_to_outlines float w = Ok (rings, inner)
    ∧ ∀ t lab n i l,
        Np.frames lm !! t = Some lab → Np.frames inner !! t = Some n →
        n !! i = Some l → l ≠ 0 →
        lab !! i = Some l
        ∧ ∀ d s, (d, s) ∈ zip (Np.frame_shape lm) (strides (Np.frame_shape lm)) →
            (1 <= (i / s) mod d)%nat ∧ ((i / s) mod d + 1 < d)%nat
            ∧ lab !! (i - s)%nat = Some l ∧ lab !! (i + s)%nat = Some l.
Proof.
  intros Hlm Hk. unfold labels_to_outlines. rewrite Hlm.
  eexists _, _. split; [done|]. cbn [Np.frames].
  intros t lab n i l Hlab Hn Hi Hl.
  rewrite !list_lookup_fmap, Hlab in Hn. injection Hn as <-.
  apply inner_cell_eroded in Hi; [|done].
  split; [exact (eroded_of_cell _ _ _ _ _ Hi)|].
  intros d s Hds. rewrite eroded_of_iter in Hi by done.
  destruct (Z.to_nat (membrane_thickness float w)) as [|k] eqn:Hn; [lia|].
  cbn [Nat.iter] in Hi.
  destruct (erode1_neighbours _ _ _ _ _ Hi Hds) as (H1 & H2 & Hm & Hp).
  split; [done|]. split; [done|].
  split; apply flags_cell;
    [exact (iter_erode1_cell _ _ _ _ Hm)|exact (iter_erode1_cell _ _ _ _ Hp)].
Qed.

(** X16.  A thicker membrane leaves a smaller interior: between two
    positive thicknesses, every labelled cell of the inner buffer computed
    with the larger one is a cell of the inner buffer computed with the
    smaller one, with the same label, and every labelled cell of the ring
    buffer computed with the smaller one is in the ring buffer computed
    with the larger one. *)
Theorem thicker_membrane_smaller_interior (w : t float) (lm : Np.stack)
    (thin thick : Z) :
  label_maps float w = Some lm →
  0 < thin <= thick →
  ∃ rings1 inner1 rings2 inner2,
    labels_to_outlines float (with_membrane_thickness float thin w)
    = Ok (rings1, inner1)
    ∧ labels_to_outlines float (with_membrane_thickness float thick w)
      = Ok (rings2, inner2)
    ∧ ∀ t n1 n2 r1 r2 i l,
        Np.frames inner1 !! t = Some n1 → Np.frames inner2 !! t = Some n2 →
        Np.frames rings1 !! t = Some r1 → Np.frames rings2 !! t = Some r2 →
        l ≠ 0 →
        (n2 !! i = Some l → n1 !! i = Some l)
        ∧ (r1 !! i = Some l → r2 !! i = Some l).
Proof.
  intros Hlm Hk. unfold labels_to_outlines. cbn [label_maps with_membrane_thickness].
  rewrite Hlm. eexists _, _, _, _. split; [done|]. split; [done|].
  cbn [Np.frames membrane_thickness].
  intros t n1 n2 r1 r2 i l Hn1 Hn2 Hr1 Hr2 Hl.
  rewrite !list_lookup_fmap in Hn1, Hn2, Hr1, Hr2.
  destruct (Np.frames lm !! t) as [lab|]; [|done].
  injection Hn1 as <-. injection Hn2 as <-.
  injection Hr1 as <-. injection Hr2 as <-.
  assert (cell (eroded_of (Np.frame_shape lm) thick lab l) i = true →
          cell (eroded_of (Np.frame_shape lm) thin lab l) i = true) as Hshrink.
  { rewrite !eroded_of_iter by lia. apply iter_erode1_more. lia. }
  split.
  - rewrite !inner_cell_eroded by done. exact Hshrink.
  - destruct (outline_frame_spec (Np.frame_shape lm) thin lab) as (Hlen & _ & Hc1).
    destruct (outline_frame_spec (Np.frame_shape lm) thick lab) as (_ & _ & Hc2).
    intros Hr.
    destruct (lookup_lt_is_Some_2 lab i) as [x Hx].
    { rewrite <- Hlen. by eapply lookup_lt_Some. }
    destruct (Hc1 i x Hx) as [Hr' _]. destruct (Hc2 i x Hx) as [-> _].
    rewrite Hr in Hr'. injection Hr' as Hr'.
    destruct (decide (x ≠ 0)); [|done].
    destruct (cell (eroded_of (Np.frame_shape lm) thin lab x) i) eqn:He1; [done|].
    subst x.
    destruct (cell (eroded_of (Np.frame_shape lm) thick lab l) i) eqn:He2; [|done].
    specialize (Hshrink eq_refl). congruence.
Qed.

End Frames.

(** The centre of the disk of radius 2 is in the interior for a membrane
    one cell thick, and the four cells around it hold the label. *)
Lemma inner_cells_are_interior_witness :
  ∃ rings inner n lab,
    labels_to_outlines Q Exact.disk_worker = Ok (rings, inner)
    ∧ Np.frames inner !! 0%nat = Some n
    ∧ Np.frames Exact.disk !! 0%nat = Some lab
    ∧ n !! 12%nat = Some 3
    ∧ lab !! 7%nat = Some 3 ∧ lab !! 17%nat = Some 3
    ∧ lab !! 11%nat = Some 3 ∧ lab !! 13%nat = Some 3.
Proof.
  destruct (inner_cells_are_interior Exact.disk_worker Exact.disk eq_refl eq_refl)
    as (rings & inner & Hrun & Hint).
  assert (∃ n, Np.frames inner !! 0%nat = Some n ∧ n !! 12%nat = Some 3)
    as (n & Hn & Hc).
  { vm_compute in Hrun. injection Hrun as _ <-. eexists. split; reflexivity. }
  destruct (Hint 0%nat _ n 12%nat 3 eq_refl Hn Hc ltac:(discriminate))
    as [_ Haxes].
  destruct (Haxes 5%nat 5%nat) as (_ & _ & Hup & Hdown); [left|].
  destruct (Haxes 5%nat 1%nat) as (_ & _ & Hleft & Hright); [right; left|].
  eexists rings, inner, n, _. split; [exact Hrun|]. split; [exact Hn|].
  split; [reflexivity|]. split; [exact Hc|].
  split; [exact Hup|]. split; [exact Hdown|]. split; [exact Hleft|exact Hright].
Defined.

(** On the disk, the centre survives two passes, and so it survives one. *)
Lemma thicker_membrane_smaller_interior_witness :
  ∃ rings1 inner1 rings2 inner2 n1,
    labels_to_outlines Q (with_membrane_thickness Q 1 Exact.disk_worker)
    = Ok (rings1, inner1)
    ∧ labels_to_outlines Q (with_membrane_thickness Q 2 Exact.disk_worker)
      = Ok (rings2, inner2)
    ∧ Np.frames inner1 !! 0%nat = Some n1
    ∧ n1 !! 12%nat = Some 3.
Proof.
  destruct (thicker_membrane_smaller_interior Exact.disk_worker Exact.disk 1 2
              eq_refl ltac:(lia))
    as (rings1 & inner1 & rings2 & inner2 & H1 & H2 & Hcells).
  assert (∃ n2, Np.frames inner2 !! 0%nat = Some n2 ∧ n2 !! 12%nat = Some 3)
    as (n2 & Hn2 & Hc2).
  { vm_compute in H2. injection H2 as _ <-. eexists. split; reflexivity. }
  assert (∃ n1 r1 r2, Np.frames inner1 !! 0%nat = Some n1
                      ∧ Np.frames rings1 !! 0%nat = Some r1
                      ∧ Np.frames rings2 !! 0%nat = Some r2)
    as (n1 & r1 & r2 & Hn1 & Hr1 & Hr2).
  { vm_compute in H1, H2. injection H1 as <- <-. injection H2 as <- _.
    eexists _, _, _. repeat split; reflexivity. }
  destruct (Hcells 0%nat n1 n2 r1 r2 12%nat 3 Hn1 Hn2 Hr1 Hr2 ltac:(discriminate))
    as [Hinner _].
  exists rings1, inner1, rings2, inner2, n1.
  split; [exact H1|]. split; [exact H2|]. split; [exact Hn1|].
  exact (Hinner Hc2).
Defined.

End ErosionFacts.

(* ================================================================== *)
(** * The measurement, from the label maps to the records *)
(* ================================================================== *)

Module PipelineFacts.
Import IO Ndimage MeasureMembraneIntensity OutlineFacts OutlierFacts MeasureFacts.
Local Close Scope string_scope.

(** ** Counting cells *)

(** Cell by cell, [l] sits in at most one of [r] and [n], and only where
    it sits in [lab]: the two counts do not exceed that of [lab]. *)
Lemma count_le l (lab r n : list Z) :
  List.length r = List.length lab → List.length n = List.length lab →
  (∀ i x a b, lab !! i = Some x → r !! i = Some a → n !! i = Some b →
     (a = l → x = l ∧ b ≠ l) ∧ (b = l → x = l ∧ a ≠ l)) →
  (count l r + count l n <= count l lab)%nat.
Proof.
  revert r n. induction lab as [|x lab IH]; intros r n Hr Hn Hcells.
  - destruct r, n; done.
  - destruct r as [|a r]; [done|]. destruct n as [|b n]; [done|].
    rewrite !count_cons.
    specialize (IH r n ltac:(simpl in Hr; lia) ltac:(simpl in Hn; lia)).
    assert (count l r + count l n <= count l lab)%nat as Hrest.
    { apply IH. intros i x' a' b' Hx Ha Hb. by apply (Hcells (S i)). }
    destruct (Hcells 0%nat x a b eq_refl eq_refl eq_refl) as [Ha Hb].
    destruct (decide (a = l)) as [Hal|_], (decide (b = l)) as [Hbl|_],
      (decide (x = l)) as [Hxl|Hxl]; try lia.
    all: try (destruct (Ha Hal); done); try (destruct (Hb Hbl); done).
Qed.

Lemma count_pos l (f : list Z) : l ∈ f → (0 < count l f)%nat.
Proof.
  intros Hin. unfold count.
  assert (l ∈ filter (λ v, v = l) f) as Hf by (by apply list_elem_of_filter).
  destruct (filter _ f); [by apply elem_of_nil in Hf|simpl; lia].
Qed.

Section Float64.

Variable float : Type.
Variable np_mean np_std : list Z → float.
Variable fadd fmul : float → float → float.
Variable lt_float : Z → float → bool.
Variable acc : Np.accumulator.

Abbreviation worker := (t float).
Abbreviation record := (record float).
Abbreviation run := (run float np_mean np_std fadd fmul lt_float acc).
Abbreviation masked := (masked float np_mean np_std fadd fmul lt_float).
Abbreviation remove_outlier_intensities :=
  (remove_outlier_intensities float np_mean np_std fadd fmul lt_float).
Abbreviation measure_intensities := (measure_intensities float np_mean acc).

(** The two areas of a record; a 3-tuple has no inner area. *)
Definition ring_area (r : record) : Z :=
  match r with RingOnly _ _ _ a => a | RingAndInner _ _ _ a _ _ _ => a end.
Definition inner_area (r : record) : Z :=
  match r with RingOnly _ _ _ _ => 0 | RingAndInner _ _ _ _ _ _ b => b end.

(** The cells of the two masked buffers of a frame against the label
    map. *)
Lemma masked_cells (w : worker) (shape : list nat) (lab int : list Z) :
  List.length lab = List.length int →
  let bufs := masked w shape lab int in
  List.length bufs.1 = List.length lab ∧ List.length bufs.2 = List.length lab
  ∧ ∀ l i x a b, l ≠ 0 → lab !! i = Some x → bufs.1 !! i = Some a →
      bufs.2 !! i = Some b →
      (a = l → x = l ∧ b ≠ l) ∧ (b = l → x = l ∧ a ≠ l).
Proof.
  intros Hlen. unfold OutlierFacts.masked. cbn zeta.
  destruct (outline_frame_spec shape (membrane_thickness float w) lab)
    as (Hl1 & Hl2 & Hcells).
  set (bufs := outline_frame shape (membrane_thickness float w) lab) in *.
  set (discard := kept float np_mean np_std fadd fmul lt_float w lab int).
  assert (List.length discard = List.length lab) as Hld
    by (unfold discard, kept; rewrite length_fmap; lia).
  cbn [fst snd]. split; [rewrite length_zip_with; lia|].
  split; [rewrite length_zip_with; lia|].
  intros l i x a b Hl Hx Ha Hb.
  rewrite lookup_zip_with in Ha, Hb.
  destruct (Hcells i x Hx) as [H1 H2]. rewrite H1 in Ha. rewrite H2 in Hb.
  destruct (discard !! i) as [k|]; [|done]. simpl in Ha, Hb.
  injection Ha as <-. injection Hb as <-.
  destruct (decide (x ≠ 0)) as [Hx0|Hx0];
    [destruct (cell (eroded_of shape (membrane_thickness float w) lab x) i)|];
    destruct k; simpl; split; intros Heq; try lia; split; lia.
Qed.

(** X17.  [run] on two stacks bound with one shape (frames of two or
    three axes), with the export directory in place: it returns, and
    [results] holds one dict per frame of the label maps.  A label has an
    entry in the dict of a frame only if it is positive and some cell of
    that frame of the label maps holds it; its ring area is positive and
    its ring and inner areas together do not exceed the number of cells
    that hold the label in the frame.  The two stacks are left as they
    were. *)
Theorem run_measures_labels_of_the_frame (w : worker) (lm ic : Np.stack)
    (σ : world) :
  ready float w lm ic →
  (List.length (Np.frame_shape lm) = 2%nat
   ∨ List.length (Np.frame_shape lm) = 3%nat) →
  export_dir σ = true →
  ∃ res w' σ',
    run w σ = (Ok tt, w', σ')
    ∧ results float w' = Some res
    ∧ List.length res = List.length (Np.frames lm)
    ∧ label_maps float w' = Some lm
    ∧ intensity_channel float w' = Some ic
    ∧ ∀ t lab res_t l r,
        Np.frames lm !! t = Some lab → res !! t = Some res_t →
        res_t !! l = Some r →
        0 < l ∧ l ∈ lab
        ∧ 0 < ring_area r ∧ 0 <= inner_area r
        ∧ ring_area r + inner_area r <= Z.of_nat (count l lab).
Proof.
  intros Hready Hrank Hdir.
  destruct (masked_buffers_spec float np_mean np_std fadd fmul lt_float w lm ic
              Hready)
    as (rg & inn & Hmb & Hsr & Hsi & Hlr & Hli & Hframes).
  pose proof Hready as [Hlm Hic Hshape Hflen Hcells _].
  set (w1 := with_buffers float rg inn w).
  assert (measurable float w1 rg inn ic) as Hmeas.
  { split; try done; try congruence; lia. }
  destruct (measure_loop_spec float np_mean acc w1 rg inn ic 0 (Np.frames rg) σ
              Hmeas Hdir)
    as (res & σ' & Hloop & _ & Hlen & Hres); [simpl; lia..|].
  exists res, (with_results float res w1), σ'.
  split.
  { unfold MeasureMembraneIntensity.run. rewrite Hmb.
    unfold MeasureMembraneIntensity.measure_intensities.
    cbn [rings inner with_buffers]. unfold mbind, io_bind.
    fold w1. rewrite Hloop. done. }
  split; [done|]. split; [lia|]. split; [done|]. split; [done|].
  intros t lab res_t l r Hlab Hres_t Hr.
  destruct (lookup_lt_is_Some_2 (Np.frames ic) t) as [int Hint].
  { rewrite <- Hflen. by eapply lookup_lt_Some. }
  destruct (Hframes t lab int Hlab Hint) as [HR HN].
  destruct (Hres t _ _ int HR HN Hint) as (res_t' & Hres_t' & Hentry).
  rewrite Hres_t in Hres_t'. injection Hres_t' as <-.
  rewrite Hentry in Hr. unfold entry in Hr.
  destruct (decide (0 < l ∧ l ∈ (masked w (Np.frame_shape lm) lab int).1))
    as [[Hl HlR]|]; [|done].
  destruct (masked_cells w (Np.frame_shape lm) lab int (Hcells t lab int Hlab Hint))
    as (Hl1 & Hl2 & Hpoint).
  assert (l ≠ 0) as Hnz by lia.
  split; [done|]. split.
  { apply list_elem_of_lookup_1 in HlR as [i Hi].
    destruct (lookup_lt_is_Some_2 lab i) as [x Hx].
    { rewrite <- Hl1. by eapply lookup_lt_Some. }
    destruct (lookup_lt_is_Some_2 (masked w (Np.frame_shape lm) lab int).2 i)
      as [b Hb].
    { rewrite Hl2, <- Hl1. by eapply lookup_lt_Some. }
    destruct (Hpoint l i x l b Hnz Hx Hi Hb) as [[-> _] _]; [done|].
    by eapply list_elem_of_lookup_2. }
  pose proof (count_le l lab _ _ Hl1 Hl2
                (fun i x a b => Hpoint l i x a b Hnz)) as Hsum.
  pose proof (count_pos l _ HlR) as Hpos.
  unfold count in *.
  remember (masked w (Np.frame_shape lm) lab int).1 as R.
  remember (masked w (Np.frame_shape lm) lab int).2 as N.
  destruct (decide (l ∈ N)) as [HlN|_];
    injection Hr as <-; unfold full_record, ring_record, area_of;
    cbn [ring_area inner_area]; lia.
Qed.

(** ** Fewer label frames than intensity frames *)

Lemma outlier_loop_short (w : worker) (lm ic : Np.stack) (t : nat)
    (todo : list (list Z)) :
  label_maps float w = Some lm →
  (t <= List.length (Np.frames lm))%nat →
  (List.length (Np.frames lm) < t + List.length todo)%nat →
  outlier_loop float np_mean np_std fadd fmul lt_float w ic t todo
  = Raise IndexError.
Proof.
  intros Hlm. revert t. induction todo as [|int todo IH]; intros t Ht Hshort.
  { simpl in Hshort. lia. }
  cbn [outlier_loop]. unfold outlier_frame. rewrite Hlm.
  destruct (decide (t = List.length (Np.frames lm))) as [->|Hne].
  - rewrite TrackingFacts.getitem_out_of_range by lia. done.
  - destruct (TrackingFacts.getitem_in_range (Np.frames lm) (Z.of_nat t))
      as (labels & -> & _); [lia|].
    cbn [mbind result_bind Py.bind].
    destruct (decide (Np.frame_shape lm = Np.frame_shape ic));
      [|destruct (decide (Np.frame_shape lm `prefix_of` Np.frame_shape ic));
        [|done]].
    all: cbn [mbind result_bind Py.bind].
    all: rewrite IH; [done|lia|simpl in Hshort; lia].
Qed.

(** X18.  When the label maps have fewer frames than the intensity
    channel, [remove_outlier_intensities] runs out of label frames and
    raises [IndexError]; [run] raises it before it has assigned [rings],
    [inner] or [results], and before any file is written. *)
Theorem run_needs_a_label_frame_per_intensity_frame (w : worker)
    (lm ic : Np.stack) (σ : world) :
  label_maps float w = Some lm →
  intensity_channel float w = Some ic →
  (List.length (Np.frames lm) < List.length (Np.frames ic))%nat →
  remove_outlier_intensities w = Raise IndexError
  ∧ run w σ = (Raise IndexError, w, σ).
Proof.
  intros Hlm Hic Hshort.
  assert (remove_outlier_intensities w = Raise IndexError) as Hr.
  { unfold MeasureMembraneIntensity.remove_outlier_intensities. rewrite Hic.
    apply (outlier_loop_short w lm); [done|lia|simpl; lia]. }
  split; [done|].
  unfold MeasureMembraneIntensity.run, masked_buffers. by rewrite Hlm, Hic, Hr.
Qed.

(** ** Without the export directory *)

Abbreviation measure_inner := (measure_inner float acc).
Abbreviation measure_ring := (measure_ring float acc).
Abbreviation region_of := (region_of float np_mean).
Abbreviation measure_frame := (measure_frame float np_mean acc).
Abbreviation measure_loop := (measure_loop float np_mean acc).

(** With no entry to complete, the second loop of a frame calls
    nothing. *)
Lemma inner_loop_empty (regions : list (region float)) (σ : world) :
  for_each measure_inner regions ∅ σ = (Ok ∅, σ).
Proof.
  induction regions as [|prop regions IH]; [done|].
  cbn [for_each]. unfold mbind at 1, io_bind at 1.
  unfold MeasureMembraneIntensity.measure_inner at 1.
  destruct (decide (label float prop = 0)); [exact IH|].
  rewrite lookup_empty. exact IH.
Qed.

(** The first region of a frame stops the measurement. *)
Lemma ring_loop_no_directory (R I : list Z) (l : Z) (ls : list Z) (σ : world) :
  export_dir σ = false → l ≠ 0 →
  for_each measure_ring (region_of R I <$> l :: ls) ∅ σ
  = (Raise (FileNotFoundError (intensity_path (next_random σ))), drew σ).
Proof.
  intros Hdir Hl. rewrite fmap_cons. cbn [for_each].
  unfold mbind at 1, io_bind at 1.
  unfold MeasureMembraneIntensity.measure_ring at 1. simpl.
  rewrite decide_False by done. unfold mbind at 1, io_bind at 1.
  by rewrite get_integrated_intensity_spec, Hdir.
Qed.

(** Some cell of the frame holds a positive label. *)
Definition has_cell (R : list Z) : Prop := Exists (fun l => 0 < l) R.

Lemma measure_frame_no_directory (w : worker) (rg inn ic : Np.stack) (t : nat)
    (R N I : list Z) (σ : world) :
  measurable float w rg inn ic → export_dir σ = false →
  Np.frames inn !! t = Some N → Np.frames ic !! t = Some I →
  measure_frame w rg inn t R σ
  = if decide (has_cell R)
    then (Raise (FileNotFoundError (intensity_path (next_random σ))), drew σ)
    else (Ok ∅, σ).
Proof.
  intros [_ _ Hic Hrs His Hrank _ _] Hdir HN HI.
  unfold MeasureMembraneIntensity.measure_frame.
  unfold mbind, io_bind, lift.
  rewrite (getitem_frame _ _ _ HN), Hic. cbn [from_option].
  rewrite (getitem_frame _ _ _ HI).
  unfold regionprops. rewrite decide_True by done.
  rewrite decide_True by (by right).
  rewrite decide_True by (rewrite His, <- Hrs; done).
  rewrite decide_True by (by right).
  destruct (filter (λ l, 0 < l) (Np.unique R)) as [|l ls] eqn:Hls.
  - rewrite decide_False.
    2:{ intros (l & Hl & Hpos)%Exists_exists.
        assert (l ∈ filter (λ l, 0 < l) (Np.unique R)) as Hin
          by (by apply region_labels_spec).
        rewrite Hls in Hin. by apply elem_of_nil in Hin. }
    cbn [fmap list_fmap for_each]. unfold mret, io_ret.
    apply inner_loop_empty.
  - assert (0 < l ∧ l ∈ R) as [Hpos Hin].
    { apply region_labels_spec. rewrite Hls. left. }
    rewrite decide_True by (apply Exists_exists; eauto).
    rewrite ring_loop_no_directory by (try done; lia). done.
Qed.

Lemma measure_loop_no_directory (w : worker) (rg inn ic : Np.stack) (t0 : nat)
    (todo : list (list Z)) (σ : world) :
  measurable float w rg inn ic → export_dir σ = false →
  (t0 + List.length todo <= List.length (Np.frames inn))%nat →
  (t0 + List.length todo <= List.length (Np.frames ic))%nat →
  measure_loop w rg inn t0 todo σ
  = if decide (Exists has_cell todo)
    then (Raise (FileNotFoundError (intensity_path (next_random σ))), drew σ)
    else (Ok ((fun _ => ∅) <$> todo), σ).
Proof.
  intros Hmeas Hdir. revert t0.
  induction todo as [|R todo IH]; intros t0 Hinn Hic.
  { rewrite decide_False; [done|]. by intros ?%Exists_nil. }
  cbn [List.length] in Hinn, Hic. cbn [measure_loop].
  destruct (lookup_lt_is_Some_2 (Np.frames inn) t0) as [N HN]; [lia|].
  destruct (lookup_lt_is_Some_2 (Np.frames ic) t0) as [I HI]; [lia|].
  unfold mbind at 1, io_bind at 1.
  rewrite (measure_frame_no_directory w rg inn ic t0 R N I σ Hmeas Hdir HN HI).
  destruct (decide (has_cell R)) as [Hyes|Hno].
  - rewrite decide_True; [done|]. by left.
  - unfold mbind at 1, io_bind at 1. rewrite IH by lia.
    destruct (decide (Exists has_cell todo)) as [Hyes'|Hno'].
    + rewrite decide_True; [done|]. by right.
    + rewrite decide_False; [done|]. by intros [?|?]%Exists_cons.
Qed.

(** X19.  [measure_intensities] where [/tmp/exported] does not exist.
    When no frame of the ring buffer holds a positive label there is
    nothing to measure: the call returns, [results] holds an empty dict
    per frame, no number is drawn and no file is asked for.  As soon as
    one frame holds a positive label the call raises
    [FileNotFoundError] on the first region it meets, after one random
    number has been drawn, and [results] is not assigned. *)
Theorem measuring_without_the_export_directory (w : worker)
    (rg inn ic : Np.stack) (σ : world) :
  measurable float w rg inn ic →
  export_dir σ = false →
  ((∀ R l, R ∈ Np.frames rg → l ∈ R → l <= 0) →
     measure_intensities w σ
     = (Ok (with_results float ((fun _ => ∅) <$> Np.frames rg) w), σ))
  ∧ ((∃ R l, R ∈ Np.frames rg ∧ l ∈ R ∧ 0 < l) →
     measure_intensities w σ
     = (Raise (FileNotFoundError (intensity_path (next_random σ))), drew σ)).
Proof.
  intros Hmeas Hdir. pose proof Hmeas as [Hrg Hinn _ _ _ _ Hl1 Hl2].
  unfold MeasureMembraneIntensity.measure_intensities. rewrite Hrg, Hinn.
  unfold mbind, io_bind.
  rewrite (measure_loop_no_directory w rg inn ic 0 (Np.frames rg) σ Hmeas Hdir)
    by (simpl; lia).
  split.
  - intros Hnone. rewrite decide_False; [done|].
    intros (R & HR & (l & Hl & Hpos)%Exists_exists)%Exists_exists.
    specialize (Hnone R l HR Hl). lia.
  - intros (R & l & HR & Hl & Hpos). rewrite decide_True; [done|].
    apply Exists_exists. exists R. split; [done|].
    apply Exists_exists. eauto.
Qed.

End Float64.

(** ** The disk *)

(** The label 3 of the disk, 13 cells, is measured over at most 13
    cells. *)
Lemma run_measures_labels_of_the_frame_witness :
  ∃ res w' σ' res_t r,
    Exact.run Exact.disk_worker Exact.with_directory = (Ok tt, w', σ')
    ∧ results Q w' = Some res
    ∧ res !! 0%nat = Some res_t
    ∧ res_t !! 3 = Some r
    ∧ 0 < ring_area Q r
    ∧ ring_area Q r + inner_area Q r <= 13.
Proof.
  destruct (run_measures_labels_of_the_frame Q Exact.np_mean Exact.np_std
              Qplus Qmult Exact.lt_float Np.uint64 Exact.disk_worker Exact.disk
              Exact.glare Exact.with_directory disk_worker_ready
              (or_introl eq_refl) eq_refl)
    as (res & w' & σ' & Hrun & Hres & _ & _ & _ & Hrec).
  assert (∃ r, match results Q (Exact.run Exact.disk_worker Exact.with_directory).1.2
               with
               | Some (res_t :: _) => res_t !! 3
               | _ => None
               end = Some r)
    as [r Hr] by (vm_compute; eexists; reflexivity).
  unfold Exact.run in Hr. rewrite Hrun in Hr. cbn [fst snd] in Hr.
  rewrite Hres in Hr.
  destruct res as [|res_t res']; [discriminate Hr|].
  assert ((res_t :: res') !! 0%nat = Some res_t) as Hres_t by reflexivity.
  destruct (Hrec 0%nat _ res_t 3 r eq_refl Hres_t Hr) as (_ & _ & Hpos & _ & Hsum).
  exists (res_t :: res'), w', σ', res_t, r.
  split; [exact Hrun|]. split; [exact Hres|].
  split; [reflexivity|]. split; [exact Hr|]. split; [exact Hpos|exact Hsum].
Defined.

(** The disk against an intensity channel of two frames. *)
Definition two_glares : Np.stack :=
  {| Np.frame_shape := [5; 5]%nat;
     Np.frames := Np.frames Exact.glare ++ Np.frames Exact.glare |}.
Definition one_label_frame : t Q :=
  with_intensity_channel Q (Some two_glares)
    (with_label_maps Q (Some Exact.disk) Exact.thin).

Lemma run_needs_a_label_frame_per_intensity_frame_witness :
  Exact.run one_label_frame Exact.with_directory
  = (Raise IndexError, one_label_frame, Exact.with_directory).
Proof.
  apply (run_needs_a_label_frame_per_intensity_frame Q Exact.np_mean Exact.np_std
           Qplus Qmult Exact.lt_float Np.uint64 one_label_frame Exact.disk two_glares
           Exact.with_directory eq_refl eq_refl).
  simpl. lia.
Defined.

(** The outlined disk holds the label 3 in its ring buffer. *)
Lemma measuring_without_the_export_directory_witness :
  measure_intensities Q Exact.np_mean Np.uint64 outlined_disk Exact.without_directory
  = (Raise (FileNotFoundError "/tmp/exported/intensity-7.tif"),
     drew Exact.without_directory).
Proof.
  apply (measuring_without_the_export_directory Q Exact.np_mean Np.uint64 outlined_disk
           disk_rings disk_inner Exact.glare Exact.without_directory
           outlined_disk_measurable eq_refl).
  eexists _, 3. split; [left|]. split; [|reflexivity].
  apply list_elem_of_lookup_2 with 6%nat. reflexivity.
Defined.

End PipelineFacts.

(* ================================================================== *)
(** * Keeping the labels under the points *)
(* ================================================================== *)

Module KeepLabelsFacts.
Import Utils.
Local Close Scope string_scope.

(** ** The labels picked by the points *)

(** The list handed to [set]: the labels under the points, in the order
    of the points. *)
Definition picked_labels (data : Np.stack) (points : list (list nat))
    : result (list Z) :=
  picked ← mapM (Np.item data) points;
  mapM (from_option Ok (Raise TypeError)) picked.

Lemma picked_labels_cons (data : Np.stack) (p : list nat)
    (points : list (list nat)) :
  picked_labels data (p :: points)
  = match Np.item data p with
    | Ok (Some v) =>
        match picked_labels data points with
        | Ok labels => Ok (v :: labels)
        | Raise e => Raise e
        end
    | Ok None =>
        match mapM (Np.item data) points with
        | Ok _ => Raise TypeError
        | Raise e => Raise e
        end
    | Raise e => Raise e
    end.
Proof.
  unfold picked_labels. cbn [mapM].
  destruct (Np.item data p) as [[v|]|e]; cbn [mbind result_bind Py.bind]; [| |done].
  - destruct (mapM (Np.item data) points) as [picked|e];
      cbn [mbind result_bind Py.bind mret result_ret mapM from_option]; [|done].
    by destruct (mapM (from_option Ok (Raise TypeError)) picked).
  - by destruct (mapM (Np.item data) points).
Qed.

(** The only exception of the indexing. *)
Lemma item_raises (data : Np.stack) (p : list nat) (e : exn) :
  Np.item data p = Raise e → e = IndexError.
Proof.
  assert (∀ shape q e', Np.locate shape q = Raise e' → e' = IndexError) as Hloc.
  { intros shape q. revert shape. induction q as [|c q IH]; intros shape e'.
    - by destruct shape.
    - destruct shape as [|d shape]; cbn [Np.locate]; [by intros [= <-]|].
      destruct (c <? d)%nat; [|by intros [= <-]].
      destruct (Np.locate shape q) as [o|e''] eqn:Hq; [done|].
      intros [= <-]. by eapply IH. }
  unfold Np.item. destruct p as [|t rest]; [done|].
  destruct (Np.frames data !! t) as [f|]; [|by intros [= <-]].
  destruct (Np.locate (Np.frame_shape data) rest) as [[k|]|e'] eqn:Hl.
  - destruct (f !! k); [done|by intros [= <-]].
  - done.
  - intros [= <-]. by eapply Hloc.
Qed.

(** The call gets through the points exactly when each of them
    designates a cell. *)
Lemma picked_labels_ok (data : Np.stack) (points : list (list nat))
    (labels : list Z) :
  picked_labels data points = Ok labels
  ↔ Forall2 (fun p v => Np.item data p = Ok (Some v)) points labels.
Proof.
  revert labels. induction points as [|p points IH]; intros labels.
  - split.
    + intros [= <-]. constructor.
    + by intros ->%Forall2_nil_inv_l.
  - rewrite picked_labels_cons. split.
    + destruct (Np.item data p) as [[v|]|e] eqn:Hp.
      * destruct (picked_labels data points) as [ls|e] eqn:Hps; [|done].
        intros [= <-]. constructor; [done|]. by apply IH.
      * by destruct (mapM (Np.item data) points).
      * done.
    + intros (v & ls & Hp & Hps & ->)%Forall2_cons_inv_l.
      rewrite Hp. apply IH in Hps. by rewrite Hps.
Qed.

Lemma Forall2_picked (data : Np.stack) (points : list (list nat)) (labels : list Z) :
  Forall2 (fun p v => Np.item data p = Ok (Some v)) points labels →
  ∀ v, v ∈ labels ↔ ∃ p, p ∈ points ∧ Np.item data p = Ok (Some v).
Proof.
  induction 1 as [|p v points labels Hp _ IH]; intros x.
  - split; [by intros ?%elem_of_nil|by intros (p & ?%elem_of_nil & _)].
  - rewrite elem_of_cons, IH. split.
    + intros [->|(q & Hq & Hx)]; [exists p; split; [left|done]|].
      exists q. split; [by right|done].
    + intros (q & [->|Hq]%elem_of_cons & Hx); [left; congruence|right; eauto].
Qed.

(** ** The loop over the labels *)

(** One iteration of [for label in labels_list] on the output frames. *)
Definition keep_one (data : Np.stack) (output : list (list Z)) (label : Z)
    : list (list Z) :=
  zip_with (fun lab out => Np.assign_where lab label label out)
           (Np.frames data) output.

(** [keep_labels] with its two stages apart. *)
Lemma keep_labels_unfold (data : Np.stack) (points : list (list nat)) :
  keep_labels data points
  = match picked_labels data points with
    | Ok labels =>
        Ok {| Np.frame_shape := Np.frame_shape data;
              Np.frames :=
                foldl (keep_one data) (Np.zeros_like <$> Np.frames data)
                      (elements (list_to_set labels : gset Z)) |}
    | Raise e => Raise e
    end.
Proof.
  unfold keep_labels, picked_labels.
  destruct (mapM (Np.item data) points) as [picked|e];
    cbn [mbind result_bind Py.bind]; [|done].
  by destruct (mapM (from_option Ok (Raise TypeError)) picked).
Qed.

Lemma keep_one_spec (data : Np.stack) (output : list (list Z)) (label : Z) :
  RelabelFacts.aligned data output →
  RelabelFacts.aligned data (keep_one data output label)
  ∧ ∀ t f o i v c, Np.frames data !! t = Some f → output !! t = Some o →
      f !! i = Some v → o !! i = Some c →
      ∃ o', keep_one data output label !! t = Some o'
            ∧ o' !! i = Some (if decide (v = label) then v else c).
Proof.
  intros [Hlen Hsizes]. unfold keep_one. split; [split|].
  - rewrite length_zip_with. lia.
  - intros t f o' Hf Ho'. rewrite lookup_zip_with, Hf in Ho'. simpl in Ho'.
    destruct (output !! t) as [o|] eqn:Ho; [|done]. injection Ho' as <-.
    apply RelabelFacts.assign_where_length. by eapply Hsizes.
  - intros t f o i v c Hf Ho Hv Hc. eexists.
    rewrite lookup_zip_with, Hf. simpl. rewrite Ho. split; [done|].
    rewrite (RelabelFacts.assign_where_lookup _ _ _ _ _ _ _ Hv Hc).
    by destruct (decide (v = label)) as [->|].
Qed.

Lemma keep_loop_spec (data : Np.stack) (labels : list Z) (output : list (list Z)) :
  RelabelFacts.aligned data output →
  RelabelFacts.aligned data (foldl (keep_one data) output labels)
  ∧ ∀ t f o i v c, Np.frames data !! t = Some f → output !! t = Some o →
      f !! i = Some v → o !! i = Some c →
      ∃ o', foldl (keep_one data) output labels !! t = Some o'
            ∧ o' !! i = Some (if decide (v ∈ labels) then v else c).
Proof.
  revert output. induction labels as [|label labels IH]; intros output Hal.
  { split; [done|]. intros t f o i v c _ Ho _ Hc. exists o. split; [done|].
    by rewrite decide_False by apply not_elem_of_nil. }
  destruct (keep_one_spec data output label Hal) as [Hal1 Hstep].
  destruct (IH _ Hal1) as [Hal2 Hrest]. cbn [foldl]. split; [done|].
  intros t f o i v c Hf Ho Hv Hc.
  destruct (Hstep t f o i v c Hf Ho Hv Hc) as (o1 & Ho1 & Hc1).
  destruct (Hrest t f o1 i v _ Hf Ho1 Hv Hc1) as (o2 & Ho2 & Hc2).
  exists o2. split; [done|]. rewrite Hc2. f_equal.
  destruct (decide (v ∈ labels)) as [Hin|Hnin].
  - by rewrite decide_True by (by right).
  - destruct (decide (v = label)) as [->|Hne].
    + by rewrite decide_True by left.
    + rewrite decide_False; [done|]. by intros [?|?]%elem_of_cons.
Qed.

Lemma zeros_aligned (data : Np.stack) :
  RelabelFacts.aligned data (Np.zeros_like <$> Np.frames data).
Proof.
  split; [by rewrite length_fmap|].
  intros i lab o Hlab Ho. rewrite list_lookup_fmap, Hlab in Ho.
  injection Ho as <-. unfold Np.zeros_like. by rewrite length_fmap.
Qed.

(** A point of [points] designates a cell that holds [v]. *)
Definition selected (data : Np.stack) (points : list (list nat)) (v : Z) : Prop :=
  ∃ p, p ∈ points ∧ Np.item data p = Ok (Some v).

(** The frames [keep_labels] returns for picked labels [labels]. *)
Lemma kept_frames_spec (data : Np.stack) (points : list (list nat))
    (labels : list Z) :
  picked_labels data points = Ok labels →
  let out := foldl (keep_one data) (Np.zeros_like <$> Np.frames data)
               (elements (list_to_set labels : gset Z)) in
  List.length out = List.length (Np.frames data)
  ∧ ∀ t f, Np.frames data !! t = Some f →
      ∃ o, out !! t = Some o ∧ List.length o = List.length f
           ∧ ∀ i v, f !! i = Some v →
               (selected data points v → o !! i = Some v)
               ∧ (¬ selected data points v → o !! i = Some 0).
Proof.
  intros Hp0 out.
  pose proof (Forall2_picked _ _ _ (proj1 (picked_labels_ok _ _ _) Hp0)) as Hp.
  destruct (keep_loop_spec data (elements (list_to_set labels : gset Z))
              _ (zeros_aligned data)) as [[Hlen Hsizes] Hcells].
  fold out in Hlen, Hsizes, Hcells. split; [done|].
  intros t f Hf.
  destruct (lookup_lt_is_Some_2 out t) as [o Ho].
  { rewrite Hlen. by eapply lookup_lt_Some. }
  exists o. split; [done|]. split; [by eapply Hsizes|].
  intros i v Hv.
  destruct (Hcells t f (Np.zeros_like f) i v 0 Hf) as (o' & Ho' & Hc); [| done | |].
  { by rewrite list_lookup_fmap, Hf. }
  { unfold Np.zeros_like. by rewrite list_lookup_fmap, Hv. }
  rewrite Ho in Ho'. injection Ho' as <-. rewrite Hc.
  unfold selected. rewrite <- Hp.
  split; intros Hsel.
  - rewrite decide_True; [done|]. by apply elem_of_elements, elem_of_list_to_set.
  - rewrite decide_False; [done|].
    by intros ?%elem_of_elements%elem_of_list_to_set.
Qed.

(** X20.  [keep_labels] on points that each designate a cell of the
    data returns an array of the shape of the data in which a cell holds
    what it holds in the data when some point designates a cell with the
    same value, and 0 otherwise.  The order in which the set of labels is
    run through plays no part. *)
Theorem keep_labels_keeps_selected_labels (data : Np.stack)
    (points : list (list nat)) :
  (∀ p, p ∈ points → ∃ v, Np.item data p = Ok (Some v)) →
  ∃ out,
    keep_labels data points = Ok out
    ∧ Np.frame_shape out = Np.frame_shape data
    ∧ List.length (Np.frames out) = List.length (Np.frames data)
    ∧ ∀ t f, Np.frames data !! t = Some f →
        ∃ o, Np.frames out !! t = Some o ∧ List.length o = List.length f
             ∧ ∀ i v, f !! i = Some v →
                 (selected data points v → o !! i = Some v)
                 ∧ (¬ selected data points v → o !! i = Some 0).
Proof.
  intros Hpts.
  assert (∃ labels, picked_labels data points = Ok labels) as [labels Hl].
  { induction points as [|p points IH]; [by eexists|].
    rewrite picked_labels_cons.
    destruct (Hpts p) as [v ->]; [left|].
    destruct IH as [labels ->]; [intros q Hq; apply Hpts; by right|].
    by eexists. }
  rewrite keep_labels_unfold, Hl. eexists. split; [done|]. split; [done|].
  apply (kept_frames_spec data points labels Hl).
Qed.

(** ** A second pass *)

Lemma Forall2_impl_elem {A B} (P Q : A → B → Prop) (l : list A) (k : list B) :
  Forall2 P l k → (∀ x y, x ∈ l → P x y → Q x y) → Forall2 Q l k.
Proof.
  induction 1 as [|x y l k Hxy _ IH]; intros Himpl; constructor.
  - apply Himpl; [left|done].
  - apply IH. intros x' y' Hx'. apply Himpl. by right.
Qed.

(** X21.  [keep_labels] applied to its own result, with the same
    points, returns that result again. *)
Theorem keep_labels_idempotent (data out : Np.stack) (points : list (list nat)) :
  keep_labels data points = Ok out →
  keep_labels out points = Ok out.
Proof.
  rewrite keep_labels_unfold.
  destruct (picked_labels data points) as [labels|] eqn:Hl; [|done].
  intros [= <-].
  set (out := {| Np.frame_shape := Np.frame_shape data;
                 Np.frames := foldl (keep_one data)
                                (Np.zeros_like <$> Np.frames data)
                                (elements (list_to_set labels : gset Z)) |}).
  destruct (kept_frames_spec data points labels Hl) as [Hlen Hcells].
  change (foldl _ _ _) with (Np.frames out) in Hlen, Hcells.
  (* a point designates the same label in the result *)
  assert (∀ p v, p ∈ points → Np.item data p = Ok (Some v) →
                 Np.item out p = Ok (Some v)) as Hitem.
  { intros p v Hp Hv.
    assert (selected data points v) as Hsel by (exists p; done).
    unfold Np.item in Hv |- *.
    destruct p as [|t rest]; [done|].
    destruct (Np.frames data !! t) as [f|] eqn:Hf; [|done].
    destruct (Hcells t f Hf) as (o & -> & _ & Hc).
    change (Np.frame_shape out) with (Np.frame_shape data).
    destruct (Np.locate (Np.frame_shape data) rest) as [[k|]|e]; [|done|done].
    destruct (f !! k) as [x|] eqn:Hx; [|done].
    cbn [from_option] in Hv. injection Hv as ->.
    by destruct (Hc k v Hx) as [-> _]. }
  assert (picked_labels out points = Ok labels) as Hl'.
  { apply picked_labels_ok. apply picked_labels_ok in Hl.
    eapply Forall2_impl_elem; [exact Hl|]. intros p v. apply Hitem. }
  rewrite keep_labels_unfold, Hl'. f_equal.
  destruct (kept_frames_spec out points labels Hl') as [Hlen' Hcells'].
  set (again := foldl (keep_one out) (Np.zeros_like <$> Np.frames out)
                  (elements (list_to_set labels : gset Z))) in *.
  assert (again = Np.frames out) as ->; [|done].
  apply list_eq. intros t.
  destruct (Np.frames out !! t) as [o|] eqn:Ho.
  2:{ apply lookup_ge_None. apply lookup_ge_None in Ho. lia. }
  destruct (Hcells' t o Ho) as (o2 & -> & Hlo & Hc2). f_equal.
  apply list_eq. intros i.
  destruct (o !! i) as [c|] eqn:Hc.
  2:{ apply lookup_ge_None. apply lookup_ge_None in Hc. lia. }
  destruct (Hc2 i c Hc) as [Hsel Hnot].
  destruct (lookup_lt_is_Some_2 (Np.frames data) t) as [f Hf].
  { rewrite <- Hlen. by eapply lookup_lt_Some. }
  destruct (Hcells t f Hf) as (o' & Ho' & Hlo' & Hc1).
  rewrite Ho in Ho'. injection Ho' as <-.
  destruct (lookup_lt_is_Some_2 f i) as [v Hv].
  { rewrite <- Hlo'. by eapply lookup_lt_Some. }
  destruct (Hc1 i v Hv) as [Hyes Hno].
  assert (selected data points v → selected out points v) as Hkeep.
  { intros (p & Hp & Hpv). exists p. split; [done|]. by apply Hitem. }
  assert (selected data points v ∨ ¬ selected data points v) as [Hs|Hs].
  { unfold selected.
    destruct (decide (v ∈ labels)) as [Hin|Hnin].
    - left. by apply (Forall2_picked _ _ _ (proj1 (picked_labels_ok _ _ _) Hl)).
    - right. intros Hs. apply Hnin.
      by apply (Forall2_picked _ _ _ (proj1 (picked_labels_ok _ _ _) Hl)). }
  - rewrite (Hyes Hs) in Hc. injection Hc as <-. apply Hsel, Hkeep, Hs.
  - rewrite (Hno Hs) in Hc. injection Hc as <-.
    assert (selected out points 0 ∨ ¬ selected out points 0) as [Hz|Hz].
    { unfold selected.
      destruct (decide (0 ∈ labels)) as [Hin|Hnin].
      - left. by apply (Forall2_picked _ _ _ (proj1 (picked_labels_ok _ _ _) Hl')).
      - right. intros Hs'. apply Hnin.
        by apply (Forall2_picked _ _ _ (proj1 (picked_labels_ok _ _ _) Hl')). }
    + by apply Hsel.
    + by apply Hnot.
Qed.

(** ** Points that designate no cell *)

Lemma mapM_item_out_of_bounds (data : Np.stack) (points : list (list nat)) :
  (∃ p e, p ∈ points ∧ Np.item data p = Raise e) →
  mapM (Np.item data) points = Raise IndexError.
Proof.
  induction points as [|q points IH]; intros (p & e & Hp & He);
    [by apply elem_of_nil in Hp|].
  cbn [mapM]. destruct (Np.item data q) as [o|e'] eqn:Hq.
  - cbn [mbind result_bind Py.bind].
    apply elem_of_cons in Hp as [->|Hp]; [congruence|].
    rewrite IH by eauto. done.
  - apply item_raises in Hq as ->. done.
Qed.

Lemma mapM_item_in_bounds (data : Np.stack) (points : list (list nat)) :
  (∀ p, p ∈ points → ∃ o, Np.item data p = Ok o) →
  ∃ picked, mapM (Np.item data) points = Ok picked
            ∧ Forall2 (fun p o => Np.item data p = Ok o) points picked.
Proof.
  induction points as [|q points IH]; intros Hall.
  { exists []. split; [done|constructor]. }
  destruct (Hall q) as [o Ho]; [left|].
  destruct IH as (picked & Hpicked & Hf); [intros p Hp; apply Hall; by right|].
  exists (o :: picked). cbn [mapM]. rewrite Ho, Hpicked. split; [done|].
  by constructor.
Qed.

Lemma hashing_raises (picked : list (option Z)) :
  None ∈ picked → mapM (from_option Ok (Raise TypeError)) picked = Raise TypeError.
Proof.
  induction picked as [|o picked IH]; [by intros ?%elem_of_nil|].
  intros Hin. cbn [mapM]. destruct o as [v|]; [|done].
  cbn [from_option mbind result_bind Py.bind].
  apply elem_of_cons in Hin as [?|Hin]; [done|]. by rewrite IH.
Qed.

(** X22.  [keep_labels] on points that designate no cell.  When some
    point lies outside the data, or has more coordinates than the data
    has axes, the call raises [IndexError], whatever the other points.
    When every point lies inside but some point has fewer coordinates
    than the data has axes, the value picked for it is an array, which
    the set of labels cannot hold: the call raises [TypeError]. *)
Theorem keep_labels_rejects_points_without_cell (data : Np.stack)
    (points : list (list nat)) :
  ((∃ p e, p ∈ points ∧ Np.item data p = Raise e) →
     keep_labels data points = Raise IndexError)
  ∧ ((∀ p, p ∈ points → ∃ o, Np.item data p = Ok o) →
     (∃ p, p ∈ points ∧ Np.item data p = Ok None) →
     keep_labels data points = Raise TypeError).
Proof.
  split.
  - intros Hbad. unfold keep_labels.
    by rewrite (mapM_item_out_of_bounds data points Hbad).
  - intros Hall (p & Hp & Hnone). unfold keep_labels.
    destruct (mapM_item_in_bounds data points Hall) as (picked & -> & Hf).
    cbn [mbind result_bind Py.bind].
    rewrite hashing_raises; [done|].
    clear Hall. induction Hf as [|q o points picked Hq _ IH];
      [by apply elem_of_nil in Hp|].
    apply elem_of_cons in Hp as [->|Hp]; [|right; by apply IH].
    assert (o = None) as -> by congruence. left.
Qed.

(** ** Two frames and one point *)

(** The point (0, 0, 0) designates a cell of label 1 in the two frames of
    [PruningFacts]: the cells of label 1 are kept, that of label 3 is
    not. *)
Lemma keep_labels_keeps_selected_labels_witness :
  ∃ out o,
    keep_labels PruningFacts.two_frames [[0; 0; 0]%nat] = Ok out
    ∧ Np.frames out !! 1%nat = Some o
    ∧ o !! 0%nat = Some 1
    ∧ o !! 3%nat = Some 0.
Proof.
  destruct (keep_labels_keeps_selected_labels PruningFacts.two_frames
              [[0; 0; 0]%nat])
    as (out & Hrun & _ & _ & Hcells).
  - intros p Hp. apply list_elem_of_singleton in Hp as ->. by eexists.
  - destruct (Hcells 1%nat _ eq_refl) as (o & Ho & _ & Hc).
    exists out, o. split; [exact Hrun|]. split; [exact Ho|]. split.
    + apply (Hc 0%nat 1 eq_refl). exists [0; 0; 0]%nat. split; [left|reflexivity].
    + apply (Hc 3%nat 3 eq_refl). intros (p & Hp & Hitem).
      apply list_elem_of_singleton in Hp as ->. discriminate Hitem.
Defined.

Lemma keep_labels_idempotent_witness :
  ∃ out,
    keep_labels PruningFacts.two_frames [[0; 0; 0]%nat] = Ok out
    ∧ keep_labels out [[0; 0; 0]%nat] = Ok out
    ∧ Np.frames out = [[1; 0; 0; 0]; [1; 0; 0; 0]].
Proof.
  eexists. split; [reflexivity|]. split; [|reflexivity].
  apply (keep_labels_idempotent PruningFacts.two_frames). reflexivity.
Defined.

(** A point in a third frame of a stack of two. *)
Lemma keep_labels_rejects_points_without_cell_witness :
  keep_labels PruningFacts.two_frames [[0; 0; 0]%nat; [2; 0; 0]%nat]
  = Raise IndexError.
Proof.
  apply (keep_labels_rejects_points_without_cell PruningFacts.two_frames).
  exists [2; 0; 0]%nat, IndexError. split; [right; left|reflexivity].
Defined.

End KeepLabelsFacts.

(* ================================================================== *)
(** * The files a measurement leaves behind *)
(* ================================================================== *)

Module ExportFacts.
Import IO MeasureMembraneIntensity OutlierFacts MeasureFacts.
Local Close Scope string_scope.

(** ** Worlds after several exports *)

Lemma exports_dir (k : nat) (σ : world) :
  export_dir (Nat.iter k exported σ) = export_dir σ.
Proof. induction k as [|k IH]; [done|]. simpl. exact IH. Qed.

Lemma exports_drawn (k : nat) (σ : world) :
  drawn (Nat.iter k exported σ) = (drawn σ + k)%nat.
Proof. induction k as [|k IH]; simpl; [lia|]. rewrite IH. lia. Qed.

Lemma exports_written (k : nat) (σ : world) :
  List.length (written (Nat.iter k exported σ))
  = (List.length (written σ) + 2 * k)%nat.
Proof. induction k as [|k IH]; simpl; [lia|]. rewrite IH. lia. Qed.

Lemma exports_add (j k : nat) (σ : world) :
  Nat.iter k exported (Nat.iter j exported σ) = Nat.iter (j + k) exported σ.
Proof. rewrite Nat.add_comm. symmetry. apply Nat.iter_add. Qed.

Lemma filter_ext_elem {A} (P Q : A → Prop) `{∀ x, Decision (P x)}
    `{∀ x, Decision (Q x)} (l : list A) :
  (∀ x, x ∈ l → P x ↔ Q x) → filter P l = filter Q l.
Proof.
  induction l as [|x l IH]; intros Hext; [done|].
  rewrite !filter_cons.
  assert (filter P l = filter Q l) as -> by (apply IH; intros y Hy; apply Hext; by right).
  destruct (decide (P x)) as [HP|HP], (decide (Q x)) as [HQ|HQ]; try done.
  - destruct HQ. by apply (Hext x); [left|].
  - destruct HP. by apply (Hext x); [left|].
Qed.

Section Float64.

Variable float : Type.
Variable np_mean : list Z → float.
Variable acc : Np.accumulator.

Abbreviation worker := (t float).
Abbreviation record := (record float).
Abbreviation region_of := (region_of float np_mean).
Abbreviation measure_ring := (measure_ring float acc).
Abbreviation measure_inner := (measure_inner float acc).
Abbreviation measure_frame := (measure_frame float np_mean acc).
Abbreviation measure_loop := (measure_loop float np_mean acc).
Abbreviation measure_intensities := (measure_intensities float np_mean acc).

(** ** The two loops of a frame *)

Lemma ring_loop_world (R I : list Z) (ls : list Z) (m : gmap Z record) (σ : world) :
  export_dir σ = true → (∀ l, l ∈ ls → l ≠ 0) →
  (for_each measure_ring (region_of R I <$> ls) m σ).2
  = Nat.iter (List.length ls) exported σ.
Proof.
  revert m σ. induction ls as [|l0 ls IH]; intros m σ Hdir Hnz; [done|].
  rewrite fmap_cons. cbn [for_each]. unfold mbind at 1, io_bind at 1.
  rewrite measure_ring_spec by (try done; apply Hnz; left).
  rewrite IH; [|done|intros l Hl; apply Hnz; by right].
  cbn [List.length]. by rewrite Nat.iter_succ_r.
Qed.

Lemma inner_loop_world (N I : list Z) (ls : list Z) (m : gmap Z record)
    (σ : world) :
  export_dir σ = true → NoDup ls → (∀ l, l ∈ ls → l ≠ 0) →
  (∀ l r, l ∈ ls → m !! l = Some r → arity float r = 3%nat) →
  (for_each measure_inner (region_of N I <$> ls) m σ).2
  = Nat.iter (List.length (filter (fun l => is_Some (m !! l)) ls)) exported σ.
Proof.
  revert m σ. induction ls as [|l0 ls IH]; intros m σ Hdir Hnd Hnz Hthree; [done|].
  apply NoDup_cons in Hnd as [Hl0 Hnd].
  rewrite fmap_cons. cbn [for_each]. unfold mbind at 1, io_bind at 1.
  rewrite measure_inner_spec;
    [|done|apply Hnz; left|intros r; apply Hthree; left].
  assert (∀ l, l ∈ ls → l ≠ 0) as Hnz' by (intros l Hl; apply Hnz; by right).
  rewrite filter_cons.
  destruct (m !! l0) as [old|] eqn:Hold.
  - rewrite decide_True by (by eexists).
    rewrite IH; [|done..|].
    2:{ intros l r Hl. rewrite lookup_insert_ne by (by intros ->).
        apply Hthree. by right. }
    cbn [List.length]. rewrite Nat.iter_succ_r. f_equal. f_equal.
    apply filter_ext_elem. intros l Hl.
    by rewrite lookup_insert_ne by (by intros ->).
  - rewrite decide_False by (by intros [? ?]).
    apply IH; [done..|]. intros l r Hl. apply Hthree. by right.
Qed.

(** ** Regions *)

(** The positive labels of a buffer, as [regionprops] lists them. *)
Definition regions (L : list Z) : list Z := filter (fun l => 0 < l) (Np.unique L).

(** The calls of [get_integrated_intensity] for a frame with ring
    buffer [R] and inner buffer [N]: one per region of the ring buffer and
    one per region of the inner buffer whose label has a ring region. *)
Definition calls (R N : list Z) : nat :=
  (List.length (regions R)
   + List.length (filter (fun l => l ∈ R) (regions N)))%nat.

Lemma measure_frame_world (w : worker) (rg inn ic : Np.stack) (t : nat)
    (R N I : list Z) (σ : world) :
  measurable float w rg inn ic → export_dir σ = true →
  Np.frames inn !! t = Some N → Np.frames ic !! t = Some I →
  (measure_frame w rg inn t R σ).2 = Nat.iter (calls R N) exported σ.
Proof.
  intros [_ _ Hic Hrs His Hrank _ _] Hdir HN HI.
  unfold MeasureMembraneIntensity.measure_frame.
  unfold mbind, io_bind, lift.
  rewrite (getitem_frame _ _ _ HN), Hic. cbn [from_option].
  rewrite (getitem_frame _ _ _ HI).
  unfold regionprops. rewrite decide_True by done.
  rewrite decide_True by (by right).
  rewrite decide_True by (rewrite His, <- Hrs; done).
  rewrite decide_True by (by right).
  fold (regions R). fold (regions N).
  assert (∀ l, l ∈ regions R → l ≠ 0) as HnzR.
  { intros l [? _]%region_labels_spec. lia. }
  pose proof (ring_loop_world R I (regions R) ∅ σ Hdir HnzR) as Hw1.
  destruct (ring_loop_spec float np_mean acc R I (regions R) ∅ σ Hdir HnzR)
    as (m1 & σ1 & Hrun1 & Hdir1 & Hm1).
  rewrite Hrun1 in Hw1 |- *. cbn [snd] in Hw1. subst σ1.
  rewrite inner_loop_world; [|done|apply region_labels_NoDup| |].
  2:{ intros l [? _]%region_labels_spec. lia. }
  2:{ intros l r _. rewrite Hm1. destruct (decide _); [|done]. by intros [= <-]. }
  rewrite exports_add. unfold calls. f_equal. f_equal. f_equal.
  apply filter_ext_elem. intros l Hl. rewrite Hm1, lookup_empty.
  apply region_labels_spec in Hl as [Hpos _].
  destruct (decide (l ∈ regions R)) as [Hin|Hnin].
  - apply region_labels_spec in Hin as [_ Hin]. split; [done|by eexists].
  - split; [by intros [? ?]|]. intros Hin. destruct Hnin.
    by apply region_labels_spec.
Qed.

Lemma measure_loop_world (w : worker) (rg inn ic : Np.stack) (t0 : nat)
    (todo : list (list Z)) (σ : world) :
  measurable float w rg inn ic → export_dir σ = true →
  (t0 + List.length todo <= List.length (Np.frames inn))%nat →
  (t0 + List.length todo <= List.length (Np.frames ic))%nat →
  (measure_loop w rg inn t0 todo σ).2
  = Nat.iter (sum_list (zip_with calls todo (drop t0 (Np.frames inn))))
             exported σ.
Proof.
  intros Hmeas. revert t0 σ.
  induction todo as [|R todo IH]; intros t0 σ Hdir Hinn Hic; [done|].
  cbn [List.length] in Hinn, Hic. cbn [measure_loop].
  destruct (lookup_lt_is_Some_2 (Np.frames inn) t0) as [N HN]; [lia|].
  destruct (lookup_lt_is_Some_2 (Np.frames ic) t0) as [I HI]; [lia|].
  pose proof (measure_frame_world w rg inn ic t0 R N I σ Hmeas Hdir HN HI) as Hw.
  destruct (measure_frame_spec float np_mean acc w rg inn ic t0 R N I σ Hmeas Hdir HN HI)
    as (res_t & σ1 & Hrun & Hdir1 & _).
  unfold mbind at 1, io_bind at 1. rewrite Hrun in Hw |- *. cbn [snd] in Hw.
  subst σ1. unfold mbind at 1, io_bind at 1.
  specialize (IH (S t0) (Nat.iter (calls R N) exported σ)
                ltac:(by rewrite exports_dir) ltac:(lia) ltac:(lia)).
  destruct (measure_loop_spec float np_mean acc w rg inn ic (S t0) todo
              (Nat.iter (calls R N) exported σ) Hmeas)
    as (rest & σ2 & Hrest & _); [by rewrite exports_dir|lia..|].
  rewrite Hrest in IH |- *. cbn [snd] in IH |- *. rewrite IH.
  rewrite exports_add. f_equal.
  rewrite (drop_S _ _ _ HN). done.
Qed.

(** X23.  With the export directory in place, [measure_intensities]
    calls [get_integrated_intensity] once per region of every ring frame
    and once per region of every inner frame whose label has a ring
    region in the same frame, and every call draws one random number and
    writes two files: the world after the measurement is the world before
    it after that many exports. *)
Theorem measuring_writes_two_files_per_region (w : worker)
    (rg inn ic : Np.stack) (σ : world) :
  measurable float w rg inn ic →
  export_dir σ = true →
  let k := sum_list (zip_with calls (Np.frames rg) (Np.frames inn)) in
  ∃ res,
    measure_intensities w σ
    = (Ok (with_results float res w), Nat.iter k exported σ)
    ∧ drawn (Nat.iter k exported σ) = (drawn σ + k)%nat
    ∧ List.length (written (Nat.iter k exported σ))
      = (List.length (written σ) + 2 * k)%nat.
Proof.
  intros Hmeas Hdir k. pose proof Hmeas as [Hrg Hinn _ _ _ _ Hl1 Hl2].
  pose proof (measure_loop_world w rg inn ic 0 (Np.frames rg) σ Hmeas Hdir
                ltac:(simpl; lia) ltac:(simpl; lia)) as Hw.
  destruct (measure_loop_spec float np_mean acc w rg inn ic 0 (Np.frames rg) σ
              Hmeas Hdir)
    as (res & σ' & Hloop & _); [simpl; lia..|].
  rewrite Hloop in Hw. cbn [snd drop] in Hw. subst σ'.
  exists res. split; [|split; [apply exports_drawn|apply exports_written]].
  unfold MeasureMembraneIntensity.measure_intensities. rewrite Hrg, Hinn.
  unfold mbind, io_bind. by rewrite Hloop.
Qed.

End Float64.

(** The outlined disk has one ring region and one inner region: four
    files. *)
Lemma measuring_writes_two_files_per_region_witness :
  ∃ res σ',
    measure_intensities Q Exact.np_mean Np.uint64 outlined_disk Exact.with_directory
    = (Ok (with_results Q res outlined_disk), σ')
    ∧ drawn σ' = 2%nat
    ∧ List.length (written σ') = 4%nat.
Proof.
  destruct (measuring_writes_two_files_per_region Q Exact.np_mean Np.uint64 outlined_disk
              disk_rings disk_inner Exact.glare Exact.with_directory
              outlined_disk_measurable eq_refl)
    as (res & Hrun & Hdrawn & Hwritten).
  eexists res, _. split; [exact Hrun|]. split; [exact Hdrawn|exact Hwritten].
Defined.

End ExportFacts.

(* ================================================================== *)
(** * The setters of the measurement worker *)
(* ================================================================== *)

Module MeasureBindingFacts.
Import Axes AxesFacts ValidatorFacts MeasureMembraneIntensity.

Section Float64.

Variable float : Type.

Abbreviation worker := (t float).

(** The receiver after [override_label_maps], whether it returned or
    raised: the label maps are unbound first, and a raise out of
    [set_axes] or out of [set_label_maps] leaves what was assigned until
    then. *)
Definition after_override_label_maps (w : worker) (labels : Np.stack)
    (axes : string) : worker :=
  let w0 := with_label_maps float None w in
  match set_axes float w0 axes with
  | Ok w1 => state_after w1 (set_label_maps float w1 labels)
  | Raise _ => w0
  end.

(** The same for [override_intensity_channel]. *)
Definition after_override_intensity_channel (w : worker) (channel : Np.stack)
    (axes : string) : worker :=
  let w0 := with_intensity_channel float None w in
  match set_axes float w0 axes with
  | Ok w1 => state_after w1 (set_intensity_channel float w1 channel)
  | Raise _ => w0
  end.

Lemma after_override_label_maps_ok (w w' : worker) labels axes :
  override_label_maps float w labels axes = Ok w' →
  after_override_label_maps w labels axes = w'.
Proof.
  unfold override_label_maps, after_override_label_maps.
  destruct (set_axes float _ axes) as [w1|e]; simpl; [|done].
  by intros ->.
Qed.

Lemma after_override_intensity_channel_ok (w w' : worker) channel axes :
  override_intensity_channel float w channel axes = Ok w' →
  after_override_intensity_channel w channel axes = w'.
Proof.
  unfold override_intensity_channel, after_override_intensity_channel.
  destruct (set_axes float _ axes) as [w1|e]; simpl; [|done].
  by intros ->.
Qed.

(** A call of one of the setters of [MeasureMembraneIntensity]. *)
Inductive measure_call : Type :=
| MeasureSetAxes (axes : string)
| MeasureSetLabelMaps (data : Np.stack)
| MeasureOverrideLabelMaps (labels : Np.stack) (axes : string)
| MeasureSetIntensityChannel (data : Np.stack)
| MeasureOverrideIntensityChannel (channel : Np.stack) (axes : string)
| MeasureSetMembraneThickness (thickness : Z).

(** The worker after the call, whether it returned or raised. *)
Definition measure_exec (w : worker) (c : measure_call) : worker :=
  match c with
  | MeasureSetAxes axes => state_after w (set_axes float w axes)
  | MeasureSetLabelMaps data => state_after w (set_label_maps float w data)
  | MeasureOverrideLabelMaps labels axes =>
      after_override_label_maps w labels axes
  | MeasureSetIntensityChannel data =>
      state_after w (set_intensity_channel float w data)
  | MeasureOverrideIntensityChannel channel axes =>
      after_override_intensity_channel w channel axes
  | MeasureSetMembraneThickness thickness =>
      state_after w (set_membrane_thickness float w thickness)
  end.

Record measure_sound (w : worker) : Prop := {
  measure_sound_axes : chars (axes float w) ⊆+ ordered;
  measure_sound_rank : ∀ ic, intensity_channel float w = Some ic →
                         Np.ndim ic = len (axes float w);
  measure_sound_thickness : 0 < membrane_thickness float w;
  measure_sound_results : rings float w = None ∧ inner float w = None
                          ∧ results float w = None
}.

Lemma measure_check_axes_ok (w : worker) (axes : string) :
  check_axes float w axes = Ok tt →
  chars axes ⊆+ ordered
  ∧ ∀ ic, intensity_channel float w = Some ic → Np.ndim ic = len axes.
Proof.
  rewrite measure_check_axes_spec, <- NoDup_known_submseteq.
  unfold has_duplicates, has_unknown_tag, rank_mismatch.
  intros Hno. split; [split|].
  - destruct (decide (NoDup (chars axes))); tauto.
  - intros a Ha. destruct (decide (a ∈ ordered)) as [|Hna]; [done|].
    exfalso. apply Hno. right; left. eauto.
  - intros ic Hic. destruct (decide (len axes = Np.ndim ic)) as [|Hne]; [done|].
    exfalso. apply Hno. right; right. exists (Np.ndim ic). by rewrite Hic.
Qed.

Lemma measure_set_axes_sound (w : worker) (axes : string) :
  measure_sound w → measure_sound (state_after w (set_axes float w axes)).
Proof.
  intros Hs. unfold set_axes.
  destruct (check_axes float w axes) as [[]|e] eqn:Hc; simpl; [|done].
  apply measure_check_axes_ok in Hc as [Hsub Hr].
  destruct Hs as [_ _ Hth Hres]. by split.
Qed.

Lemma measure_set_channel_sound (w : worker) (data : Np.stack) :
  measure_sound w →
  measure_sound (state_after w (set_intensity_channel float w data)).
Proof.
  intros Hs. unfold set_intensity_channel.
  destruct (Nat.eqb_spec (Np.ndim data) (len (axes float w))) as [Heq|Hne];
    simpl; [|done].
  destruct Hs as [Hax _ Hth Hres]. split; try done.
  by intros ic [= <-].
Qed.

Lemma measure_set_label_maps_sound (w : worker) (data : Np.stack) :
  measure_sound w →
  measure_sound (state_after w (set_label_maps float w data)).
Proof.
  intros Hs. unfold set_label_maps.
  destruct (negb _); simpl; [done|]. by destruct Hs.
Qed.

Lemma measure_exec_sound (w : worker) (c : measure_call) :
  measure_sound w → measure_sound (measure_exec w c).
Proof.
  intros Hs.
  destruct c as [ax|data|labels ax|data|channel ax|thickness];
    cbn [measure_exec].
  - by apply measure_set_axes_sound.
  - by apply measure_set_label_maps_sound.
  - unfold after_override_label_maps.
    assert (measure_sound (with_label_maps float None w)) as Hs0
      by (by destruct Hs).
    pose proof (measure_set_axes_sound _ ax Hs0) as Hs1.
    destruct (set_axes float _ ax) as [w1|e]; cbn [state_after] in Hs1;
      [|done].
    by apply measure_set_label_maps_sound.
  - by apply measure_set_channel_sound.
  - unfold after_override_intensity_channel.
    assert (measure_sound (with_intensity_channel float None w)) as Hs0.
    { destruct Hs. by split. }
    pose proof (measure_set_axes_sound _ ax Hs0) as Hs1.
    destruct (set_axes float _ ax) as [w1|e]; cbn [state_after] in Hs1;
      [|done].
    by apply measure_set_channel_sound.
  - unfold set_membrane_thickness.
    destruct (Z.leb_spec thickness 0); simpl; [done|]. by destruct Hs.
Qed.

(** X24.  Whatever setters of the measurement worker are called after
    [__init__], in whatever order and whether they return or raise: the
    axis string is made of distinct letters of "TZYX", in any order; the
    intensity channel, when bound, has as many axes as the string has
    letters; the membrane thickness is positive; and no setter touches the
    rings, the inner masks or the results. *)
Theorem measure_setters_keep_worker_sound (two : float)
    (calls : list measure_call) :
  measure_sound (foldl measure_exec (init float two) calls).
Proof.
  assert (measure_sound (init float two)) as Hinit.
  { split; simpl; try done.
    apply sublist_submseteq. unfold ordered.
    apply sublist_skip, sublist_cons, sublist_skip, sublist_skip. constructor. }
  revert Hinit. generalize (init float two).
  induction calls as [|c calls IH]; intros w Hw; [done|].
  simpl. apply IH. by apply measure_exec_sound.
Qed.

End Float64.

End MeasureBindingFacts.

(* ================================================================== *)
(** * A single intensity frame under several label frames *)
(* ================================================================== *)

Module BroadcastFacts.
Import IO MeasureMembraneIntensity OutlierFacts MeasureFacts ExportFacts.
Local Close Scope string_scope.

(** ** Broadcasting along the first axis *)

Lemma chunks_S {A} (size n : nat) (cells : list A) :
  Np.chunks size (S n) cells
  = take size cells :: Np.chunks size n (drop size cells).
Proof.
  unfold Np.chunks. cbn [seq fmap list_fmap]. rewrite Nat.mul_0_l, drop_0.
  f_equal. rewrite <- fmap_S_seq, <- list_fmap_compose.
  apply list_fmap_ext. intros _ k _. cbn. rewrite drop_drop. done.
Qed.

Lemma concat_chunks {A} (size n : nat) (cells : list A) :
  List.length cells = (n * size)%nat → concat (Np.chunks size n cells) = cells.
Proof.
  revert cells. induction n as [|n IH]; intros cells Hlen.
  - by destruct cells.
  - rewrite chunks_S. cbn [concat]. rewrite IH.
    + apply take_drop.
    + rewrite length_drop. lia.
Qed.

Lemma chunks_lengths {A} (size n : nat) (cells : list A) :
  List.length cells = (n * size)%nat →
  Forall (fun c => List.length c = size) (Np.chunks size n cells).
Proof.
  revert cells. induction n as [|n IH]; intros cells Hlen; [constructor|].
  rewrite chunks_S. constructor.
  - rewrite length_take. lia.
  - apply IH. rewrite length_drop. lia.
Qed.

Lemma broadcast_to_same {A} (shape : list nat) (cells : list A) :
  List.length cells = foldr Nat.mul 1%nat shape →
  Np.broadcast_to shape shape cells = cells.
Proof.
  revert cells. induction shape as [|d shape IH]; intros cells Hlen; [done|].
  cbn [Np.broadcast_to]. rewrite Nat.eqb_refl.
  cbn [foldr] in Hlen.
  rewrite (Forall_fmap_ext_1 (Np.broadcast_to shape shape) id).
  - rewrite list_fmap_id. by apply concat_chunks.
  - eapply Forall_impl; [by apply chunks_lengths|]. intros c Hc. by apply IH.
Qed.

Lemma broadcast_to_one {A} (n : nat) (shape : list nat) (cells : list A) :
  n ≠ 1%nat → List.length cells = foldr Nat.mul 1%nat shape →
  Np.broadcast_to (1%nat :: shape) (n :: shape) cells
  = concat (replicate n cells).
Proof.
  intros Hn Hlen. cbn [Np.broadcast_to].
  destruct (Nat.eqb_spec 1 n) as [?|_]; [lia|].
  rewrite chunks_S. cbn [Np.chunks seq fmap list_fmap concat].
  rewrite app_nil_r, take_ge by lia. by rewrite broadcast_to_same.
Qed.

Lemma broadcast_rev_last (l : list nat) (n : nat) :
  Np.broadcast_rev (l ++ [n]) (l ++ [1%nat]) = Some (l ++ [n]).
Proof.
  induction l as [|d l IH]; cbn [app Np.broadcast_rev].
  - destruct (Nat.eqb_spec n 1) as [->|_]; [done|].
    by destruct (n =? 1)%nat.
  - rewrite IH, Nat.eqb_refl. done.
Qed.

Lemma broadcast_shapes_one (n : nat) (shape : list nat) :
  Np.broadcast_shapes (n :: shape) (1%nat :: shape) = Some (n :: shape).
Proof.
  unfold Np.broadcast_shapes. rewrite !reverse_cons, broadcast_rev_last.
  cbn. by rewrite reverse_app, reverse_involutive.
Qed.

Lemma chunks_zip_with {A B C} (f : A → B → C) (size : nat)
    (frames : list (list A)) (m : list B) :
  List.length m = size →
  Forall (fun fr => List.length fr = size) frames →
  Np.chunks size (List.length frames)
    (zip_with f (concat frames) (concat (replicate (List.length frames) m)))
  = (fun fr => zip_with f fr m) <$> frames.
Proof.
  intros Hm. induction 1 as [|fr frames Hfr _ IH]; [done|].
  cbn [List.length replicate concat fmap list_fmap]. rewrite chunks_S.
  rewrite zip_with_app by lia.
  rewrite take_app_length', drop_app_length'
    by (rewrite length_zip_with; lia).
  by rewrite IH.
Qed.

(** A mask of one frame multiplies every frame of a buffer of another
    number of frames and of its frame shape. *)
Lemma apply_mask_one_frame (buffer : Np.stack) (m : list bool) :
  List.length (Np.frames buffer) ≠ 1%nat →
  List.length m = foldr Nat.mul 1%nat (Np.frame_shape buffer) →
  Forall (fun fr => List.length fr = foldr Nat.mul 1%nat (Np.frame_shape buffer))
         (Np.frames buffer) →
  apply_mask buffer (Np.frame_shape buffer) [m]
  = Ok {| Np.frame_shape := Np.frame_shape buffer;
          Np.frames := (fun fr => zip_with (fun v b => v * Z.b2z b) fr m)
                         <$> Np.frames buffer |}.
Proof.
  intros Hn Hm Hframes. unfold apply_mask.
  rewrite decide_False by (cbn [List.length]; intros [_ ?]; done).
  cbn [List.length]. rewrite broadcast_shapes_one.
  unfold Np.pad_shape. cbn [List.length]. rewrite Nat.sub_diag. cbn [replicate app].
  rewrite broadcast_to_same.
  2:{ cbn [foldr]. clear Hn. induction Hframes as [|fr frames Hfr _ IH]; [done|].
      cbn [concat List.length]. rewrite length_app, IH, Hfr. lia. }
  cbn [concat]. rewrite app_nil_r.
  rewrite broadcast_to_one by done.
  by rewrite chunks_zip_with.
Qed.

Section Float64.

Variable float : Type.
Variable np_mean np_std : list Z → float.
Variable fadd fmul : float → float → float.
Variable lt_float : Z → float → bool.
Variable acc : Np.accumulator.

Abbreviation worker := (t float).
Abbreviation run := (run float np_mean np_std fadd fmul lt_float acc).
Abbreviation kept := (kept float np_mean np_std fadd fmul lt_float).

(** X25.  An intensity channel of one frame under label maps of several
    frames of the same frame shape is not turned down.  The mask of the
    one intensity frame, computed with the labels of the first label
    frame, is broadcast over every label frame; [rings] and [inner] are
    assigned with as many frames as the label maps; the first frame is
    measured, with the files of its regions written, and the measurement
    raises [IndexError] when it asks for the second intensity frame, so
    that [results] is not assigned. *)
Theorem run_broadcasts_a_single_intensity_frame (w : worker)
    (lm ic : Np.stack) (lab0 int : list Z) (σ : world) :
  label_maps float w = Some lm →
  intensity_channel float w = Some ic →
  Np.frame_shape lm = Np.frame_shape ic →
  (List.length (Np.frame_shape lm) = 2%nat
   ∨ List.length (Np.frame_shape lm) = 3%nat) →
  Np.frames ic = [int] →
  Np.frames lm !! 0%nat = Some lab0 →
  (2 <= List.length (Np.frames lm))%nat →
  Forall (fun fr => List.length fr = foldr Nat.mul 1%nat (Np.frame_shape lm))
         (Np.frames lm) →
  List.length int = foldr Nat.mul 1%nat (Np.frame_shape lm) →
  export_dir σ = true →
  ∃ rings inner R0 N0,
    run w σ = (Raise IndexError, with_buffers float rings inner w,
               Nat.iter (calls R0 N0) exported σ)
    ∧ Np.frames rings !! 0%nat = Some R0
    ∧ Np.frames inner !! 0%nat = Some N0
    ∧ results float (with_buffers float rings inner w) = results float w
    ∧ List.length (Np.frames rings) = List.length (Np.frames lm)
    ∧ List.length (Np.frames inner) = List.length (Np.frames lm)
    ∧ ∀ t lab, Np.frames lm !! t = Some lab →
        let bufs := outline_frame (Np.frame_shape lm)
                      (membrane_thickness float w) lab in
        Np.frames rings !! t
        = Some (zip_with (fun v b => v * Z.b2z b) bufs.1 (kept w lab0 int))
        ∧ Np.frames inner !! t
          = Some (zip_with (fun v b => v * Z.b2z b) bufs.2 (kept w lab0 int)).
Proof.
  intros Hlm Hic Hshape Hrank Hint Hlab0 Hmany Hcells Hlen Hdir.
  set (fs := Np.frame_shape lm) in *.
  set (th := membrane_thickness float w).
  set (m := kept w lab0 int).
  set (mul := fun (fr : list Z) => zip_with (fun v b => v * Z.b2z b) fr m).
  set (out := outline_frame fs th <$> Np.frames lm).
  set (rings := {| Np.frame_shape := fs; Np.frames := mul <$> (fst <$> out) |}).
  set (inner := {| Np.frame_shape := fs; Np.frames := mul <$> (snd <$> out) |}).
  assert (List.length m = foldr Nat.mul 1%nat fs) as Hm
    by (unfold m, OutlierFacts.kept; by rewrite length_fmap).
  assert (masked_buffers float np_mean np_std fadd fmul lt_float w
          = Ok (rings, inner)) as Hmb.
  { unfold masked_buffers. rewrite Hlm, Hic.
    unfold remove_outlier_intensities. rewrite Hic, Hint.
    cbn [outlier_loop]. unfold outlier_frame. rewrite Hlm.
    rewrite (getitem_frame _ _ _ Hlab0). cbn [mbind result_bind Py.bind].
    rewrite decide_True by done. cbn [mbind result_bind Py.bind].
    unfold labels_to_outlines. rewrite Hlm. cbn [mbind result_bind Py.bind fst snd].
    fold fs th out. rewrite <- Hshape. fold fs.
    change ((fun v => lt_float v (too_bright float np_mean np_std fadd fmul w lab0 int))
              <$> int) with m.
    rewrite (apply_mask_one_frame {| Np.frame_shape := fs; Np.frames := fst <$> out |});
      cbn [Np.frame_shape Np.frames]; [|unfold out; rewrite !length_fmap; lia|done|].
    2:{ unfold out. rewrite <- list_fmap_compose. apply Forall_fmap.
        eapply Forall_impl; [exact Hcells|]. intros fr Hfr. cbv beta delta [compose].
        destruct (OutlineFacts.outline_frame_spec fs th fr) as (H1 & _).
        rewrite H1. exact Hfr. }
    cbn [mbind result_bind Py.bind].
    rewrite (apply_mask_one_frame {| Np.frame_shape := fs; Np.frames := snd <$> out |});
      cbn [Np.frame_shape Np.frames]; [|unfold out; rewrite !length_fmap; lia|done|].
    2:{ unfold out. rewrite <- list_fmap_compose. apply Forall_fmap.
        eapply Forall_impl; [exact Hcells|]. intros fr Hfr. cbv beta delta [compose].
        destruct (OutlineFacts.outline_frame_spec fs th fr) as (_ & H2 & _).
        rewrite H2. exact Hfr. }
    done. }
  (* the measurement: the first frame goes through, the second one asks
     for an intensity frame that is not there *)
  set (w1 := with_buffers float rings inner w).
  destruct (Np.frames lm) as [|l0 [|l1 rest]] eqn:Hfr; cbn [List.length] in Hmany;
    [lia..|].
  set (R0 := mul (outline_frame fs th l0).1).
  set (N0 := mul (outline_frame fs th l0).2).
  set (rg0 := {| Np.frame_shape := fs; Np.frames := [] |}).
  assert (measurable float (with_buffers float rg0 inner w) rg0 inner ic) as Hmeas.
  { split; [done|done|done|exact Hshape|exact Hshape|exact Hrank| |];
      cbn [Np.frames List.length rg0]; lia. }
  assert (Np.frames ic !! 0%nat = Some int) as HI by (by rewrite Hint).
  pose proof (measure_frame_world float np_mean acc (with_buffers float rg0 inner w)
                rg0 inner ic 0%nat R0 N0 int σ Hmeas Hdir eq_refl HI) as Hworld.
  destruct (measure_frame_spec float np_mean acc (with_buffers float rg0 inner w)
              rg0 inner ic 0%nat R0 N0 int σ Hmeas Hdir eq_refl HI)
    as (res0 & σ1 & Hframe0 & Hdir1 & _).
  rewrite Hframe0 in Hworld. cbn [snd] in Hworld.
  set (R1 := mul (outline_frame fs th l1).1).
  assert (measure_frame float np_mean acc w1 rings inner 1 R1 σ1
          = (Raise IndexError, σ1)) as Hframe1.
  { unfold measure_frame, mbind, io_bind, lift.
    assert (Np.getitem (Np.frames inner) (Z.of_nat 1)
            = Ok (mul (outline_frame fs th l1).2)) as ->
      by (by apply getitem_frame).
    change (intensity_channel float w1) with (intensity_channel float w).
    rewrite Hic. cbn [from_option]. by rewrite Hint. }
  assert (measure_loop float np_mean acc w1 rings inner 0 (Np.frames rings) σ
          = (Raise IndexError, σ1)) as Hloop.
  { change (Np.frames rings)
      with (R0 :: R1 :: (mul <$> (fst <$> (outline_frame fs th <$> rest)))).
    cbn [measure_loop]. unfold mbind at 1, io_bind at 1.
    change (measure_frame float np_mean acc w1 rings inner 0 R0 σ)
      with (measure_frame float np_mean acc (with_buffers float rg0 inner w)
              rg0 inner 0 R0 σ).
    rewrite Hframe0. unfold mbind at 1, io_bind at 1.
    unfold mbind at 1, io_bind at 1. by rewrite Hframe1. }
  exists rings, inner, R0, N0. rewrite <- Hworld.
  split; [|split; [done|split; [done|split; [done|split; [|split]]]]].
  - unfold MeasureMembraneIntensity.run. rewrite Hmb.
    unfold measure_intensities.
    change (MeasureMembraneIntensity.rings float (with_buffers float rings inner w))
      with (Some rings).
    change (MeasureMembraneIntensity.inner float (with_buffers float rings inner w))
      with (Some inner).
    cbn iota beta. unfold mbind, io_bind. fold w1. by rewrite Hloop.
  - unfold rings, out. cbn [Np.frames]. by rewrite !length_fmap.
  - unfold inner, out. cbn [Np.frames]. by rewrite !length_fmap.
  - intros t lab Hlab. cbn zeta. unfold rings, inner, out. cbn [Np.frames].
    rewrite !list_lookup_fmap, Hlab. done.
Qed.

End Float64.

(** The disk in two frames, over the one frame of intensities. *)
Definition two_disks : Np.stack :=
  {| Np.frame_shape := [5; 5]%nat;
     Np.frames := Np.frames Exact.disk ++ Np.frames Exact.disk |}.
Definition two_disks_worker : t Q :=
  with_intensity_channel Q (Some Exact.glare)
    (with_label_maps Q (Some two_disks) Exact.thin).

Lemma run_broadcasts_a_single_intensity_frame_witness :
  ∃ rings inner σ',
    Exact.run two_disks_worker Exact.with_directory
    = (Raise IndexError, with_buffers Q rings inner two_disks_worker, σ')
    ∧ List.length (Np.frames rings) = 2%nat
    ∧ results Q (with_buffers Q rings inner two_disks_worker) = None.
Proof.
  destruct (run_broadcasts_a_single_intensity_frame Q Exact.np_mean Exact.np_std
              Qplus Qmult Exact.lt_float Np.uint64 two_disks_worker two_disks
              Exact.glare _ _ Exact.with_directory eq_refl eq_refl eq_refl
              (or_introl eq_refl) eq_refl eq_refl)
    as (rings & inner & R0 & N0 & Hrun & _ & _ & Hres & Hlen & _).
  - simpl. lia.
  - repeat constructor.
  - reflexivity.
  - reflexivity.
  - eexists rings, inner, _. split; [exact Hrun|]. split; [exact Hlen|].
    exact Hres.
Defined.

End BroadcastFacts.
